(** * Servo choreography and label routing of the waste-segregation scripts

    A shallow embedding of the actuator side of [classifier_app.py] and
    [gemini_trigger_app.py]: the angle-to-command map [deg_to_val], the eased
    sweep [sine_sweep], the deposit programs, the label router
    [trigger_actuator] and the [try / except / finally] wrapper of the main
    loop.

    Python floats are IEEE-754 binary64 numbers.  They are modelled by the
    standard library's [spec_float] at precision 53 and maximal exponent 1024,
    whose operations round to nearest, ties to even, exactly as the hardware
    does.  [math.sin] belongs to the platform's C library; it is a parameter
    of the development, and every theorem states which facts about it are
    used.

    The scripts never read a servo position back: a run is determined by the
    commands it issues.  A computation is therefore modelled by the list of
    hardware and console events it emits together with its outcome (a value or
    a raised exception); the state of the hardware is obtained by replaying
    the events. *)

From Stdlib Require Import ZArith List Lia Bool String Ascii.
From Stdlib Require Import SpecFloat PrimFloat FloatOps.
Import ListNotations.

Local Open Scope Z_scope.

(** ** Binary64 arithmetic *)

Definition float : Type := spec_float.

Declare Scope b64_scope.
Delimit Scope b64_scope with b64.

Definition fadd : float -> float -> float := SFadd prec emax.
Definition fsub : float -> float -> float := SFsub prec emax.
Definition fmul : float -> float -> float := SFmul prec emax.
Definition fdiv : float -> float -> float := SFdiv prec emax.
Definition fleb : float -> float -> bool := SFleb.

Infix "+" := fadd : b64_scope.
Infix "-" := fsub : b64_scope.
Infix "*" := fmul : b64_scope.
Infix "/" := fdiv : b64_scope.
Notation "- x" := (SFopp x) : b64_scope.

(** Conversion of a Python [int] to [float]: exact up to [2^53], rounded
    above. *)
Definition of_int (z : Z) : float := binary_normalize prec emax z 0 false.

(** The float literals of the scripts. *)
Definition lit_0_5 : float := Eval vm_compute in Prim2SF 0.5%float.
Definition lit_0_005 : float := Eval vm_compute in Prim2SF 0x1.47ae147ae147bp-8%float.

(** [math.pi] *)
Definition pi : float := Eval vm_compute in Prim2SF 0x1.921fb54442d18p+1%float.

(** Structural equality on floats; it distinguishes the two zeros. *)
Definition float_eq_dec (x y : float) : {x = y} + {x <> y}.
Proof.
  decide equality; try apply Bool.bool_dec;
    try apply Z.eq_dec; apply Pos.eq_dec.
Defined.

(** [-1 <= v <= 1] as Python evaluates it; false on NaN. *)
Definition in_unit_range (v : float) : bool :=
  fleb (of_int (-1)) v && fleb v (of_int 1).

(** [lo <= v <= hi] or [hi <= v <= lo]. *)
Definition fbetween (lo hi v : float) : bool :=
  (fleb lo v && fleb v hi) || (fleb hi v && fleb v lo).

(** What is used of [math.sin]: at the two binary64 numbers nearest to a
    quarter turn, [math.pi * 0.5] and [math.pi * -0.5], it returns exactly 1.0
    and -1.0 (the exact sines differ from them by less than [2^-100]). *)
Definition sin_exact_at_quarter_turns (sin : float -> float) : Prop :=
  sin (pi * lit_0_5)%b64 = of_int 1 /\ sin (pi * - lit_0_5)%b64 = of_int (-1).

(** Zero or finite, and a valid binary64 representation. *)
Definition fin (x : float) : bool :=
  match x with
  | S754_zero _ => true
  | S754_finite _ m e => bounded prec emax m e
  | _ => false
  end.

(** ... and at every finite argument it returns a number of [[-1, 1]].
    Nothing is asked of it at an infinity, where Python raises [ValueError],
    nor at a NaN, which it returns.  ([valid_binary] sets aside the terms of
    [spec_float] that stand for no binary64 number.) *)
Definition sin_in_unit_range (sin : float -> float) : Prop :=
  forall x, fin x = true ->
            valid_binary prec emax (sin x) = true /\ in_unit_range (sin x) = true.

(** ** Strings: [str.lower] and [str.upper] on ASCII letters

    A label is a byte string.  Bytes outside [A-Z] / [a-z] are left alone; no
    non-ASCII character lower-cases to one of the letters of the recognised
    labels, so the comparisons below decide as Python's do. *)

Definition lower_ascii (c : ascii) : ascii :=
  let n := nat_of_ascii c in
  if andb (Nat.leb 65 n) (Nat.leb n 90) then ascii_of_nat (n + 32) else c.

Definition upper_ascii (c : ascii) : ascii :=
  let n := nat_of_ascii c in
  if andb (Nat.leb 97 n) (Nat.leb n 122) then ascii_of_nat (n - 32) else c.

Fixpoint string_map (f : ascii -> ascii) (s : string) : string :=
  match s with
  | EmptyString => EmptyString
  | String c s' => String (f c) (string_map f s')
  end.

Definition lower : string -> string := string_map lower_ascii.
Definition upper : string -> string := string_map upper_ascii.

(** ** Events, exceptions and the computation monad *)

Inductive servo : Set := servo_tilt | servo_pan.

(** The pieces of a formatted console line. *)
Inductive fragment : Type :=
| Lit (s : string)
| IntArg (z : Z)
| Float2Arg (x : float).

Inductive event : Type :=
| SetValue (srv : servo) (v : float)     (* [srv.value = v], for [v] in [-1, 1] *)
| Detach (srv : servo)                   (* [srv.detach()] *)
| Sleep (secs : float)                   (* [time.sleep(secs)] *)
| Console (line : list fragment)         (* [print(...)] *)
| Input (prompt : string)                (* [input(prompt)] returns *)
| CameraStop.                            (* [picam2.stop()] *)

Inductive exn : Type :=
| KeyboardInterrupt
| ZeroDivisionError
| Exception (what : string).

Inductive result (A : Type) : Type :=
| Ok (a : A)
| Raise (e : exn).
Arguments Ok {A} a.
Arguments Raise {A} e.

Definition M (A : Type) : Type := (list event * result A)%type.

Definition ret {A} (a : A) : M A := ([], Ok a).
Definition raise {A} (e : exn) : M A := ([], Raise e).
Definition emit (e : event) : M unit := ([e], Ok tt).

Definition bind {A B} (m : M A) (k : A -> M B) : M B :=
  match m with
  | (evs, Ok a) => let '(evs', r) := k a in (evs ++ evs', r)
  | (evs, Raise e) => (evs, Raise e)
  end.

Declare Scope py_scope.
Delimit Scope py_scope with py.
Notation "x <- m ;; k" := (bind m (fun x => k))
  (at level 61, m at next level, right associativity) : py_scope.
Notation "m ;; k" := (bind m (fun _ => k))
  (at level 61, right associativity) : py_scope.
Local Open Scope py_scope.

Definition events {A} (m : M A) : list event := fst m.
Definition outcome {A} (m : M A) : result A := snd m.

(** [for x in xs: body(x)] *)
Fixpoint for_each {A} (xs : list A) (body : A -> M unit) : M unit :=
  match xs with
  | [] => ret tt
  | x :: xs' => body x ;; for_each xs' body
  end.

(** [range(n)]: empty when [n <= 0]. *)
Definition range (n : Z) : list Z := map Z.of_nat (seq 0 (Z.to_nat n)).

(** [a / b] on two [int]s: true division.  Up to [2^53] in magnitude both
    operands convert exactly and the quotient is the binary64 quotient of
    the two floats, which is what is modelled. *)
Definition int_truediv (a b : Z) : M float :=
  if b =? 0 then raise ZeroDivisionError
  else ret (of_int a / of_int b)%b64.

Definition set_value (srv : servo) (v : float) : M unit := emit (SetValue srv v).
Definition detach (srv : servo) : M unit := emit (Detach srv).
Definition sleep (secs : float) : M unit := emit (Sleep secs).
Definition print (line : list fragment) : M unit := emit (Console line).
Definition input (prompt : string) : M unit := emit (Input prompt).

(** An asynchronous Ctrl+C delivered after the first [k] events of [m]: the
    rest of [m] does not run and [KeyboardInterrupt] propagates.  If [m] ends
    earlier, nothing is delivered. *)
Definition interrupt_after {A} (k : nat) (m : M A) : M A :=
  if Nat.ltb k (List.length (events m))
  then (firstn k (events m), Raise KeyboardInterrupt)
  else m.

(** ** Hardware state, obtained by replaying events *)

Record hardware : Type := {
  tilt_value : option float;     (* [servo_tilt.value]; [None] once detached *)
  pan_value : option float;      (* [servo_pan.value] *)
  camera_running : bool
}.

Definition write_servo (srv : servo) (v : option float) (hw : hardware) : hardware :=
  match srv with
  | servo_tilt => {| tilt_value := v; pan_value := pan_value hw;
                     camera_running := camera_running hw |}
  | servo_pan => {| tilt_value := tilt_value hw; pan_value := v;
                    camera_running := camera_running hw |}
  end.

Definition step (hw : hardware) (e : event) : hardware :=
  match e with
  | SetValue srv v => write_servo srv (Some v) hw
  | Detach srv => write_servo srv None hw
  | CameraStop => {| tilt_value := tilt_value hw; pan_value := pan_value hw;
                     camera_running := false |}
  | Sleep _ | Console _ | Input _ => hw
  end.

Definition replay (hw : hardware) (evs : list event) : hardware :=
  fold_left step evs hw.

Definition servo_value (srv : servo) (hw : hardware) : option float :=
  match srv with
  | servo_tilt => tilt_value hw
  | servo_pan => pan_value hw
  end.

(** The hardware once the camera runs and before any servo command. *)
Definition hw_boot : hardware :=
  {| tilt_value := None; pan_value := None; camera_running := true |}.

(** The hardware once the script has let go of it. *)
Definition hw_released : hardware :=
  {| tilt_value := None; pan_value := None; camera_running := false |}.

Definition is_detach (srv : servo) (e : event) : bool :=
  match e, srv with
  | Detach servo_tilt, servo_tilt => true
  | Detach servo_pan, servo_pan => true
  | _, _ => false
  end.

(** The value [srv] holds at the moment it is first detached, if it is. *)
Fixpoint value_at_detach (srv : servo) (hw : hardware) (evs : list event)
  : option (option float) :=
  match evs with
  | [] => None
  | e :: evs' =>
      if is_detach srv e then Some (servo_value srv hw)
      else value_at_detach srv (step hw e) evs'
  end.

(** The events that let go of the hardware. *)
Definition is_release (e : event) : bool :=
  match e with
  | Detach _ | CameraStop => true
  | _ => false
  end.

(** A console line with the printed confidence blanked. *)
Definition blank_confidence (e : event) : event :=
  match e with
  | Console line =>
      Console (map (fun f => match f with
                             | Float2Arg _ => Float2Arg (S754_zero false)
                             | _ => f
                             end) line)
  | _ => e
  end.

(** The motion trace of a run: servo commands and pauses, console lines
    dropped. *)
Definition is_motion (e : event) : bool :=
  match e with
  | SetValue _ _ | Detach _ | Sleep _ => true
  | Console _ | Input _ | CameraStop => false
  end.

Definition motion (evs : list event) : list event := filter is_motion evs.

Definition commands_servo (srv : servo) (e : event) : bool :=
  match e, srv with
  | SetValue servo_tilt _, servo_tilt => true
  | SetValue servo_pan _, servo_pan => true
  | _, _ => false
  end.

Definition is_set_value (e : event) : bool :=
  match e with SetValue _ _ => true | _ => false end.

(** The values written to [srv], in order. *)
Fixpoint values_written (srv : servo) (evs : list event) : list float :=
  match evs with
  | [] => []
  | e :: evs' =>
      if commands_servo srv e
      then match e with
           | SetValue _ v => v :: values_written srv evs'
           | _ => values_written srv evs'
           end
      else values_written srv evs'
  end.

(** ** Servo helper functions (identical in both scripts) *)

Definition CENTER_POS : Z := 90.

(** [(deg / 90) - 1].  An angle is a Python [int], as at every call site of
    the scripts: [deg / 90] is a true division of two [int]s and [1] is
    converted for the subtraction. *)
Definition deg_to_val (deg : Z) : float :=
  ((of_int deg / of_int 90) - of_int 1)%b64.

(** The command of the Neutral Position. *)
Definition neutral : float := deg_to_val CENTER_POS.

Definition default_steps : Z := 200.
Definition default_delay : float := lit_0_005.

Section ServoHelpers.

(** [math.sin] *)
Variable sin : float -> float.

(** The body of the loop of [sine_sweep] up to the computation of
    [current_val], for a given [t]. *)
Definition eased_fraction (t : float) : float :=
  let eased_val := sin (pi * (t - lit_0_5))%b64 in
  ((eased_val + of_int 1) / of_int 2)%b64.

Definition current_val (start_val delta_val t : float) : float :=
  (start_val + (delta_val * eased_fraction t))%b64.

Definition sine_sweep (srv : servo) (start_deg end_deg : Z)
           (steps : Z) (delay : float) : M unit :=
  let start_val := deg_to_val start_deg in
  let end_val := deg_to_val end_deg in
  let delta_val := (end_val - start_val)%b64 in
  for_each (range (steps + 1)) (fun i =>
    t <- int_truediv i steps ;;
    set_value srv (current_val start_val delta_val t) ;;
    sleep delay).

(** The value commanded at step [i] of a sweep with [steps <> 0]. *)
Definition step_value (start_deg end_deg steps i : Z) : float :=
  current_val (deg_to_val start_deg)
              (deg_to_val end_deg - deg_to_val start_deg)%b64
              (of_int i / of_int steps)%b64.

(** The events of a sweep that runs to completion. *)
Definition sweep_trace (srv : servo) (start_deg end_deg : Z)
           (steps : Z) (delay : float) : list event :=
  flat_map (fun i => [SetValue srv (step_value start_deg end_deg steps i);
                      Sleep delay])
           (range (steps + 1)).

End ServoHelpers.

(** ** The wrapper of both main loops

    [try: body  except KeyboardInterrupt: ...  except Exception as e: ...
     finally: picam2.stop(); servo_tilt.detach(); servo_pan.detach(); print(...)]

    The body is a [while True] loop, so it only ends by raising. *)

Definition msg_stopped : list fragment :=
  [Lit "[INFO] Program stopped by user (Ctrl+C)."].

Definition msg_unexpected (e : exn) : list fragment :=
  [Lit "An unexpected error occurred: ";
   Lit match e with
       | ZeroDivisionError => "division by zero"
       | Exception what => what
       | KeyboardInterrupt => EmptyString
       end].

Definition msg_released : list fragment :=
  [Lit "Camera stopped and servos detached. System resources released. Exiting."].

Definition finally_block : M unit :=
  emit CameraStop ;;
  detach servo_tilt ;;
  detach servo_pan ;;
  print msg_released.

Definition handler (e : exn) : M unit :=
  match e with
  | KeyboardInterrupt => print msg_stopped
  | _ => print (msg_unexpected e)
  end.

Definition try_except_finally (body : M unit) : M unit :=
  match body with
  | (evs, Ok _) => (evs, Ok tt) ;; finally_block
  | (evs, Raise e) => (evs, Ok tt) ;; handler e ;; finally_block
  end.

(** What the handlers and the [finally] block emit after the body raised
    [e]. *)
Definition shutdown_trace (e : exn) : list event :=
  [Console match e with
           | KeyboardInterrupt => msg_stopped
           | _ => msg_unexpected e
           end;
   CameraStop; Detach servo_tilt; Detach servo_pan; Console msg_released].

(** * classifier_app.py *)

Module ClassifierApp.

Definition WET_POS : Z := 45.
Definition DRY_POS : Z := 135.

(** What [capture_and_classify] hands back: the arg-max label and its
    probability, or an exception of the camera or the interpreter. *)
Inductive classification : Type :=
| Classified (predicted_class : string) (confidence : float)
| ClassifierRaised (what : string).

Section WithSin.
Variable sin : float -> float.

Definition run_deposit_sequence (target_angle : Z) : M unit :=
  print [Lit "1. Panning to target angle ("; IntArg target_angle; Lit " deg)"] ;;
  sine_sweep sin servo_pan CENTER_POS target_angle default_steps default_delay ;;
  sleep lit_0_5 ;;
  print [Lit "2. Tilting to drop waste..."] ;;
  sine_sweep sin servo_tilt CENTER_POS 0 default_steps default_delay ;;
  sleep (of_int 1) ;;
  sine_sweep sin servo_tilt 0 CENTER_POS default_steps default_delay ;;
  print [Lit "3. Returning Pan to Center ("; IntArg CENTER_POS; Lit " deg)"] ;;
  sine_sweep sin servo_pan target_angle CENTER_POS default_steps default_delay ;;
  print [Lit "Deposit sequence complete."].

Definition msg_action (waste_type : string) : list fragment :=
  [Lit "**Action:** Directing waste to the **"; Lit (upper waste_type);
   Lit "** bin."].

Definition msg_unknown : list fragment :=
  [Lit "ERROR: Unknown classification result. Staying at center."].

Definition trigger_actuator (waste_type : string) : M unit :=
  print (msg_action waste_type) ;;
  if String.eqb (lower waste_type) "wet" then
    run_deposit_sequence WET_POS
  else if String.eqb (lower waste_type) "dry" then
    run_deposit_sequence DRY_POS
  else if String.eqb (lower waste_type) "mixed" then
    print [Lit "No pan required (Mixed Waste). Tilting to drop..."] ;;
    sine_sweep sin servo_tilt CENTER_POS 0 default_steps default_delay ;;
    sleep (of_int 1) ;;
    sine_sweep sin servo_tilt 0 CENTER_POS default_steps default_delay
  else
    print msg_unknown ;;
    sleep lit_0_5.

Definition capture_and_classify (c : classification) : M (string * float) :=
  print [Lit "--- Starting Classification Cycle ---"] ;;
  print [Lit "Capturing image..."] ;;
  match c with
  | Classified predicted_class confidence => ret (predicted_class, confidence)
  | ClassifierRaised what => raise (Exception what)
  end.

Definition prompt : string :=
  "[Awaiting input...] Press ENTER to continue sorting. ".

(** One pass through the body of [while True], after ENTER. *)
Definition cycle (c : classification) : M unit :=
  print [Lit "============================================="] ;;
  pc <- capture_and_classify c ;;
  let '(predicted_class, confidence) := pc in
  print [Lit "--- CLASSIFICATION RESULT ---"] ;;
  print [Lit "Predicted Class: **"; Lit predicted_class; Lit "**"] ;;
  print [Lit "Confidence: "; Float2Arg confidence] ;;
  trigger_actuator predicted_class.

(** The operator presses ENTER once per element of [presses] and then
    answers the prompt with Ctrl+C. *)
Fixpoint main_loop (presses : list classification) : M unit :=
  match presses with
  | [] => raise KeyboardInterrupt
  | c :: rest => input prompt ;; cycle c ;; main_loop rest
  end.

Definition main_body (presses : list classification) : M unit :=
  print [Lit "*** READY ***"] ;;
  print [Lit "Press [ENTER] on the keyboard to CAPTURE and CLASSIFY waste. Press Ctrl+C to exit."] ;;
  main_loop presses.

(** The body of the [try]; with [sigint = Some k], Ctrl+C is pressed after
    its first [k] events. *)
Definition guarded_body (presses : list classification) (sigint : option nat)
  : M unit :=
  match sigint with
  | Some k => interrupt_after k (main_body presses)
  | None => main_body presses
  end.

Definition main (presses : list classification) (sigint : option nat) : M unit :=
  try_except_finally (guarded_body presses sigint).

End WithSin.

(** Module-level initialisation: both servos are sent to the centre. *)
Definition startup : M unit :=
  set_value servo_tilt (deg_to_val CENTER_POS) ;;
  set_value servo_pan (deg_to_val CENTER_POS).

(** A run of the script: initialisation, then the guarded main loop. *)
Definition script (sin : float -> float) (presses : list classification)
           (sigint : option nat) : M unit :=
  startup ;; main sin presses sigint.

(** What decides a cycle: the label, or the failure of the classifier. *)
Definition label_of (c : classification) : string + string :=
  match c with
  | Classified predicted_class _ => inl predicted_class
  | ClassifierRaised what => inr what
  end.

End ClassifierApp.

(** * gemini_trigger_app.py *)

Module GeminiTriggerApp.

Definition WET_POS : Z := 135.
Definition DRY_POS : Z := 45.
Definition MIXED_HAZ_POS : Z := 135.

(** One trigger: the capture fails, or [classify_with_gemini] returns a
    string (a category, ["unknown"] or an ["error: ..."] marker). *)
Inductive trigger : Type :=
| CaptureFailed (what : string)
| Classification (classification : string).

Section WithSin.
Variable sin : float -> float.

Definition run_drop_tilt_cycle (tilt_pos return_pos : Z) : M unit :=
  sine_sweep sin servo_tilt return_pos tilt_pos default_steps default_delay ;;
  sleep (of_int 1) ;;
  sine_sweep sin servo_tilt tilt_pos return_pos default_steps default_delay.

(** [tilt_target] is accepted and not used: the tilt goes to 180. *)
Definition run_pan_tilt_sequence (pan_target tilt_target : Z) : M unit :=
  print [Lit "1. Panning to target angle ("; IntArg pan_target; Lit " deg)"] ;;
  sine_sweep sin servo_pan CENTER_POS pan_target default_steps default_delay ;;
  sleep lit_0_5 ;;
  print [Lit "2. Tilting fully to 180 degrees..."] ;;
  sine_sweep sin servo_tilt CENTER_POS 180 default_steps default_delay ;;
  sleep (of_int 1) ;;
  sine_sweep sin servo_tilt 180 CENTER_POS default_steps default_delay ;;
  print [Lit "3. Returning Pan to Center ("; IntArg CENTER_POS; Lit " deg)"] ;;
  sine_sweep sin servo_pan pan_target CENTER_POS default_steps default_delay ;;
  print [Lit "Deposit sequence complete."].

Definition msg_action (classification : string) : list fragment :=
  [Lit "**Action:** Directing waste to the **"; Lit (upper classification);
   Lit "** bin."].

Definition msg_ignored (classification : string) : list fragment :=
  [Lit "Actuator ignored. Classification error or unknown result: ";
   Lit classification].

Definition trigger_actuator (classification : string) : M unit :=
  print (msg_action classification) ;;
  if String.eqb classification "wet" then
    print [Lit "WET WASTE DETECTED: Running tilt-only drop sequence."] ;;
    run_drop_tilt_cycle 0 CENTER_POS
  else if String.eqb classification "dry" then
    print [Lit "DRY WASTE DETECTED: Running custom pan and full tilt drop sequence."] ;;
    run_pan_tilt_sequence DRY_POS 180
  else if String.eqb classification "mixed" then
    print [Lit "MIXED WASTE DETECTED: Running custom pan and full tilt drop sequence."] ;;
    run_pan_tilt_sequence MIXED_HAZ_POS 180
  else
    print (msg_ignored classification).

Definition prompt : string :=
  "[Awaiting trigger] Press ENTER to capture and classify (Ctrl+C to exit).".

Definition cycle (t : trigger) : M unit :=
  match t with
  | CaptureFailed what =>
      print [Lit "Error capturing image: "; Lit what]
  | Classification classification =>
      print [Lit "Analyzing the image..."] ;;
      print [Lit "============================================="] ;;
      print [Lit "WASTE CLASSIFICATION: **"; Lit (upper classification); Lit "**"] ;;
      trigger_actuator classification ;;
      print [Lit "============================================="]
  end.

Fixpoint main_loop (triggers : list trigger) : M unit :=
  match triggers with
  | [] => raise KeyboardInterrupt
  | t :: rest => input prompt ;; cycle t ;; main_loop rest
  end.

Definition main_body (triggers : list trigger) : M unit :=
  print [Lit "*** WASTE CLASSIFIER READY ***"] ;;
  main_loop triggers.

Definition guarded_body (triggers : list trigger) (sigint : option nat)
  : M unit :=
  match sigint with
  | Some k => interrupt_after k (main_body triggers)
  | None => main_body triggers
  end.

Definition main (triggers : list trigger) (sigint : option nat) : M unit :=
  try_except_finally (guarded_body triggers sigint).

End WithSin.

Definition startup : M unit :=
  set_value servo_tilt (deg_to_val CENTER_POS) ;;
  set_value servo_pan (deg_to_val CENTER_POS).

Definition script (sin : float -> float) (triggers : list trigger)
           (sigint : option nat) : M unit :=
  startup ;; main sin triggers sigint.

End GeminiTriggerApp.

(** * A reference sine

    Where a concrete [math.sin] is needed (to run a complete program, or to
    show that the facts assumed of it can be met), this one is used: the
    Taylor series of the sine, summed in fixed point with 128 fractional bits
    and rounded once to binary64.  Outside [[-1, 1]] (arguments far from 0,
    where the truncated series is useless) it answers 0. *)

Module RefSin.

Definition frac_bits : Z := 128.

(** [x * 2^128], truncated. *)
Definition to_fixed (x : float) : Z :=
  match x with
  | S754_finite s m e =>
      let a := Z.shiftl (Zpos m) (e + frac_bits) in
      if s then - a else a
  | _ => 0
  end.

(** [series n x2 k term acc]: adds [n] further terms of the series;
    [term] is [(-1)^k x^(2k+1) / (2k+1)!]. *)
Fixpoint series (n : nat) (x2 : Z) (k : Z) (term acc : Z) : Z :=
  match n with
  | O => acc
  | S n' =>
      let term' := - (Z.shiftr (term * x2) frac_bits) / ((2 * k + 2) * (2 * k + 3)) in
      series n' x2 (k + 1) term' (acc + term')
  end.

Definition sin_fixed (x : Z) : Z :=
  series 16 (Z.shiftr (x * x) frac_bits) 0 x x.

Definition sin (x : float) : float :=
  let v := binary_normalize prec emax (sin_fixed (to_fixed x)) (- frac_bits) false in
  if valid_binary prec emax v && in_unit_range v then v else S754_zero false.

End RefSin.

(** * Deposit programs as data

    The programs of the specification: an ordered list of sweeps and pauses.
    A sweep uses the default step count and delay, as every call site of the
    scripts does. *)

Inductive segment : Type :=
| Sweep (srv : servo) (from_deg to_deg : Z)
| Pause (secs : float).

Definition tilt_only_drop (drop_angle : Z) : list segment :=
  [Sweep servo_tilt CENTER_POS drop_angle;
   Pause (of_int 1);
   Sweep servo_tilt drop_angle CENTER_POS].

Definition pan_tilt_drop (target_pan full_drop : Z) : list segment :=
  [Sweep servo_pan CENTER_POS target_pan;
   Pause lit_0_5;
   Sweep servo_tilt CENTER_POS full_drop;
   Pause (of_int 1);
   Sweep servo_tilt full_drop CENTER_POS;
   Sweep servo_pan target_pan CENTER_POS].

Section ProgramTraceDefs.
Variable sin : float -> float.

Definition segment_trace (g : segment) : list event :=
  match g with
  | Sweep srv a b => sweep_trace sin srv a b default_steps default_delay
  | Pause secs => [Sleep secs]
  end.

Definition program_trace (p : list segment) : list event :=
  flat_map segment_trace p.

End ProgramTraceDefs.


(** The labels [trigger_actuator] of [gemini_trigger_app.py] acts upon: it
    compares the label as it is. *)
Definition gemini_recognised (classification : string) : bool :=
  String.eqb classification "wet"
  || String.eqb classification "dry"
  || String.eqb classification "mixed".


(** * Exact values of binary64 numbers

    To reason about rounding, the number [m * 2^e] is represented by the
    integer [m * 2^(e + 2200)]: the exponents met by the binary64 operations
    (down to [-2148] in a product) all stay above [-2200].  In these units
    1.0 is [2 ^ value_scale] and half a unit in the last place of 1.0 is
    [2 ^ (value_scale - 53)]. *)

Definition value_scale : Z := 2200.

Definition bval (m e : Z) : Z := m * 2 ^ (e + value_scale).

(** The number of binary digits of a mantissa. *)
Definition dig (p : positive) : Z := Zpos (digits2_pos p).

(** The outcome [m2] of rounding [m / 2^k] to nearest, ties to even. *)
Definition round_ok (m k m2 : Z) : Prop :=
  (m2 = m / 2 ^ k /\ 2 * (m mod 2 ^ k) <= 2 ^ k)
  \/ (m2 = m / 2 ^ k + 1 /\ 2 ^ k <= 2 * (m mod 2 ^ k)
      /\ (2 * (m mod 2 ^ k) = 2 ^ k -> Z.odd (m / 2 ^ k) = true)).

(** The float made of sign [s], rounded mantissa [m2] and exponent [E]. *)
Definition pack (s : bool) (m2 E : Z) : spec_float :=
  if m2 =? 0 then S754_zero s
  else if m2 =? 2 ^ 53 then
    if E + 1 <=? 971 then S754_finite s (Z.to_pos (2 ^ 52)) (E + 1)
    else S754_infinity s
  else
    if E <=? 971 then S754_finite s (Z.to_pos m2) E else S754_infinity s.

(** A mantissa and exponent in canonical position: at most 53 digits, and
    exactly 53 above the smallest exponent. *)
Definition canon (m e : Z) : Prop :=
  0 < m < 2 ^ 53 /\ -1074 <= e /\ (2 ^ 52 <= m \/ e = -1074).

(** ... of a finite binary64 number. *)
Definition repr (m e : Z) : Prop := canon m e /\ e <= 971.

(** The magnitude and the value of a float, scaled; 0 for what is not
    finite. *)
Definition fmag (x : spec_float) : Z :=
  match x with
  | S754_finite _ m e => bval (Zpos m) e
  | _ => 0
  end.

Definition fval (x : spec_float) : Z :=
  match x with
  | S754_finite true m e => - bval (Zpos m) e
  | S754_finite false m e => bval (Zpos m) e
  | _ => 0
  end.

(** Zero of sign [s] or finite of sign [s]. *)
Definition has_sign (s : bool) (x : spec_float) : Prop :=
  match x with
  | S754_zero s' => s' = s
  | S754_finite s' _ _ => s' = s
  | _ => False
  end.

(** The result of an addition or a subtraction whose exact value is [v]:
    either it is exact, or it is the rounding of [v]. *)
Definition exact_or_rounded (r : spec_float) (v : Z) : Prop :=
  (fin r = true /\ fval r = v)
  \/ (exists M e, - value_scale <= e /\ bval M e = v
                  /\ r = binary_normalize prec emax M e false).

(** * Checks over the integer angles of the dial *)

(** The command of an angle is a valid float of [[-1, 1]] ... *)
Definition deg_to_val_checks (deg : Z) : bool :=
  fin (deg_to_val deg) && in_unit_range (deg_to_val deg).

(** ... and is not [-0.0] ... *)
Definition deg_to_val_nonnegzero (deg : Z) : bool :=
  if float_eq_dec (deg_to_val deg) (S754_zero true) then false else true.



(** Both servos hold the command of the Neutral Position. *)
Definition at_neutral (hw : hardware) : Prop :=
  tilt_value hw = Some neutral /\ pan_value hw = Some neutral.

(** Two computations that differ at most in the confidences they print. *)
Definition same_but_confidence {A} (m1 m2 : M A) : Prop :=
  map blank_confidence (events m1) = map blank_confidence (events m2)
  /\ outcome m1 = outcome m2.


(** * Texts: [str.strip]

    A text is a string of characters below U+0100, one [ascii] each.
    [str.strip()] removes from both ends the characters for which
    [str.isspace] holds; below U+0100 these are tab, line feed, vertical tab,
    form feed, carriage return, the four separators U+001C to U+001F, the
    space, U+0085 and U+00A0. *)

Definition is_space (c : ascii) : bool :=
  let n := nat_of_ascii c in
  (Nat.leb 9 n && Nat.leb n 13) || (Nat.leb 28 n && Nat.leb n 32)
  || Nat.eqb n 133 || Nat.eqb n 160.

Fixpoint lstrip (s : string) : string :=
  match s with
  | EmptyString => EmptyString
  | String c s' => if is_space c then lstrip s' else s
  end.

Fixpoint rstrip (s : string) : string :=
  match s with
  | EmptyString => EmptyString
  | String c s' =>
      match rstrip s' with
      | EmptyString => if is_space c then EmptyString else String c EmptyString
      | r => String c r
      end
  end.

Definition strip (s : string) : string := rstrip (lstrip s).

(** A text made of white space only. *)
Fixpoint all_space (s : string) : bool :=
  match s with
  | EmptyString => true
  | String c s' => is_space c && all_space s'
  end.

(** What else is used of [math.sin]: it returns 0.0 at 0.0. *)
Definition sin_zero (sin : float -> float) : Prop :=
  sin (S754_zero false) = S754_zero false.

(** * Classes of events *)

Definition is_sleep (e : event) : bool :=
  match e with Sleep _ => true | _ => false end.

(** The value of a servo command is one the driver accepts. *)
Definition command_in_range (e : event) : bool :=
  match e with
  | SetValue _ v => in_unit_range v
  | _ => true
  end.

(** * Properties along a trace *)

(** [P] holds of the hardware after every prefix of a trace. *)
Definition throughout (P : hardware -> Prop) (hw : hardware) (evs : list event)
  : Prop :=
  forall pre post, evs = pre ++ post -> P (replay hw pre).

(** The tilt servo is level, or the pan servo points at [target]. *)
Definition level_or_on_target (target : Z) (hw : hardware) : Prop :=
  tilt_value hw = Some neutral \/ pan_value hw = Some (deg_to_val target).

(** * gemini_trigger_app.py: capture and classification *)

Module GeminiClassify.

(** What the [try] block of [classify_with_gemini] comes to: the text of the
    response, an [APIError], or any other [Exception] (reading the image,
    building the client, a response without text); [what] is [str(e)]. *)
Inductive api_reply : Type :=
| Replied (text : string)
| ApiFailed (what : string)
| OtherFailure (what : string).

(** One trigger, as the outside world answers it. *)
Record attempt : Type := {
  capture_error : option string;   (* the exception of [picam2.capture_file] *)
  image_exists : bool;             (* [os.path.exists(path)] *)
  reply : api_reply
}.

(** [not API_KEY], for [API_KEY = os.environ.get("GEMINI_API_KEY")]. *)
Definition key_not_set (api_key : option string) : bool :=
  match api_key with
  | None => true
  | Some EmptyString => true
  | Some (String _ _) => false
  end.

Definition categories : list string := ["wet"; "dry"; "mixed"]%string.

Definition classify_with_gemini (api_key : option string) (a : attempt) : string :=
  if negb (image_exists a) then "error: no image"
  else if key_not_set api_key then "error: API key not set"
  else
    match reply a with
    | Replied text =>
        let classification_result := lower (strip text) in
        if existsb (String.eqb classification_result) categories
        then classification_result
        else "unknown"
    | ApiFailed what => "error: api " ++ what
    | OtherFailure what => "error: general " ++ what
    end.

Definition capture_image_from_pi_cam (a : attempt) : M bool :=
  match capture_error a with
  | None => ret true
  | Some what =>
      print [Lit "Error capturing image: "; Lit what] ;;
      ret false
  end.

Section WithSin.
Variable sin : float -> float.
Variable api_key : option string.

(** The body of [while True], after ENTER. *)
Definition loop_body (a : attempt) : M unit :=
  captured <- capture_image_from_pi_cam a ;;
  if negb captured then ret tt
  else
    print [Lit "Analyzing the image..."] ;;
    let classification := classify_with_gemini api_key a in
    print [Lit "============================================="] ;;
    print [Lit "WASTE CLASSIFICATION: **"; Lit (upper classification); Lit "**"] ;;
    GeminiTriggerApp.trigger_actuator sin classification ;;
    print [Lit "============================================="].

(** ENTER is pressed once per attempt, then Ctrl+C answers the prompt. *)
Fixpoint main_loop (attempts : list attempt) : M unit :=
  match attempts with
  | [] => raise KeyboardInterrupt
  | a :: rest =>
      input GeminiTriggerApp.prompt ;; loop_body a ;; main_loop rest
  end.

Definition main_body (attempts : list attempt) : M unit :=
  print [Lit "*** WASTE CLASSIFIER READY ***"] ;;
  main_loop attempts.

Definition main (attempts : list attempt) : M unit :=
  try_except_finally (main_body attempts).

End WithSin.

(** The trigger an attempt amounts to. *)
Definition trigger_of (api_key : option string) (a : attempt)
  : GeminiTriggerApp.trigger :=
  match capture_error a with
  | Some what => GeminiTriggerApp.CaptureFailed what
  | None => GeminiTriggerApp.Classification (classify_with_gemini api_key a)
  end.

End GeminiClassify.

(** * classifier_app.py: labels and prediction *)

Module ClassifierLabels.

(** [labels = [line.strip() for line in f.readlines()]] *)
Definition load_labels (lines : list string) : list string := map strip lines.

(** The end of [capture_and_classify]: [predicted_index] is the index that
    [np.argmax] returned and [confidence] the probability at that index;
    [labels[predicted_index]] raises [IndexError] past the end of the
    list. *)
Definition predict (labels : list string) (predicted_index : nat)
           (confidence : float) : ClassifierApp.classification :=
  match nth_error labels predicted_index with
  | Some predicted_class => ClassifierApp.Classified predicted_class confidence
  | None => ClassifierApp.ClassifierRaised "list index out of range"
  end.

End ClassifierLabels.
(** * Generic facts about computations *)

Lemma bind_ok {A B} (evs : list event) (a : A) (k : A -> M B) :
  bind (evs, Ok a) k = (evs ++ events (k a), outcome (k a)).
Proof. unfold bind, events, outcome. destruct (k a); reflexivity. Qed.

Lemma bind_raise {A B} (evs : list event) (e : exn) (k : A -> M B) :
  bind (evs, Raise e) k = (evs, Raise e).
Proof. reflexivity. Qed.

Lemma outcome_bind {A B} (m : M A) (k : A -> M B) :
  outcome (bind m k)
  = match outcome m with
    | Ok a => outcome (k a)
    | Raise e => Raise e
    end.
Proof.
  destruct m as [evs [a|e]]; [now rewrite bind_ok | reflexivity].
Qed.

Lemma events_bind {A B} (m : M A) (k : A -> M B) :
  events (bind m k)
  = events m ++ match outcome m with
                | Ok a => events (k a)
                | Raise _ => []
                end.
Proof.
  destruct m as [evs [a|e]]; [now rewrite bind_ok|].
  cbn [bind events outcome fst snd]. now rewrite app_nil_r.
Qed.

Lemma M_eta {A} (m : M A) : m = (events m, outcome m).
Proof. now destruct m. Qed.

Lemma for_each_ok {A} (xs : list A) (body : A -> M unit) (tr : A -> list event) :
  (forall x, In x xs -> body x = (tr x, Ok tt)) ->
  for_each xs body = (flat_map tr xs, Ok tt).
Proof.
  induction xs as [|x xs IH]; intros Hbody; cbn [for_each flat_map].
  - reflexivity.
  - rewrite (Hbody x) by now left.
    rewrite bind_ok, IH by (intros y Hy; apply Hbody; now right).
    reflexivity.
Qed.

Lemma range_spec (n i : Z) : In i (range n) <-> 0 <= i < n.
Proof.
  unfold range. rewrite in_map_iff. split.
  - intros (k & <- & Hk). apply in_seq in Hk. lia.
  - intros Hi. exists (Z.to_nat i). split; [lia|]. apply in_seq. lia.
Qed.

Lemma range_succ (n : Z) : 0 <= n -> range (n + 1) = range n ++ [n].
Proof.
  intros Hn. unfold range.
  replace (Z.to_nat (n + 1)) with (S (Z.to_nat n)) by lia.
  rewrite seq_S, map_app. simpl. now rewrite Z2Nat.id.
Qed.

Lemma range_pos_head (n : Z) :
  0 < n -> exists tl, range n = 0 :: tl.
Proof.
  intros Hn. unfold range.
  destruct (Z.to_nat n) as [|k] eqn:E; [lia|]. simpl. eauto.
Qed.

(** ** Replaying and filtering traces *)

Lemma replay_app (hw : hardware) (e1 e2 : list event) :
  replay hw (e1 ++ e2) = replay (replay hw e1) e2.
Proof. apply fold_left_app. Qed.

Lemma motion_app (e1 e2 : list event) : motion (e1 ++ e2) = motion e1 ++ motion e2.
Proof. apply filter_app. Qed.

Lemma values_written_app (srv : servo) (e1 e2 : list event) :
  values_written srv (e1 ++ e2) = values_written srv e1 ++ values_written srv e2.
Proof.
  induction e1 as [|e e1 IH]; simpl; [reflexivity|].
  destruct (commands_servo srv e); [destruct e|]; rewrite ?IH; reflexivity.
Qed.

Lemma write_servo_twice (srv : servo) (v v' : option float) (hw : hardware) :
  write_servo srv v (write_servo srv v' hw) = write_servo srv v hw.
Proof. destruct srv; reflexivity. Qed.

(** Replaying a run of writes to one servo, each followed by a pause, leaves
    the last value written. *)
Lemma replay_writes {A} (hw : hardware) (srv : servo) (g : A -> float)
      (delay : float) (l : list A) :
  replay hw (flat_map (fun i => [SetValue srv (g i); Sleep delay]) l)
  = match rev l with
    | [] => hw
    | i :: _ => write_servo srv (Some (g i)) hw
    end.
Proof.
  revert hw. induction l as [|i l IH]; intros hw; [reflexivity|].
  cbn [flat_map app]. unfold replay in *. cbn [fold_left step].
  rewrite IH. cbn [rev].
  destruct (rev l) as [|j r]; cbn [app]; [reflexivity|].
  apply write_servo_twice.
Qed.

(** ** The shape of a sweep *)

Section SweepShape.
Variable sin : float -> float.

Lemma sine_sweep_run (srv : servo) (a b steps : Z) (delay : float) :
  steps <> 0 ->
  sine_sweep sin srv a b steps delay = (sweep_trace sin srv a b steps delay, Ok tt).
Proof.
  intros Hs. unfold sine_sweep, sweep_trace.
  apply for_each_ok. intros i _.
  unfold int_truediv. destruct (Z.eqb_spec steps 0) as [?|_]; [contradiction|].
  reflexivity.
Qed.

Lemma sine_sweep_zero_steps (srv : servo) (a b : Z) (delay : float) :
  sine_sweep sin srv a b 0 delay = ([], Raise ZeroDivisionError).
Proof. reflexivity. Qed.

Lemma sine_sweep_negative_steps (srv : servo) (a b steps : Z) (delay : float) :
  steps < 0 -> sine_sweep sin srv a b steps delay = ([], Ok tt).
Proof.
  intros Hs. unfold sine_sweep, range.
  replace (Z.to_nat (steps + 1)) with O by lia. reflexivity.
Qed.

Lemma sweep_trace_values (srv : servo) (a b steps : Z) (delay : float) :
  values_written srv (sweep_trace sin srv a b steps delay)
  = map (step_value sin a b steps) (range (steps + 1)).
Proof.
  unfold sweep_trace. induction (range (steps + 1)) as [|i l IH]; simpl.
  - reflexivity.
  - destruct srv; simpl; now rewrite IH.
Qed.

Lemma sweep_trace_other (srv srv' : servo) (a b steps : Z) (delay : float) :
  srv <> srv' ->
  values_written srv' (sweep_trace sin srv a b steps delay) = [].
Proof.
  intros Hne. unfold sweep_trace.
  induction (range (steps + 1)) as [|i l IH]; simpl; [reflexivity|].
  destruct srv, srv'; simpl; try congruence; exact IH.
Qed.

(** After a completed sweep the servo holds the value of the last step and
    the rest of the hardware is as before. *)
Lemma replay_sweep_trace (hw : hardware) (srv : servo) (a b steps : Z)
      (delay : float) :
  0 <= steps ->
  replay hw (sweep_trace sin srv a b steps delay)
  = write_servo srv (Some (step_value sin a b steps steps)) hw.
Proof.
  intros Hs. unfold sweep_trace.
  rewrite replay_writes, range_succ, rev_app_distr by assumption.
  reflexivity.
Qed.

End SweepShape.

(** * Traces of the deposit programs *)

Section ProgramTraces.
Variable sin : float -> float.

Lemma motion_sweep_trace (srv : servo) (a b steps : Z) (delay : float) :
  motion (sweep_trace sin srv a b steps delay) = sweep_trace sin srv a b steps delay.
Proof.
  unfold sweep_trace, motion.
  induction (range (steps + 1)) as [|i l IH]; cbn [flat_map app filter is_motion].
  - reflexivity.
  - now rewrite IH.
Qed.

Lemma default_steps_nonzero : default_steps <> 0.
Proof. discriminate. Qed.

End ProgramTraces.

Ltac run_program :=
  unfold print, sleep, set_value, detach, input, emit, ret, raise;
  rewrite ?sine_sweep_run by exact default_steps_nonzero;
  cbn [bind events outcome fst snd].

Ltac motion_simpl :=
  rewrite ?motion_app, ?motion_sweep_trace;
  cbn [motion filter is_motion app];
  rewrite ?motion_sweep_trace.

Ltac program_shape :=
  unfold program_trace, pan_tilt_drop, tilt_only_drop;
  cbn [flat_map segment_trace app];
  rewrite <- ?app_assoc; cbn [app]; rewrite ?app_nil_r;
  reflexivity.

Section Programs.
Variable sin : float -> float.

(** *** classifier_app.py *)

Lemma classifier_run_deposit_sequence_ok (target : Z) :
  outcome (ClassifierApp.run_deposit_sequence sin target) = Ok tt.
Proof. unfold ClassifierApp.run_deposit_sequence. run_program. reflexivity. Qed.

Lemma classifier_run_deposit_sequence_motion (target : Z) :
  motion (events (ClassifierApp.run_deposit_sequence sin target))
  = program_trace sin (pan_tilt_drop target 0).
Proof.
  unfold ClassifierApp.run_deposit_sequence. run_program.
  motion_simpl. program_shape.
Qed.

(** *** gemini_trigger_app.py *)

Lemma gemini_run_pan_tilt_sequence_ok (pan_target tilt_target : Z) :
  outcome (GeminiTriggerApp.run_pan_tilt_sequence sin pan_target tilt_target) = Ok tt.
Proof. unfold GeminiTriggerApp.run_pan_tilt_sequence. run_program. reflexivity. Qed.

Lemma gemini_run_pan_tilt_sequence_motion (pan_target tilt_target : Z) :
  motion (events (GeminiTriggerApp.run_pan_tilt_sequence sin pan_target tilt_target))
  = program_trace sin (pan_tilt_drop pan_target 180).
Proof.
  unfold GeminiTriggerApp.run_pan_tilt_sequence. run_program.
  motion_simpl. program_shape.
Qed.

End Programs.

(** * Routing *)

Section Routing.
Variable sin : float -> float.


Lemma gemini_trigger_unknown (classification : string) :
  gemini_recognised classification = false ->
  GeminiTriggerApp.trigger_actuator sin classification
  = ([Console (GeminiTriggerApp.msg_action classification);
      Console (GeminiTriggerApp.msg_ignored classification)], Ok tt).
Proof.
  unfold gemini_recognised, GeminiTriggerApp.trigger_actuator.
  intros H. apply orb_false_elim in H as [H Hm].
  apply orb_false_elim in H as [Hw Hd].
  rewrite Hw, Hd, Hm. reflexivity.
Qed.

(** Every routing call returns normally. *)
Lemma classifier_trigger_ok (waste_type : string) :
  outcome (ClassifierApp.trigger_actuator sin waste_type) = Ok tt.
Proof.
  unfold ClassifierApp.trigger_actuator.
  destruct (String.eqb (lower waste_type) "wet");
    [|destruct (String.eqb (lower waste_type) "dry");
      [|destruct (String.eqb (lower waste_type) "mixed")]];
    unfold ClassifierApp.run_deposit_sequence; run_program; reflexivity.
Qed.

Lemma gemini_trigger_ok (classification : string) :
  outcome (GeminiTriggerApp.trigger_actuator sin classification) = Ok tt.
Proof.
  unfold GeminiTriggerApp.trigger_actuator.
  destruct (String.eqb classification "wet");
    [|destruct (String.eqb classification "dry");
      [|destruct (String.eqb classification "mixed")]];
    unfold GeminiTriggerApp.run_drop_tilt_cycle,
      GeminiTriggerApp.run_pan_tilt_sequence; run_program; reflexivity.
Qed.

(** The motion of every routing call of [classifier_app.py]. *)
Lemma classifier_trigger_motion (waste_type : string) :
  motion (events (ClassifierApp.trigger_actuator sin waste_type))
  = if String.eqb (lower waste_type) "wet"
    then program_trace sin (pan_tilt_drop ClassifierApp.WET_POS 0)
    else if String.eqb (lower waste_type) "dry"
    then program_trace sin (pan_tilt_drop ClassifierApp.DRY_POS 0)
    else if String.eqb (lower waste_type) "mixed"
    then program_trace sin (tilt_only_drop 0)
    else [Sleep lit_0_5].
Proof.
  unfold ClassifierApp.trigger_actuator.
  destruct (String.eqb (lower waste_type) "wet");
    [|destruct (String.eqb (lower waste_type) "dry");
      [|destruct (String.eqb (lower waste_type) "mixed")]];
    unfold ClassifierApp.run_deposit_sequence; run_program;
    motion_simpl; try program_shape; reflexivity.
Qed.

(** The motion of every routing call of [gemini_trigger_app.py]. *)
Lemma gemini_trigger_motion (classification : string) :
  motion (events (GeminiTriggerApp.trigger_actuator sin classification))
  = if String.eqb classification "wet"
    then program_trace sin (tilt_only_drop 0)
    else if String.eqb classification "dry"
    then program_trace sin (pan_tilt_drop GeminiTriggerApp.DRY_POS 180)
    else if String.eqb classification "mixed"
    then program_trace sin (pan_tilt_drop GeminiTriggerApp.MIXED_HAZ_POS 180)
    else [].
Proof.
  unfold GeminiTriggerApp.trigger_actuator.
  destruct (String.eqb classification "wet");
    [|destruct (String.eqb classification "dry");
      [|destruct (String.eqb classification "mixed")]];
    unfold GeminiTriggerApp.run_drop_tilt_cycle,
      GeminiTriggerApp.run_pan_tilt_sequence; run_program;
    motion_simpl; try program_shape; reflexivity.
Qed.

End Routing.

(** * Binary64 rounding

    What the claims about the sweep need of [SpecFloat]: a rounding is
    faithful (it stays between any two finite numbers that enclose the exact
    value), near (below 2 it errs by at most [2^-53]) and sends ties to even
    (a value within [2^-53] above 1 rounds to 1). *)

Lemma pow2_pos (k : Z) : 0 <= k -> 0 < 2 ^ k.
Proof. intros. apply Z.pow_pos_nonneg; lia. Qed.

Lemma pow2_succ (k : Z) : 0 <= k -> 2 ^ (k + 1) = 2 * 2 ^ k.
Proof. intros. rewrite Z.pow_add_r by lia. lia. Qed.

Lemma pow2_le (a b : Z) : 0 <= a <= b -> 2 ^ a <= 2 ^ b.
Proof. intros. apply Z.pow_le_mono_r; lia. Qed.

Lemma pow2_split (a b : Z) : 0 <= a <= b -> 2 ^ b = 2 ^ (b - a) * 2 ^ a.
Proof. intros. rewrite <- Z.pow_add_r by lia. f_equal; lia. Qed.

(** ** Digits *)

Lemma dig_bounds (p : positive) : 2 ^ (dig p - 1) <= Zpos p < 2 ^ dig p.
Proof.
  unfold dig. induction p as [p IH|p IH|]; cbn [digits2_pos].
  - rewrite Pos2Z.inj_succ. unfold Z.succ.
    replace (Zpos (digits2_pos p) + 1 - 1) with (Zpos (digits2_pos p) - 1 + 1) by lia.
    rewrite !pow2_succ by lia. lia.
  - rewrite Pos2Z.inj_succ. unfold Z.succ.
    replace (Zpos (digits2_pos p) + 1 - 1) with (Zpos (digits2_pos p) - 1 + 1) by lia.
    rewrite !pow2_succ by lia. lia.
  - cbn. lia.
Qed.

Lemma dig_pos (p : positive) : 0 < dig p.
Proof. unfold dig. lia. Qed.

(** The number of digits is determined by the binade. *)
Lemma dig_unique (p : positive) (d : Z) :
  2 ^ (d - 1) <= Zpos p < 2 ^ d -> dig p = d.
Proof.
  intros [Hlo Hhi]. pose proof (dig_bounds p) as [Hl Hh]. pose proof (dig_pos p).
  assert (0 < d).
  { destruct (Z.ltb_spec 0 d); [assumption|].
    assert (2 ^ d <= 1); [|lia].
    destruct (Z.eq_dec d 0) as [->|]; [cbn; lia|].
    rewrite Z.pow_neg_r by lia. lia. }
  destruct (Z.lt_trichotomy (dig p) d) as [Hlt|[Heq|Hgt]]; [|assumption|].
  - assert (2 ^ dig p <= 2 ^ (d - 1)) by (apply pow2_le; lia). lia.
  - assert (2 ^ d <= 2 ^ (dig p - 1)) by (apply pow2_le; lia). lia.
Qed.

Lemma dig_mul_pow2 (p : positive) (k : Z) :
  0 <= k -> forall q, Zpos q = Zpos p * 2 ^ k -> dig q = dig p + k.
Proof.
  intros Hk q Hq. apply dig_unique. rewrite Hq.
  pose proof (dig_bounds p) as [Hl Hh]. pose proof (dig_pos p).
  pose proof (pow2_pos k Hk).
  replace (dig p + k - 1) with ((dig p - 1) + k) by lia.
  rewrite !Z.pow_add_r by lia. nia.
Qed.

(** ** Shifting right with round and sticky bits *)

Lemma shr_1_spec (m : Z) (r s : bool) :
  0 <= m ->
  shr_1 {| shr_m := m; shr_r := r; shr_s := s |}
  = {| shr_m := m / 2; shr_r := Z.odd m; shr_s := r || s |}.
Proof.
  intros Hm. rewrite <- Z.div2_div.
  destruct m as [|[p|p|]|p]; try lia; reflexivity.
Qed.

Lemma iter_pos_nat {A} (f : A -> A) (p : positive) (x : A) :
  iter_pos f p x = Nat.iter (Pos.to_nat p) f x.
Proof.
  revert x. induction p as [p IH|p IH|]; intros x; cbn [iter_pos].
  - rewrite !IH, Pos2Nat.inj_xI.
    replace (S (2 * Pos.to_nat p)) with (Pos.to_nat p + Pos.to_nat p + 1)%nat by lia.
    rewrite !Nat.iter_add. reflexivity.
  - rewrite !IH, Pos2Nat.inj_xO.
    replace (2 * Pos.to_nat p)%nat with (Pos.to_nat p + Pos.to_nat p)%nat by lia.
    rewrite Nat.iter_add. reflexivity.
  - reflexivity.
Qed.

Lemma low_bits_split (m k : Z) :
  0 <= m -> 0 <= k ->
  m mod 2 ^ (k + 1) = m mod 2 ^ k + 2 ^ k * ((m / 2 ^ k) mod 2).
Proof.
  intros Hm Hk. rewrite pow2_succ by lia.
  rewrite (Z.mul_comm 2). apply Z.rem_mul_r; [|lia].
  pose proof (pow2_pos k Hk). lia.
Qed.

Lemma odd_mod2 (x : Z) : x mod 2 = if Z.odd x then 1 else 0.
Proof. rewrite Zmod_odd. reflexivity. Qed.

Lemma iter_shr_1 (n : nat) (m : Z) (r0 s0 : bool) :
  0 <= m ->
  Nat.iter (S n) shr_1 {| shr_m := m; shr_r := r0; shr_s := s0 |}
  = {| shr_m := m / 2 ^ (Z.of_nat n + 1);
       shr_r := Z.odd (m / 2 ^ Z.of_nat n);
       shr_s := negb (m mod 2 ^ Z.of_nat n =? 0) || (r0 || s0) |}.
Proof.
  intros Hm. induction n as [|n IH].
  - cbn [Nat.iter]. rewrite shr_1_spec by assumption.
    cbn [Z.of_nat]. rewrite Z.pow_0_r, Z.div_1_r, Z.mod_1_r. reflexivity.
  - rewrite Nat.iter_succ, IH.
    assert (Hn : 0 <= Z.of_nat n) by lia.
    pose proof (pow2_pos _ Hn) as Hp.
    assert (Hp1 : 0 < 2 ^ (Z.of_nat n + 1)) by (apply pow2_pos; lia).
    rewrite shr_1_spec by (apply Z.div_pos; lia).
    rewrite Nat2Z.inj_succ. unfold Z.succ.
    f_equal.
    + rewrite Z.div_div by lia. rewrite (pow2_succ (Z.of_nat n + 1)) by lia.
      f_equal; lia.
    + rewrite orb_assoc. f_equal.
      rewrite low_bits_split by lia. rewrite odd_mod2.
      pose proof (Z.mod_pos_bound m (2 ^ Z.of_nat n) Hp).
      destruct (Z.odd (m / 2 ^ Z.of_nat n)).
      * cbn [orb]. symmetry. apply negb_true_iff, Z.eqb_neq. lia.
      * cbn [orb]. rewrite Z.mul_0_r, Z.add_0_r. reflexivity.
Qed.

Lemma fexp_eq (e : Z) : fexp prec emax e = Z.max (e - 53) (-1074).
Proof. reflexivity. Qed.

Lemma shr_nonpos (mrs : shr_record) (e n : Z) : n <= 0 -> shr mrs e n = (mrs, e).
Proof. destruct n; [reflexivity | lia | reflexivity]. Qed.

Lemma shr_round (m e k : Z) :
  0 <= m -> 0 <= k ->
  exists mrs,
    shr (shr_record_of_loc m loc_Exact) e k = (mrs, e + k)
    /\ shr_m mrs = m / 2 ^ k
    /\ round_ok m k (round_nearest_even (shr_m mrs) (loc_of_shr_record mrs)).
Proof.
  intros Hm Hk. destruct k as [|p|p]; [| |lia].
  - exists (shr_record_of_loc m loc_Exact). cbn [shr shr_record_of_loc].
    rewrite Z.add_0_r, Z.pow_0_r, Z.div_1_r.
    split; [reflexivity|]. split; [reflexivity|].
    left. cbn [shr_m loc_of_shr_record round_nearest_even].
    rewrite Z.pow_0_r, Z.div_1_r, Z.mod_1_r. lia.
  - cbn [shr shr_record_of_loc]. rewrite iter_pos_nat.
    destruct (Pos.to_nat p) as [|n] eqn:En; [lia|].
    assert (Hp : Zpos p = Z.of_nat n + 1) by lia.
    rewrite iter_shr_1 by assumption. cbn [orb]. rewrite orb_false_r, Hp.
    eexists. split; [reflexivity|]. cbn [shr_m]. split; [reflexivity|].
    assert (Hn : 0 <= Z.of_nat n) by lia.
    pose proof (pow2_pos _ Hn) as Hpow.
    pose proof (low_bits_split m (Z.of_nat n) Hm Hn) as Hsplit.
    rewrite odd_mod2 in Hsplit.
    pose proof (Z.mod_pos_bound m (2 ^ Z.of_nat n) Hpow) as Hlow.
    pose proof (pow2_succ (Z.of_nat n) Hn) as Hsucc.
    unfold round_ok. rewrite Hsplit, Hsucc.
    destruct (Z.odd (m / 2 ^ Z.of_nat n));
      destruct (Z.eqb_spec (m mod 2 ^ Z.of_nat n) 0) as [Hz|Hnz];
      cbn [negb loc_of_shr_record round_nearest_even].
    + (* round bit set, nothing below: a tie *)
      rewrite <- Z.negb_odd.
      destruct (Z.odd (m / (2 * 2 ^ Z.of_nat n))) eqn:Eo; cbn [negb].
      * right. split; [reflexivity|]. split; [lia|]. reflexivity.
      * left. split; [reflexivity|]. lia.
    + right. split; [reflexivity|]. split; [lia|]. lia.
    + left. split; [reflexivity|]. lia.
    + left. split; [reflexivity|]. lia.
Qed.

Lemma loc_of_shr_record_of_loc (m : Z) (l : location) :
  loc_of_shr_record (shr_record_of_loc m l) = l.
Proof. destruct l as [|[]]; reflexivity. Qed.

(** Whatever the location, the rounded mantissa is the truncated one or the
    next, and the next only if something was cut off. *)
Lemma shr_round_faithful (m e k : Z) (l : location) :
  0 <= m -> 0 <= k ->
  exists mrs,
    shr (shr_record_of_loc m l) e k = (mrs, e + k)
    /\ let m2 := round_nearest_even (shr_m mrs) (loc_of_shr_record mrs) in
       m2 = m / 2 ^ k
       \/ (m2 = m / 2 ^ k + 1 /\ (l <> loc_Exact \/ m mod 2 ^ k <> 0)).
Proof.
  intros Hm Hk. destruct k as [|p|p]; [| |lia].
  - exists (shr_record_of_loc m l). cbn [shr].
    rewrite Z.add_0_r, Z.pow_0_r, Z.div_1_r. split; [reflexivity|].
    rewrite loc_of_shr_record_of_loc.
    destruct l as [|[]]; cbn [shr_record_of_loc shr_m round_nearest_even].
    + now left.
    + destruct (Z.even m); [now left|right; split; [reflexivity|left; discriminate]].
    + now left.
    + right. split; [reflexivity|left; discriminate].
  - cbn [shr]. rewrite iter_pos_nat.
    destruct (Pos.to_nat p) as [|n] eqn:En; [lia|].
    assert (Hp : Zpos p = Z.of_nat n + 1) by lia.
    assert (Hrec : shr_record_of_loc m l
                   = {| shr_m := m; shr_r := shr_r (shr_record_of_loc m l);
                        shr_s := shr_s (shr_record_of_loc m l) |})
      by (destruct l as [|[]]; reflexivity).
    rewrite Hrec, iter_shr_1 by assumption. rewrite Hp.
    eexists. split; [reflexivity|]. cbn [shr_m].
    assert (Hn : 0 <= Z.of_nat n) by lia.
    pose proof (pow2_pos _ Hn) as Hpow.
    pose proof (low_bits_split m (Z.of_nat n) Hm Hn) as Hsplit.
    rewrite odd_mod2 in Hsplit.
    pose proof (Z.mod_pos_bound m (2 ^ Z.of_nat n) Hpow) as Hlow.
    destruct (Z.odd (m / 2 ^ Z.of_nat n)) eqn:Eo.
    + assert (Hne : m mod 2 ^ (Z.of_nat n + 1) <> 0) by lia.
      destruct (negb (m mod 2 ^ Z.of_nat n =? 0) || _);
        cbn [loc_of_shr_record round_nearest_even].
      * right. split; [reflexivity|right; exact Hne].
      * destruct (Z.even (m / 2 ^ (Z.of_nat n + 1))); [now left|].
        right. split; [reflexivity|right; exact Hne].
    + destruct (negb (m mod 2 ^ Z.of_nat n =? 0) || _);
        cbn [loc_of_shr_record round_nearest_even]; now left.
Qed.

(** ** One rounding *)

(** The truncated mantissa has at most 53 digits, and exactly 53 above the
    smallest exponent. *)
Lemma truncated_mantissa_range (p : positive) (e : Z) :
  let E := fexp prec emax (dig p + e) in
  e <= E ->
  0 <= Zpos p / 2 ^ (E - e) < 2 ^ 53
  /\ (2 ^ 52 <= Zpos p / 2 ^ (E - e) \/ E = -1074).
Proof.
  intros E HE. subst E. rewrite fexp_eq in *.
  remember (Z.max (dig p + e - 53) (-1074) - e) as k eqn:Ek.
  assert (Hk : 0 <= k) by lia.
  assert (Hdk : dig p <= 53 + k) by lia.
  assert (Hnorm : dig p + e - 53 < -1074 \/ k = dig p - 53) by lia.
  pose proof (dig_bounds p) as [Hlo Hhi]. pose proof (dig_pos p) as Hd.
  pose proof (pow2_pos k Hk) as Hpk.
  assert (H1 : 2 ^ dig p <= 2 ^ 53 * 2 ^ k).
  { rewrite <- Z.pow_add_r by lia. apply pow2_le. lia. }
  split.
  - split; [apply Z.div_pos; lia|].
    apply Z.div_lt_upper_bound; lia.
  - destruct Hnorm as [Hsub|Hk']; [right; lia|].
    left. apply Z.div_le_lower_bound; [lia|].
    replace (dig p - 1) with (52 + k) in Hlo by lia.
    rewrite Z.pow_add_r in Hlo by lia. lia.
Qed.

Lemma round_ok_range (m k m2 : Z) :
  0 <= m -> 0 <= k -> round_ok m k m2 ->
  m / 2 ^ k <= m2 <= m / 2 ^ k + 1.
Proof. intros _ _ [[-> _]|[-> _]]; lia. Qed.

(** The second half of [binary_round_aux]: renormalising the rounded
    mantissa and checking for overflow. *)
Lemma renormalise_pack (s : bool) (m2 E : Z) :
  0 <= m2 <= 2 ^ 53 -> -1074 <= E ->
  (let '(mrs'', e'') := shr_fexp prec emax m2 E loc_Exact in
   match shr_m mrs'' with
   | Z0 => S754_zero s
   | Zpos m => if e'' <=? emax - prec then S754_finite s m e'' else S754_infinity s
   | Zneg _ => S754_nan
   end) = pack s m2 E.
Proof.
  intros Hm2 HEmin. unfold shr_fexp, pack.
  destruct (Z.eqb_spec m2 0) as [H0|H0].
  - rewrite H0. cbn [Zdigits2 shr_record_of_loc].
    rewrite shr_nonpos by (rewrite fexp_eq; lia). reflexivity.
  - destruct (Z.eqb_spec m2 (2 ^ 53)) as [H53|H53].
    + rewrite H53. cbn [Zdigits2 digits2_pos Pos.succ Z.pow Z.pow_pos Pos.iter Z.mul Pos.mul].
      replace (fexp prec emax (Zpos 54 + E) - E) with 1
        by (rewrite fexp_eq; lia).
      cbn [shr shr_record_of_loc iter_pos shr_1 fst snd shr_m Z.add].
      change (emax - prec) with 971.
      reflexivity.
    + destruct m2 as [|q|q]; [lia| |lia].
      assert (Hq : Zpos q < 2 ^ 53) by lia.
      assert (Hdq : dig q <= 53).
      { pose proof (dig_bounds q) as [Hl _]. pose proof (dig_pos q).
        destruct (Z.leb_spec (dig q) 53); [assumption|].
        assert (2 ^ 53 <= 2 ^ (dig q - 1)) by (apply pow2_le; lia). lia. }
      cbn [Zdigits2]. fold (dig q).
      rewrite shr_nonpos by (rewrite fexp_eq; lia).
      cbn [shr_record_of_loc shr_m fst snd Z.to_pos].
      change (emax - prec) with 971.
      reflexivity.
Qed.

Lemma binary_round_aux_spec (s : bool) (p : positive) (e : Z) :
  let E := fexp prec emax (dig p + e) in
  e <= E ->
  exists m2,
    round_ok (Zpos p) (E - e) m2
    /\ binary_round_aux prec emax s (Zpos p) e loc_Exact = pack s m2 E.
Proof.
  intros E HE.
  assert (HEmin : -1074 <= E) by (subst E; rewrite fexp_eq; lia).
  assert (Hk : 0 <= E - e) by lia.
  destruct (truncated_mantissa_range p e HE) as [[Hm1lo Hm1hi] Hnorm].
  fold E in Hm1lo, Hm1hi, Hnorm.
  destruct (shr_round (Zpos p) e (E - e) (Pos2Z.is_nonneg p) Hk)
    as (mrs & Hshr & Hmrs & Hok).
  pose proof (round_ok_range _ _ _ (Pos2Z.is_nonneg p) Hk Hok) as Hm2.
  remember (round_nearest_even (shr_m mrs) (loc_of_shr_record mrs)) as m2 eqn:Em2.
  exists m2. split; [exact Hok|].
  unfold binary_round_aux, shr_fexp at 1. cbn [Zdigits2]. fold (dig p). fold E.
  rewrite Hshr. replace (e + (E - e)) with E by lia. rewrite <- Em2.
  apply renormalise_pack; lia.
Qed.

Lemma binary_round_aux_faithful (s : bool) (p : positive) (e : Z) (l : location) :
  let E := fexp prec emax (dig p + e) in
  e <= E ->
  exists m2,
    (m2 = Zpos p / 2 ^ (E - e)
     \/ (m2 = Zpos p / 2 ^ (E - e) + 1
         /\ (l <> loc_Exact \/ Zpos p mod 2 ^ (E - e) <> 0)))
    /\ binary_round_aux prec emax s (Zpos p) e l = pack s m2 E.
Proof.
  intros E HE.
  assert (HEmin : -1074 <= E) by (subst E; rewrite fexp_eq; lia).
  assert (Hk : 0 <= E - e) by lia.
  destruct (truncated_mantissa_range p e HE) as [[Hm1lo Hm1hi] Hnorm].
  fold E in Hm1lo, Hm1hi, Hnorm.
  destruct (shr_round_faithful (Zpos p) e (E - e) l (Pos2Z.is_nonneg p) Hk)
    as (mrs & Hshr & Hok).
  cbv zeta in Hok.
  remember (round_nearest_even (shr_m mrs) (loc_of_shr_record mrs)) as m2 eqn:Em2.
  exists m2. split; [exact Hok|].
  unfold binary_round_aux, shr_fexp at 1. cbn [Zdigits2]. fold (dig p). fold E.
  rewrite Hshr. replace (e + (E - e)) with E by lia. rewrite <- Em2.
  apply renormalise_pack; [|exact HEmin].
  destruct Hok as [->|[-> _]]; lia.
Qed.

(** ** Scaled values and canonical numbers *)

Lemma bval_pos (m e : Z) : 0 < m -> - value_scale <= e -> 0 < bval m e.
Proof.
  intros Hm He. unfold bval. apply Z.mul_pos_pos; [assumption|].
  apply pow2_pos. lia.
Qed.

Lemma bval_le (m m' e : Z) : - value_scale <= e -> (bval m e <= bval m' e <-> m <= m').
Proof.
  intros He. unfold bval.
  assert (0 < 2 ^ (e + value_scale)) by (apply pow2_pos; lia).
  split; intros; nia.
Qed.

Lemma bval_lt (m m' e : Z) : - value_scale <= e -> (bval m e < bval m' e <-> m < m').
Proof.
  intros He. unfold bval.
  assert (0 < 2 ^ (e + value_scale)) by (apply pow2_pos; lia).
  split; intros; nia.
Qed.

(** Moving the exponent down multiplies the mantissa. *)
Lemma bval_shift (m e e' : Z) :
  - value_scale <= e' <= e -> bval m e = bval (m * 2 ^ (e - e')) e'.
Proof.
  intros H. unfold bval.
  rewrite (pow2_split (e' + value_scale) (e + value_scale)) by lia.
  replace (e + value_scale - (e' + value_scale)) with (e - e') by lia.
  ring.
Qed.

Lemma bounded_repr (p : positive) (e : Z) :
  bounded prec emax p e = true <-> repr (Zpos p) e.
Proof.
  unfold bounded, canonical_mantissa, repr, canon. fold (dig p).
  rewrite andb_true_iff, Z.eqb_eq, Z.leb_le, fexp_eq.
  change (emax - prec) with 971.
  pose proof (dig_bounds p) as [Hlo Hhi]. pose proof (dig_pos p) as Hd.
  split.
  - intros [Hc He].
    assert (Hd53 : dig p <= 53) by lia.
    assert (Hn : dig p = 53 \/ e = -1074) by lia.
    assert (He0 : -1074 <= e) by lia.
    clear Hc. repeat split; try lia.
    + assert (2 ^ dig p <= 2 ^ 53) by (apply pow2_le; lia). lia.
    + destruct Hn as [Hn|Hn]; [left|right; exact Hn].
      rewrite Hn in Hlo. exact Hlo.
  - intros [[[Hp0 Hp53] [He Hn]] He'].
    assert (Hd53 : dig p <= 53).
    { destruct (Z.leb_spec (dig p) 53); [assumption|].
      assert (2 ^ 53 <= 2 ^ (dig p - 1)) by (apply pow2_le; lia). lia. }
    split; [|assumption].
    destruct Hn as [Hn|Hn]; [|lia].
    assert (53 <= dig p); [|lia].
    destruct (Z.leb_spec 53 (dig p)); [assumption|].
    assert (2 ^ dig p <= 2 ^ 52) by (apply pow2_le; lia). lia.
Qed.

(** Canonical numbers are ordered as their exponents are. *)
Lemma canon_le_exp (m1 e1 m2 e2 : Z) :
  canon m1 e1 -> canon m2 e2 -> bval m1 e1 <= bval m2 e2 -> e1 <= e2.
Proof.
  intros [[H1 H1'] [He1 Hn1]] [[H2 H2'] [He2 Hn2]] Hle.
  destruct (Z.leb_spec e1 e2) as [|Hgt]; [assumption|exfalso].
  destruct Hn1 as [Hn1|Hn1]; [|lia].
  rewrite (bval_shift m1 e1 e2) in Hle by (unfold value_scale; lia).
  apply bval_le in Hle; [|unfold value_scale; lia].
  assert (2 <= 2 ^ (e1 - e2)).
  { change 2 with (2 ^ 1) at 1. apply pow2_le. lia. }
  nia.
Qed.

Lemma repr_unique (m e m' e' : Z) :
  repr m e -> repr m' e' -> bval m e = bval m' e' -> m = m' /\ e = e'.
Proof.
  intros [Hc He] [Hc' He'] Hv.
  assert (e = e').
  { pose proof (canon_le_exp _ _ _ _ Hc Hc'). pose proof (canon_le_exp _ _ _ _ Hc' Hc).
    lia. }
  subst e'. split; [|reflexivity].
  destruct Hc as [_ [Hemin _]].
  assert (m <= m') by (apply (bval_le m m' e); [unfold value_scale|]; lia).
  assert (m' <= m) by (apply (bval_le m' m e); [unfold value_scale|]; lia).
  lia.
Qed.

(** Every [int] between 1 and [2^53] is a binary64 number. *)
Lemma int_canonical (n : Z) :
  1 <= n <= 2 ^ 53 ->
  exists m e, repr m e /\ bval m e = n * 2 ^ value_scale
              /\ 2 ^ 52 <= m /\ -52 <= e <= 1.
Proof.
  intros Hn. destruct (Z.eq_dec n (2 ^ 53)) as [->|Hne].
  - exists (2 ^ 52), 1. split; [unfold repr, canon; lia|].
    split; [|lia]. unfold bval.
    rewrite (Z.pow_add_r 2 1 value_scale) by (unfold value_scale; lia). lia.
  - destruct n as [|p|p]; try lia.
    pose proof (dig_bounds p) as [Hlo Hhi]. pose proof (dig_pos p) as Hd.
    assert (Hd53 : dig p <= 53).
    { destruct (Z.leb_spec (dig p) 53); [assumption|].
      assert (2 ^ 53 <= 2 ^ (dig p - 1)) by (apply pow2_le; lia). lia. }
    assert (Hs : 2 ^ 53 = 2 ^ (53 - dig p) * 2 ^ dig p) by (apply pow2_split; lia).
    assert (Hs' : 2 ^ 52 = 2 ^ (53 - dig p) * 2 ^ (dig p - 1)).
    { rewrite <- Z.pow_add_r by lia. f_equal; lia. }
    assert (Hk : 0 < 2 ^ (53 - dig p)) by (apply pow2_pos; lia).
    exists (Zpos p * 2 ^ (53 - dig p)), (dig p - 53).
    assert (Hm : 2 ^ 52 <= Zpos p * 2 ^ (53 - dig p) < 2 ^ 53).
    { rewrite Hs, Hs'. remember (2 ^ (53 - dig p)) as K.
      remember (2 ^ dig p) as U. remember (2 ^ (dig p - 1)) as L. nia. }
    split; [unfold repr, canon; lia|].
    split; [|lia].
    unfold bval. rewrite <- Z.mul_assoc. f_equal.
    rewrite <- Z.pow_add_r by (unfold value_scale; lia). f_equal; lia.
Qed.

(** No finite number lies strictly between two neighbours of the grid cut
    by the rounding. *)
Lemma no_repr_between (m1 E mh eh : Z) :
  0 <= m1 -> -1074 <= E -> (2 ^ 52 <= m1 \/ E = -1074) ->
  canon mh eh ->
  ~ (bval m1 E < bval mh eh < bval (m1 + 1) E).
Proof.
  intros Hm1 HE Hn [[Hh0 Hh53] [Heh Hnh]] [Hlo Hhi].
  destruct (Z.leb_spec E eh) as [Hle|Hgt].
  - rewrite (bval_shift mh eh E) in Hlo, Hhi by (unfold value_scale; lia).
    apply bval_lt in Hlo, Hhi; try (unfold value_scale; lia).
  - destruct Hn as [Hn|Hn]; [|lia].
    rewrite (bval_shift m1 E eh) in Hlo by (unfold value_scale; lia).
    apply bval_lt in Hlo; [|unfold value_scale; lia].
    assert (2 <= 2 ^ (E - eh)).
    { change 2 with (2 ^ 1) at 1. apply pow2_le. lia. }
    nia.
Qed.

(** The value cut by a shift. *)
Lemma bval_div_mod (m e k : Z) :
  0 <= k -> - value_scale <= e ->
  bval m e = bval (m / 2 ^ k) (e + k) + (m mod 2 ^ k) * 2 ^ (e + value_scale).
Proof.
  intros Hk He. unfold bval.
  replace (e + k + value_scale) with (k + (e + value_scale)) by lia.
  rewrite (Z.pow_add_r 2 k (e + value_scale)) by lia.
  pose proof (pow2_pos k Hk).
  rewrite (Z.div_mod m (2 ^ k)) at 1 by lia. ring.
Qed.

Lemma bval_one_split (e k : Z) :
  0 <= k -> - value_scale <= e ->
  bval 1 (e + k) = 2 ^ k * 2 ^ (e + value_scale).
Proof.
  intros Hk He. unfold bval.
  replace (e + k + value_scale) with (k + (e + value_scale)) by lia.
  rewrite (Z.pow_add_r 2 k (e + value_scale)) by lia. ring.
Qed.

Lemma bval_succ (m e : Z) : bval (m + 1) e = bval m e + bval 1 e.
Proof. unfold bval. ring. Qed.

(** What [pack] yields on a rounded mantissa in canonical position that does
    not overflow. *)
Lemma pack_spec (s : bool) (m2 E : Z) :
  0 <= m2 <= 2 ^ 53 -> -1074 <= E ->
  (m2 = 0 \/ 2 ^ 52 <= m2 \/ E = -1074) ->
  (exists mh eh, repr mh eh /\ bval m2 E <= bval mh eh) ->
  fin (pack s m2 E) = true
  /\ has_sign s (pack s m2 E)
  /\ fmag (pack s m2 E) = bval m2 E.
Proof.
  intros Hm2 HE Hn (mh & eh & [Hch Heh] & Hle). unfold pack.
  destruct (Z.eqb_spec m2 0) as [H0|H0].
  - subst m2. split; [reflexivity|]. split; reflexivity.
  - destruct (Z.eqb_spec m2 (2 ^ 53)) as [H53|H53].
    + assert (Hc : canon (2 ^ 52) (E + 1)) by (unfold canon; lia).
      assert (Hv : bval (2 ^ 52) (E + 1) = bval m2 E).
      { rewrite (bval_shift (2 ^ 52) (E + 1) E) by (unfold value_scale; lia).
        replace (E + 1 - E) with 1 by lia. now rewrite H53. }
      assert (HE1 : E + 1 <= 971).
      { pose proof (canon_le_exp _ _ _ _ Hc Hch). lia. }
      destruct (Z.leb_spec (E + 1) 971); [|lia].
      cbn [fin has_sign fmag]. split; [|split; [reflexivity|]].
      * apply bounded_repr. split; assumption.
      * exact Hv.
    + assert (Hc : canon m2 E) by (unfold canon; lia).
      assert (HE1 : E <= 971).
      { pose proof (canon_le_exp _ _ _ _ Hc Hch). lia. }
      destruct (Z.leb_spec E 971); [|lia].
      cbn [fin has_sign fmag].
      rewrite Z2Pos.id by lia.
      split; [|split; reflexivity].
      apply bounded_repr. rewrite Z2Pos.id by lia. split; assumption.
Qed.

(** ** Faithfulness, nearness and ties to even *)

(** The facts about one rounding that the bounds below rest on, with the
    powers of two abstracted away. *)
Lemma rounding_frame (s : bool) (p : positive) (e : Z) :
  let E := fexp prec emax (dig p + e) in
  e <= E -> - value_scale <= e ->
  exists m1 m2 R U,
    binary_round_aux prec emax s (Zpos p) e loc_Exact = pack s m2 E
    /\ -1074 <= E
    /\ 0 <= m1 < 2 ^ 53 /\ (2 ^ 52 <= m1 \/ E = -1074)
    /\ bval (Zpos p) e = bval m1 E + R
    /\ U = bval 1 E /\ 0 <= R < U
    /\ ((m2 = m1 /\ 2 * R <= U)
        \/ (m2 = m1 + 1 /\ U <= 2 * R /\ (2 * R = U -> Z.odd m1 = true))).
Proof.
  intros E HE He.
  assert (HEmin : -1074 <= E) by (subst E; rewrite fexp_eq; lia).
  assert (Hk : 0 <= E - e) by lia.
  destruct (binary_round_aux_spec s p e HE) as (m2 & Hok & Hr). fold E in Hok, Hr.
  destruct (truncated_mantissa_range p e HE) as [Hm1 Hn]. fold E in Hm1, Hn.
  pose proof (bval_div_mod (Zpos p) e (E - e) Hk He) as Hsplit.
  pose proof (bval_one_split e (E - e) Hk He) as Hone.
  replace (e + (E - e)) with E in Hsplit, Hone by lia.
  pose proof (pow2_pos (E - e) Hk) as Hpk.
  pose proof (Z.mod_pos_bound (Zpos p) (2 ^ (E - e)) Hpk) as Hrem.
  assert (Hs : 0 < 2 ^ (e + value_scale)) by (apply pow2_pos; lia).
  exists (Zpos p / 2 ^ (E - e)), m2,
         (Zpos p mod 2 ^ (E - e) * 2 ^ (e + value_scale)), (bval 1 E).
  split; [exact Hr|]. split; [exact HEmin|]. split; [exact Hm1|].
  split; [exact Hn|]. split; [exact Hsplit|]. split; [reflexivity|].
  rewrite Hone. split; [nia|].
  destruct Hok as [[-> Hle]|[-> [Hge Hodd]]]; [left|right].
  - split; [reflexivity|nia].
  - split; [reflexivity|]. split; [nia|].
    intros Heq. apply Hodd. nia.
Qed.

(** Faithfulness: the result of a rounding lies between any two finite
    numbers that enclose the exact value. *)
Lemma bra_bounds (s : bool) (p : positive) (e : Z) (lo mh eh : Z) :
  e <= fexp prec emax (dig p + e) -> - value_scale <= e ->
  (lo = 0 \/ exists ml el, canon ml el /\ lo = bval ml el) ->
  repr mh eh ->
  lo <= bval (Zpos p) e <= bval mh eh ->
  let r := binary_round_aux prec emax s (Zpos p) e loc_Exact in
  fin r = true /\ has_sign s r /\ lo <= fmag r <= bval mh eh.
Proof.
  intros HE He Hlo Hhi [Hl Hh].
  destruct (rounding_frame s p e HE He)
    as (m1 & m2 & R & U & Hr & HEmin & Hm1 & Hn & Hsplit & HU & HR & Hround).
  cbv zeta. rewrite Hr.
  remember (fexp prec emax (dig p + e)) as E eqn:EE.
  remember (bval (Zpos p) e) as X eqn:EX.
  pose proof (bval_succ m1 E) as Hsucc. rewrite <- HU in Hsucc.
  pose proof (no_repr_between m1 E mh eh (proj1 Hm1) HEmin Hn (proj1 Hhi)) as Hgap_hi.
  assert (Hm2hi : bval m2 E <= bval mh eh).
  { destruct Hround as [[-> _]|[-> [HUR _]]]; lia. }
  assert (Hm2lo : lo <= bval m2 E).
  { assert (HA : lo <= bval m1 E).
    { destruct Hlo as [->|(ml & el & Hcl & ->)].
      - unfold bval. apply Z.mul_nonneg_nonneg; [lia|].
        apply Z.pow_nonneg. lia.
      - pose proof (no_repr_between m1 E ml el (proj1 Hm1) HEmin Hn Hcl). lia. }
    destruct Hround as [[-> _]|[-> _]]; lia. }
  assert (Hm2 : 0 <= m2 <= 2 ^ 53) by (destruct Hround as [[-> _]|[-> _]]; lia).
  assert (Hn2 : m2 = 0 \/ 2 ^ 52 <= m2 \/ E = -1074)
    by (destruct Hround as [[-> _]|[-> _]]; lia).
  destruct (pack_spec s m2 E Hm2 HEmin Hn2) as (Hfin & Hsign & Hmag).
  { exists mh, eh. split; assumption. }
  rewrite Hmag. auto.
Qed.

Lemma bval_pow2 (a e : Z) :
  0 <= a -> - value_scale <= e -> bval (2 ^ a) e = 2 ^ (a + e + value_scale).
Proof.
  intros Ha He. unfold bval. rewrite <- Z.pow_add_r by lia. f_equal; lia.
Qed.

Lemma repr_two : repr (2 ^ 52) (-51).
Proof. unfold repr, canon. lia. Qed.

Lemma repr_one : repr (2 ^ 52) (-52).
Proof. unfold repr, canon. lia. Qed.

Lemma bval_two : bval (2 ^ 52) (-51) = 2 * 2 ^ value_scale.
Proof.
  rewrite bval_pow2 by (unfold value_scale; lia).
  replace (52 + -51 + value_scale) with (value_scale + 1) by lia.
  apply pow2_succ. unfold value_scale. lia.
Qed.

Lemma bval_one : bval (2 ^ 52) (-52) = 2 ^ value_scale.
Proof.
  rewrite bval_pow2 by (unfold value_scale; lia). f_equal.
Qed.

(** Nearness: below 2 in magnitude, a rounding errs by at most [2^-53]. *)
Lemma bra_error (s : bool) (p : positive) (e : Z) :
  e <= fexp prec emax (dig p + e) -> - value_scale <= e ->
  bval (Zpos p) e <= 2 * 2 ^ value_scale ->
  let r := binary_round_aux prec emax s (Zpos p) e loc_Exact in
  fin r = true /\ has_sign s r
  /\ Z.abs (fmag r - bval (Zpos p) e) <= 2 ^ (value_scale - 53).
Proof.
  intros HE He Hle.
  destruct (bra_bounds s p e 0 (2 ^ 52) (-51) HE He (or_introl eq_refl) repr_two)
    as (Hfin & Hsign & _).
  { rewrite bval_two. split; [|exact Hle].
    apply Z.lt_le_incl, bval_pos; lia. }
  split; [exact Hfin|]. split; [exact Hsign|].
  destruct (rounding_frame s p e HE He)
    as (m1 & m2 & R & U & Hr & HEmin & Hm1 & Hn & Hsplit & HU & HR & Hround).
  cbv zeta. rewrite Hr.
  remember (fexp prec emax (dig p + e)) as E eqn:EE.
  assert (Hm2 : 0 <= m2 <= 2 ^ 53) by (destruct Hround as [[-> _]|[-> _]]; lia).
  assert (Hn2 : m2 = 0 \/ 2 ^ 52 <= m2 \/ E = -1074)
    by (destruct Hround as [[-> _]|[-> _]]; lia).
  pose proof (bval_succ m1 E) as Hsucc. rewrite <- HU in Hsucc.
  assert (Hm2hi : bval m2 E <= bval (2 ^ 52) (-51)).
  { pose proof (no_repr_between m1 E _ _ (proj1 Hm1) HEmin Hn (proj1 repr_two)).
    rewrite bval_two in *.
    destruct Hround as [[-> _]|[-> [HUR _]]]; lia. }
  destruct (pack_spec s m2 E Hm2 HEmin Hn2) as (_ & _ & Hmag).
  { exists (2 ^ 52), (-51). split; [exact repr_two | exact Hm2hi]. }
  rewrite Hmag.
  assert (Herr : 2 * Z.abs (bval m2 E - bval (Zpos p) e) <= U)
    by (destruct Hround as [[-> ?]|[-> [? _]]]; lia).
  (* the spacing of the grid *)
  destruct (Z.leb_spec E (-52)) as [HE52|HE52].
  - assert (HU52 : U <= 2 * 2 ^ (value_scale - 53)).
    { rewrite HU. unfold bval. rewrite Z.mul_1_l.
      rewrite <- pow2_succ by (unfold value_scale; lia).
      apply pow2_le. unfold value_scale. lia. }
    lia.
  - (* the value is 2 and the rounding is exact *)
    assert (Hm1' : 2 ^ 52 <= m1) by lia.
    assert (HA : 2 * 2 ^ value_scale <= bval m1 E).
    { rewrite <- bval_two.
      rewrite (bval_shift m1 E (-51)) by (unfold value_scale; lia).
      apply bval_le; [unfold value_scale; lia|].
      assert (1 <= 2 ^ (E - -51)) by (apply (pow2_le 0); lia).
      nia. }
    assert (HUpos : 0 < U) by (rewrite HU; apply bval_pos; unfold value_scale; lia).
    assert (0 <= 2 ^ (value_scale - 53)) by (apply Z.pow_nonneg; lia).
    destruct Hround as [[-> ?]|[-> [? _]]]; lia.
Qed.

(** Ties go to even: a value that exceeds 1 by at most [2^-53] in magnitude
    rounds to at most 1. *)
Lemma bra_le_one (s : bool) (p : positive) (e : Z) :
  e <= fexp prec emax (dig p + e) -> - value_scale <= e ->
  bval (Zpos p) e <= 2 ^ value_scale + 2 ^ (value_scale - 53) ->
  let r := binary_round_aux prec emax s (Zpos p) e loc_Exact in
  fin r = true /\ has_sign s r /\ fmag r <= 2 ^ value_scale.
Proof.
  intros HE He Hle.
  assert (Hhalf : 2 * 2 ^ (value_scale - 53) = bval 1 (-52)).
  { unfold bval. rewrite Z.mul_1_l, <- pow2_succ by (unfold value_scale; lia).
    f_equal; lia. }
  assert (H52 : 2 ^ 52 * bval 1 (-52) = 2 ^ value_scale).
  { rewrite <- bval_one. unfold bval. ring. }
  assert (Hhpos : 0 < 2 ^ (value_scale - 53)) by (apply pow2_pos; unfold value_scale; lia).
  destruct (rounding_frame s p e HE He)
    as (m1 & m2 & R & U & Hr & HEmin & Hm1 & Hn & Hsplit & HU & HR & Hround).
  assert (Hhi2 : bval (Zpos p) e <= bval (2 ^ 52) (-51))
    by (rewrite bval_two; lia).
  destruct (bra_bounds s p e 0 (2 ^ 52) (-51) HE He (or_introl eq_refl) repr_two)
    as (Hfin & Hsign & _).
  { split; [|exact Hhi2]. apply Z.lt_le_incl, bval_pos; lia. }
  split; [exact Hfin|]. split; [exact Hsign|].
  destruct (Z.leb_spec (bval (Zpos p) e) (2 ^ value_scale)) as [Hsmall|Hbig].
  - destruct (bra_bounds s p e 0 (2 ^ 52) (-52) HE He (or_introl eq_refl) repr_one)
      as (_ & _ & [_ Hb]).
    { rewrite bval_one. split; [|exact Hsmall]. apply Z.lt_le_incl, bval_pos; lia. }
    rewrite bval_one in Hb. exact Hb.
  - cbv zeta. rewrite Hr.
    remember (fexp prec emax (dig p + e)) as E eqn:EE.
    pose proof (bval_succ m1 E) as Hsucc. rewrite <- HU in Hsucc.
    assert (Hm2 : 0 <= m2 <= 2 ^ 53) by (destruct Hround as [[-> _]|[-> _]]; lia).
    assert (Hn2 : m2 = 0 \/ 2 ^ 52 <= m2 \/ E = -1074)
      by (destruct Hround as [[-> _]|[-> _]]; lia).
    assert (Hm2hi : bval m2 E <= bval (2 ^ 52) (-51)).
    { pose proof (no_repr_between m1 E _ _ (proj1 Hm1) HEmin Hn (proj1 repr_two)).
      destruct Hround as [[-> _]|[-> [HUR _]]]; lia. }
    destruct (pack_spec s m2 E Hm2 HEmin Hn2) as (_ & _ & Hmag).
    { exists (2 ^ 52), (-51). split; [exact repr_two | exact Hm2hi]. }
    rewrite Hmag.
    (* the exact value lies in the binade of 1 *)
    assert (HE52 : E = -52).
    { subst E. rewrite fexp_eq.
      assert (Hd : dig p = 1 - e); [|lia].
      apply dig_unique.
      assert (He0 : e <= 0).
      { destruct (Z.leb_spec e 0); [assumption|exfalso].
        assert (2 * 2 ^ value_scale <= bval (Zpos p) e); [|lia].
        unfold bval. rewrite <- pow2_succ by (unfold value_scale; lia).
        assert (2 ^ (value_scale + 1) <= 2 ^ (e + value_scale))
          by (apply pow2_le; unfold value_scale; lia).
        nia. }
      assert (Hs : 0 < 2 ^ (e + value_scale)) by (apply pow2_pos; lia).
      assert (H1 : 2 ^ value_scale = 2 ^ (- e) * 2 ^ (e + value_scale)).
      { rewrite <- Z.pow_add_r by lia. f_equal; lia. }
      replace (1 - e - 1) with (- e) by lia.
      replace (1 - e) with (- e + 1) by lia.
      rewrite pow2_succ by lia.
      unfold bval in Hbig, Hle.
      split; nia. }
    rewrite HE52 in *.
    assert (Hm1eq : m1 = 2 ^ 52).
    { assert (HUpos : 0 < U)
        by (rewrite HU; apply bval_pos; unfold value_scale; lia).
      assert (Hm1U : bval m1 (-52) = m1 * U) by (rewrite HU; unfold bval; ring).
      rewrite <- HU in H52, Hhalf. nia. }
    subst m1.
    rewrite bval_one in Hsplit.
    destruct Hround as [[-> _]|[-> [HUR Hodd]]].
    + rewrite bval_one. lia.
    + exfalso.
      assert (H2R : 2 * R = U) by lia.
      specialize (Hodd H2R). discriminate.
Qed.

(** ** Alignment and normalisation *)

Lemma iter_xO_pow2 (p d : positive) :
  Zpos (Pos.iter xO p d) = Zpos p * 2 ^ Zpos d.
Proof.
  induction d as [|d IH] using Pos.peano_ind.
  - cbn [Pos.iter]. rewrite Pos2Z.inj_xO. change (2 ^ 1) with 2. ring.
  - rewrite Pos.iter_succ, Pos2Z.inj_xO, IH, Pos2Z.inj_succ.
    unfold Z.succ. rewrite pow2_succ by lia. ring.
Qed.

Lemma shl_align_spec (p : positive) (e e' : Z) :
  exists q,
    shl_align p e e' = (q, Z.min e e')
    /\ Zpos q = Zpos p * 2 ^ (e - Z.min e e').
Proof.
  unfold shl_align. destruct (e' - e) as [|d|d] eqn:Ed.
  - exists p. replace (Z.min e e') with e by lia.
    rewrite Z.sub_diag, Z.pow_0_r. split; [reflexivity|lia].
  - exists p. replace (Z.min e e') with e by lia.
    rewrite Z.sub_diag, Z.pow_0_r. split; [reflexivity|lia].
  - exists (Pos.iter xO p d). replace (Z.min e e') with e' by lia.
    split; [reflexivity|].
    replace (e - e') with (Zpos d) by lia.
    apply iter_xO_pow2.
Qed.

(** [binary_round] is one rounding of the same value, brought to an exponent
    the rounding can start from. *)
Lemma binary_round_frame (s : bool) (p : positive) (e : Z) :
  - value_scale <= e ->
  exists q e',
    binary_round prec emax s p e = binary_round_aux prec emax s (Zpos q) e' loc_Exact
    /\ bval (Zpos q) e' = bval (Zpos p) e
    /\ e' <= fexp prec emax (dig q + e')
    /\ - value_scale <= e'.
Proof.
  intros He. unfold binary_round. fold (dig p).
  destruct (shl_align_spec p e (fexp prec emax (dig p + e))) as (q & Hq & Hv).
  rewrite Hq.
  remember (Z.min e (fexp prec emax (dig p + e))) as e' eqn:Ee'.
  assert (He' : e' <= e) by lia.
  assert (Hmin : - value_scale <= e').
  { rewrite fexp_eq in Ee'. unfold value_scale in *. lia. }
  assert (Hdig : dig q = dig p + (e - e')) by (apply dig_mul_pow2; [lia|exact Hv]).
  exists q, e'. split; [reflexivity|]. split; [|split; [|exact Hmin]].
  - rewrite Hv. symmetry. apply bval_shift. lia.
  - rewrite Hdig. replace (dig p + (e - e') + e') with (dig p + e) by lia. lia.
Qed.

Lemma binary_round_bounds (s : bool) (p : positive) (e : Z) (lo mh eh : Z) :
  - value_scale <= e ->
  (lo = 0 \/ exists ml el, canon ml el /\ lo = bval ml el) ->
  repr mh eh ->
  lo <= bval (Zpos p) e <= bval mh eh ->
  let r := binary_round prec emax s p e in
  fin r = true /\ has_sign s r /\ lo <= fmag r <= bval mh eh.
Proof.
  intros He Hlo Hhi Hb.
  destruct (binary_round_frame s p e He) as (q & e' & -> & Hv & HE & He').
  rewrite <- Hv in Hb. now apply bra_bounds.
Qed.

Lemma binary_round_error (s : bool) (p : positive) (e : Z) :
  - value_scale <= e ->
  bval (Zpos p) e <= 2 * 2 ^ value_scale ->
  let r := binary_round prec emax s p e in
  fin r = true /\ has_sign s r
  /\ Z.abs (fmag r - bval (Zpos p) e) <= 2 ^ (value_scale - 53).
Proof.
  intros He Hb.
  destruct (binary_round_frame s p e He) as (q & e' & -> & Hv & HE & He').
  rewrite <- Hv in *. now apply bra_error.
Qed.

Lemma binary_round_le_one (s : bool) (p : positive) (e : Z) :
  - value_scale <= e ->
  bval (Zpos p) e <= 2 ^ value_scale + 2 ^ (value_scale - 53) ->
  let r := binary_round prec emax s p e in
  fin r = true /\ has_sign s r /\ fmag r <= 2 ^ value_scale.
Proof.
  intros He Hb.
  destruct (binary_round_frame s p e He) as (q & e' & -> & Hv & HE & He').
  rewrite <- Hv in *. now apply bra_le_one.
Qed.

(** The value of a signed float. *)
Lemma fval_signed (s : bool) (x : spec_float) :
  has_sign s x -> fval x = if s then - fmag x else fmag x.
Proof.
  destruct x as [s'|s'| |s' m e]; cbn [has_sign fval fmag];
    try contradiction; intros ->; destruct s; reflexivity.
Qed.

Lemma fmag_nonneg (x : spec_float) : 0 <= fmag x.
Proof.
  destruct x as [| | |s m e]; cbn [fmag]; try lia.
  unfold bval. apply Z.mul_nonneg_nonneg; [lia|]. apply Z.pow_nonneg. lia.
Qed.

Lemma fmag_abs (x : spec_float) : fmag x = Z.abs (fval x).
Proof.
  pose proof (fmag_nonneg x).
  destruct x as [| | |[] m e]; cbn [fmag fval] in *; lia.
Qed.

Lemma bval_opp (p : positive) (e : Z) : bval (Zneg p) e = - bval (Zpos p) e.
Proof. unfold bval. rewrite <- Pos2Z.opp_pos. ring. Qed.

(** [binary_normalize]: nearness. *)
Lemma binary_normalize_error (M e : Z) :
  - value_scale <= e ->
  Z.abs (bval M e) <= 2 * 2 ^ value_scale ->
  let r := binary_normalize prec emax M e false in
  fin r = true /\ Z.abs (fval r - bval M e) <= 2 ^ (value_scale - 53).
Proof.
  intros He Hb.
  assert (0 <= 2 ^ (value_scale - 53)) by (apply Z.pow_nonneg; lia).
  destruct M as [|p|p]; cbn [binary_normalize] in *.
  - split; [reflexivity|]. cbn [fval]. unfold bval. rewrite Z.mul_0_l. cbn. lia.
  - destruct (binary_round_error false p e He) as (Hf & Hs & Herr); [lia|].
    split; [exact Hf|]. rewrite (fval_signed false _ Hs). exact Herr.
  - rewrite bval_opp in *.
    destruct (binary_round_error true p e He) as (Hf & Hs & Herr); [lia|].
    split; [exact Hf|]. rewrite (fval_signed true _ Hs). lia.
Qed.

(** [binary_normalize]: ties to even at 1. *)
Lemma binary_normalize_le_one (M e : Z) :
  - value_scale <= e ->
  Z.abs (bval M e) <= 2 ^ value_scale + 2 ^ (value_scale - 53) ->
  let r := binary_normalize prec emax M e false in
  fin r = true /\ fmag r <= 2 ^ value_scale.
Proof.
  intros He Hb.
  destruct M as [|p|p]; cbn [binary_normalize] in *.
  - split; [reflexivity|]. cbn [fmag]. apply Z.pow_nonneg. lia.
  - destruct (binary_round_le_one false p e He) as (Hf & Hs & Hle); [lia|].
    split; assumption.
  - rewrite bval_opp in *.
    destruct (binary_round_le_one true p e He) as (Hf & Hs & Hle); [lia|].
    split; assumption.
Qed.

(** [binary_normalize]: faithfulness between two bounds of the same sign or
    zero. *)
Lemma binary_normalize_bounds_nonneg (M e : Z) (lo mh eh : Z) :
  - value_scale <= e ->
  (lo = 0 \/ exists ml el, canon ml el /\ lo = bval ml el) ->
  repr mh eh ->
  lo <= bval M e <= bval mh eh ->
  let r := binary_normalize prec emax M e false in
  fin r = true /\ has_sign false r /\ lo <= fmag r <= bval mh eh.
Proof.
  intros He Hlo Hhi [Hl Hh].
  assert (Hlo0 : 0 <= lo).
  { destruct Hlo as [->|(ml & el & [[? ?] [? ?]] & ->)]; [lia|].
    apply Z.lt_le_incl, bval_pos; unfold value_scale; lia. }
  destruct M as [|p|p]; cbn [binary_normalize].
  - change (bval 0 e) with 0 in Hl, Hh.
    cbn [fin has_sign fmag]. repeat split; lia.
  - now apply binary_round_bounds.
  - exfalso. rewrite bval_opp in Hl.
    pose proof (bval_pos (Zpos p) e ltac:(lia) He). lia.
Qed.

(** ** Addition and subtraction *)

Lemma bval_add (a b e : Z) : bval (a + b) e = bval a e + bval b e.
Proof. unfold bval. ring. Qed.

Lemma bval_sub (a b e : Z) : bval (a - b) e = bval a e - bval b e.
Proof. unfold bval. ring. Qed.

Lemma bval_cond_Zopp (s : bool) (m e : Z) :
  bval (cond_Zopp s m) e = if s then - bval m e else bval m e.
Proof. destruct s; unfold cond_Zopp, bval; ring. Qed.

Lemma fin_finite (s : bool) (m : positive) (e : Z) :
  fin (S754_finite s m e) = true -> repr (Zpos m) e.
Proof. apply bounded_repr. Qed.

Lemma aligned_value (m : positive) (e ez : Z) :
  - value_scale <= ez <= e ->
  bval (Zpos (fst (shl_align m e ez))) ez = bval (Zpos m) e.
Proof.
  intros H. destruct (shl_align_spec m e ez) as (q & -> & Hq).
  cbn [fst]. replace (Z.min e ez) with ez in Hq by lia.
  rewrite Hq. symmetry. apply bval_shift. lia.
Qed.

Lemma fval_finite (s : bool) (m : positive) (e : Z) :
  fval (S754_finite s m e) = if s then - bval (Zpos m) e else bval (Zpos m) e.
Proof. destruct s; reflexivity. Qed.

Lemma SFadd_form (x y : spec_float) :
  fin x = true -> fin y = true ->
  exact_or_rounded (SFadd prec emax x y) (fval x + fval y).
Proof.
  intros Hx Hy.
  destruct x as [sx|sx| |sx mx ex], y as [sy|sy| |sy my ey];
    try discriminate; cbn [SFadd].
  - left. destruct sx, sy; split; reflexivity.
  - left. split; [exact Hy|]. cbn [fval]. lia.
  - left. split; [exact Hx|]. cbn [fval]. lia.
  - right. apply fin_finite in Hx, Hy.
    destruct Hx as [[_ [Hex _]] _], Hy as [[_ [Hey _]] _].
    eexists _, (Z.min ex ey). split; [unfold value_scale; lia|].
    split; [|reflexivity].
    rewrite bval_add, !bval_cond_Zopp, !aligned_value, !fval_finite
      by (unfold value_scale; lia).
    reflexivity.
Qed.

Lemma SFsub_form (x y : spec_float) :
  fin x = true -> fin y = true ->
  exact_or_rounded (SFsub prec emax x y) (fval x - fval y).
Proof.
  intros Hx Hy.
  destruct x as [sx|sx| |sx mx ex], y as [sy|sy| |sy my ey];
    try discriminate; cbn [SFsub].
  - left. destruct sx, sy; split; reflexivity.
  - left. split; [exact Hy|]. rewrite !fval_finite. cbn [fval].
    destruct sy; cbn [negb]; lia.
  - left. split; [exact Hx|]. cbn [fval]. lia.
  - right. apply fin_finite in Hx, Hy.
    destruct Hx as [[_ [Hex _]] _], Hy as [[_ [Hey _]] _].
    eexists _, (Z.min ex ey). split; [unfold value_scale; lia|].
    split; [|reflexivity].
    rewrite bval_sub, !bval_cond_Zopp, !aligned_value, !fval_finite
      by (unfold value_scale; lia).
    reflexivity.
Qed.

(** No finite number lies strictly between 1 and [1 + 2^-52]. *)
Lemma fin_le_one_gap (r : spec_float) :
  fin r = true ->
  fmag r <= 2 ^ value_scale + 2 ^ (value_scale - 53) ->
  fmag r <= 2 ^ value_scale.
Proof.
  intros Hf Hle.
  assert (Hh : 0 < 2 ^ (value_scale - 53)) by (apply pow2_pos; unfold value_scale; lia).
  destruct r as [s|s| |s m e]; cbn [fmag] in *; try lia.
  apply fin_finite in Hf. destruct Hf as [Hc _].
  pose proof (no_repr_between (2 ^ 52) (-52) (Zpos m) e
                ltac:(lia) ltac:(lia) ltac:(lia) Hc) as Hgap.
  rewrite bval_succ, bval_one in Hgap.
  assert (Hu : bval 1 (-52) = 2 * 2 ^ (value_scale - 53)).
  { unfold bval. rewrite Z.mul_1_l, <- pow2_succ by (unfold value_scale; lia).
    f_equal; lia. }
  lia.
Qed.

(** Sum within [1 + 2^-53] in magnitude: the result is within 1. *)
Lemma SFadd_le_one (x y : spec_float) :
  fin x = true -> fin y = true ->
  Z.abs (fval x + fval y) <= 2 ^ value_scale + 2 ^ (value_scale - 53) ->
  fin (SFadd prec emax x y) = true /\ fmag (SFadd prec emax x y) <= 2 ^ value_scale.
Proof.
  intros Hx Hy Hb.
  destruct (SFadd_form x y Hx Hy) as [[Hf Hv]|(M & e & He & Hv & ->)].
  - split; [exact Hf|]. apply fin_le_one_gap; [exact Hf|].
    rewrite fmag_abs, Hv. exact Hb.
  - apply binary_normalize_le_one; [exact He|]. rewrite Hv. exact Hb.
Qed.

(** Difference within 2 in magnitude: the result errs by at most [2^-53]. *)
Lemma SFsub_error (x y : spec_float) :
  fin x = true -> fin y = true ->
  Z.abs (fval x - fval y) <= 2 * 2 ^ value_scale ->
  fin (SFsub prec emax x y) = true
  /\ Z.abs (fval (SFsub prec emax x y) - (fval x - fval y)) <= 2 ^ (value_scale - 53).
Proof.
  intros Hx Hy Hb.
  assert (0 <= 2 ^ (value_scale - 53)) by (apply Z.pow_nonneg; lia).
  destruct (SFsub_form x y Hx Hy) as [[Hf Hv]|(M & e & He & Hv & ->)].
  - split; [exact Hf|]. rewrite Hv. lia.
  - rewrite <- Hv in *. now apply binary_normalize_error.
Qed.

(** Sum between two finite non-negative bounds. *)
Lemma SFadd_bounds_nonneg (x y : spec_float) (lo mh eh : Z) :
  fin x = true -> fin y = true ->
  (lo = 0 \/ exists ml el, canon ml el /\ lo = bval ml el) ->
  repr mh eh ->
  lo <= fval x + fval y <= bval mh eh ->
  fin (SFadd prec emax x y) = true
  /\ lo <= fval (SFadd prec emax x y) <= bval mh eh.
Proof.
  intros Hx Hy Hlo Hhi Hb.
  destruct (SFadd_form x y Hx Hy) as [[Hf Hv]|(M & e & He & Hv & ->)].
  - split; [exact Hf|]. rewrite Hv. exact Hb.
  - rewrite <- Hv in Hb.
    destruct (binary_normalize_bounds_nonneg M e lo mh eh He Hlo Hhi Hb)
      as (Hf & Hs & Hm).
    split; [exact Hf|]. rewrite (fval_signed false _ Hs). exact Hm.
Qed.

(** ** Multiplication by a number of magnitude at most 1 *)

Lemma dig_mono (p q : positive) : (p <= q)%positive -> dig p <= dig q.
Proof.
  intros Hpq. pose proof (dig_bounds p) as [Hlo _].
  pose proof (dig_bounds q) as [_ Hhi]. pose proof (dig_pos p). pose proof (dig_pos q).
  destruct (Z.leb_spec (dig p) (dig q)); [assumption|exfalso].
  assert (2 ^ dig q <= 2 ^ (dig p - 1)) by (apply pow2_le; lia).
  lia.
Qed.

Lemma repr_digits (m : positive) (e : Z) :
  repr (Zpos m) e -> dig m = 53 \/ e = -1074.
Proof.
  intros [[[_ Hhi] [_ [Hn|Hn]]] _]; [left|right; exact Hn].
  apply dig_unique. change (53 - 1) with 52. lia.
Qed.

(** The product of a finite number and a finite number of magnitude at most
    1 is no larger than the first. *)
Lemma SFmul_finite_bounds (sx sf : bool) (mx mf : positive) (ex ef : Z) :
  repr (Zpos mx) ex -> repr (Zpos mf) ef ->
  bval (Zpos mf) ef <= 2 ^ value_scale ->
  let p := SFmul prec emax (S754_finite sx mx ex) (S754_finite sf mf ef) in
  fin p = true /\ has_sign (xorb sx sf) p /\ fmag p <= bval (Zpos mx) ex.
Proof.
  intros Hrx Hrf Hle. cbn [SFmul]. cbv zeta.
  pose proof (repr_digits _ _ Hrx) as Hdx.
  pose proof Hrx as Hrx'.
  destruct Hrx as [[[Hx0 Hx53] [Hex _]] Hex'].
  destruct Hrf as [[[Hf0 Hf53] [Hef _]] Hef'].
  assert (Hvs : 0 < 2 ^ value_scale) by (apply pow2_pos; unfold value_scale; lia).
  assert (Hef0 : ef <= 0).
  { destruct (Z.leb_spec ef 0); [assumption|exfalso].
    unfold bval in Hle.
    assert (2 * 2 ^ value_scale <= 2 ^ (ef + value_scale)).
    { rewrite <- pow2_succ by (unfold value_scale; lia).
      apply pow2_le. unfold value_scale. lia. }
    nia. }
  assert (He : - value_scale <= ex + ef) by (unfold value_scale; lia).
  assert (Hprod : bval (Zpos (mx * mf)) (ex + ef) <= bval (Zpos mx) ex).
  { unfold bval in *. rewrite Pos2Z.inj_mul.
    assert (Hsplit : 2 ^ (ex + ef + value_scale) * 2 ^ value_scale
                     = 2 ^ (ex + value_scale) * 2 ^ (ef + value_scale)).
    { rewrite <- !Z.pow_add_r by (unfold value_scale; lia). f_equal; lia. }
    assert (0 < 2 ^ (ex + value_scale)) by (apply pow2_pos; unfold value_scale; lia).
    assert (0 < 2 ^ (ex + ef + value_scale)) by (apply pow2_pos; lia).
    apply Z.mul_le_mono_pos_r with (p := 2 ^ value_scale); [exact Hvs|].
    replace (Zpos mx * Zpos mf * 2 ^ (ex + ef + value_scale) * 2 ^ value_scale)
      with (Zpos mx * 2 ^ (ex + value_scale) * (Zpos mf * 2 ^ (ef + value_scale)))
      by (rewrite <- !Z.mul_assoc, Hsplit; ring).
    apply Z.mul_le_mono_nonneg_l; [lia|exact Hle]. }
  assert (HE : ex + ef <= fexp prec emax (dig (mx * mf) + (ex + ef))).
  { rewrite fexp_eq.
    assert (dig mx <= dig (mx * mf)) by (apply dig_mono; nia).
    lia. }
  destruct (bra_bounds (xorb sx sf) (mx * mf) (ex + ef) 0 (Zpos mx) ex HE He
              (or_introl eq_refl) Hrx') as (Hfp & Hsp & Hmp).
  { split; [|exact Hprod]. apply Z.lt_le_incl, bval_pos; lia. }
  split; [exact Hfp|]. split; [exact Hsp|]. lia.
Qed.

(** A finite number times a fraction in [[0, 1]]: the product lies between 0
    and the number. *)
Lemma SFmul_fraction (x f : spec_float) :
  fin x = true -> fin f = true -> has_sign false f ->
  fmag f <= 2 ^ value_scale ->
  let p := SFmul prec emax x f in
  fin p = true
  /\ (0 <= fval x -> 0 <= fval p <= fval x)
  /\ (fval x <= 0 -> fval x <= fval p <= 0).
Proof.
  intros Hx Hf Hs Hle.
  destruct x as [sx|sx| |sx mx ex], f as [sf|sf| |sf mf ef];
    try discriminate; try contradiction; cbn [fmag] in *; cbv zeta.
  - cbn [SFmul fin fval]. repeat split; lia.
  - cbn [SFmul fin fval]. repeat split; lia.
  - cbn [SFmul fin]. split; [reflexivity|]. cbn [fval]. split; lia.
  - cbn [has_sign] in Hs. subst sf.
    destruct (SFmul_finite_bounds sx false mx mf ex ef
                (fin_finite _ _ _ Hx) (fin_finite _ _ _ Hf) Hle)
      as (Hfp & Hsp & Hmp).
    rewrite xorb_false_r in Hsp.
    split; [exact Hfp|].
    pose proof (fmag_nonneg (SFmul prec emax (S754_finite sx mx ex)
                                   (S754_finite false mf ef))).
    rewrite (fval_signed sx _ Hsp), fval_finite.
    destruct sx; split; lia.
Qed.

(** Multiplying by a number of magnitude at most 1 does not overflow. *)
Lemma SFmul_bounded (x f : spec_float) :
  fin x = true -> fin f = true -> fmag f <= 2 ^ value_scale ->
  fin (SFmul prec emax x f) = true.
Proof.
  intros Hx Hf Hle.
  destruct x as [sx|sx| |sx mx ex], f as [sf|sf| |sf mf ef];
    try discriminate; try reflexivity.
  apply (SFmul_finite_bounds sx sf mx mf ex ef
           (fin_finite _ _ _ Hx) (fin_finite _ _ _ Hf) Hle).
Qed.

(** ** Division *)

Lemma div_eucl_div_mod (a b : Z) : Z.div_eucl a b = (a / b, a mod b).
Proof. unfold Z.div, Z.modulo. now destruct (Z.div_eucl a b). Qed.

(** A finite number divided by itself is 1. *)
Lemma SFdiv_self (s : bool) (m : positive) (e : Z) :
  SFdiv prec emax (S754_finite s m e) (S754_finite s m e)
  = S754_finite false (Z.to_pos (2 ^ 52)) (-52).
Proof.
  cbn [SFdiv]. unfold SFdiv_core_binary.
  rewrite Z.sub_diag, Z.sub_diag. rewrite xorb_nilpotent.
  change (Z.min (fexp prec emax 0) 0) with (-53).
  change (0 - -53) with 53.
  rewrite Z.shiftl_mul_pow2 by lia.
  rewrite div_eucl_div_mod.
  rewrite (Z.mul_comm (Zpos m)), Z.div_mul, Z.mod_mul by lia.
  unfold new_location. destruct (Z.even (Zpos m)); reflexivity.
Qed.

(** Halving a normal number well above the smallest exponent is exact. *)
Lemma SFdiv_two (s : bool) (m : positive) (e : Z) :
  repr (Zpos m) e -> -1072 <= e ->
  SFdiv prec emax (S754_finite s m e) (S754_finite false (Z.to_pos (2 ^ 52)) (-51))
  = S754_finite s m (e - 1).
Proof.
  intros Hr He.
  pose proof (repr_digits _ _ Hr) as [Hd|Hd]; [|lia].
  destruct Hr as [[[Hm0 Hm53] _] He971].
  cbn [SFdiv]. unfold SFdiv_core_binary. cbn [Zdigits2]. fold (dig m).
  rewrite Hd, xorb_false_r.
  change (Zpos (digits2_pos (Z.to_pos (2 ^ 52)))) with 53.
  replace (Z.min (fexp prec emax (53 + e - (53 + -51))) (e - -51)) with (e - 2)
    by (rewrite fexp_eq; lia).
  replace (e - -51 - (e - 2)) with 53 by lia.
  rewrite Z.shiftl_mul_pow2 by lia.
  rewrite div_eucl_div_mod.
  change (Zpos (Z.to_pos (2 ^ 52))) with (2 ^ 52).
  replace (Zpos m * 2 ^ 53) with (Zpos m~0 * 2 ^ 52) by (rewrite Pos2Z.inj_xO; lia).
  rewrite Z.div_mul, Z.mod_mul by lia.
  change (new_location (2 ^ 52) 0) with loc_Exact.
  assert (Hdig : dig m~0 = 54).
  { unfold dig in *. cbn [digits2_pos]. rewrite Pos2Z.inj_succ. lia. }
  destruct (binary_round_aux_spec s m~0 (e - 2)) as (m2 & Hok & ->).
  { rewrite Hdig, fexp_eq. lia. }
  rewrite Hdig in *. rewrite fexp_eq in *.
  replace (Z.max (54 + (e - 2) - 53) (-1074)) with (e - 1) in * by lia.
  replace (e - 1 - (e - 2)) with 1 in Hok by lia.
  assert (Hm2 : m2 = Zpos m).
  { unfold round_ok in Hok. change (2 ^ 1) with 2 in Hok.
    rewrite Pos2Z.inj_xO in Hok.
    rewrite (Z.mul_comm 2), Z.div_mul, Z.mod_mul in Hok by lia. lia. }
  subst m2. unfold pack.
  destruct (Z.eqb_spec (Zpos m) 0); [lia|].
  destruct (Z.eqb_spec (Zpos m) (2 ^ 53)); [lia|].
  destruct (Z.leb_spec (e - 1) 971); [|lia].
  reflexivity.
Qed.

Lemma new_location_zero (n : Z) : new_location n 0 = loc_Exact.
Proof. unfold new_location. destruct (Z.even n); reflexivity. Qed.

(** The quotient of two normal numbers, the first at most the second, is a
    valid float of [[0, 1]]. *)
Lemma SFdiv_le_one (mx my : positive) (ex ey : Z) :
  2 ^ 52 <= Zpos mx < 2 ^ 53 -> 2 ^ 52 <= Zpos my < 2 ^ 53 ->
  -500 <= ex <= 500 -> -500 <= ey <= 500 ->
  bval (Zpos mx) ex <= bval (Zpos my) ey ->
  let r := SFdiv prec emax (S754_finite false mx ex) (S754_finite false my ey) in
  fin r = true /\ has_sign false r /\ fmag r <= 2 ^ value_scale.
Proof.
  intros Hmx Hmy Hexr Hey Hle.
  assert (Hdx : dig mx = 53) by (apply dig_unique; change (53 - 1) with 52; lia).
  assert (Hdy : dig my = 53) by (apply dig_unique; change (53 - 1) with 52; lia).
  assert (Hex : ex <= ey).
  { apply (canon_le_exp (Zpos mx) ex (Zpos my) ey); [| |exact Hle];
      unfold canon; lia. }
  cbn [SFdiv]. unfold SFdiv_core_binary. cbn [Zdigits2]. fold (dig mx) (dig my).
  rewrite Hdx, Hdy. cbn [xorb].
  replace (Z.min (fexp prec emax (53 + ex - (53 + ey))) (ex - ey)) with (ex - ey - 53)
    by (rewrite fexp_eq; lia).
  replace (ex - ey - (ex - ey - 53)) with 53 by lia.
  rewrite Z.shiftl_mul_pow2 by lia.
  rewrite div_eucl_div_mod.
  remember (ex - ey - 53) as e' eqn:Ee'.
  pose proof (Z.div_mod (Zpos mx * 2 ^ 53) (Zpos my) ltac:(lia)) as Hdm.
  pose proof (Z.mod_pos_bound (Zpos mx * 2 ^ 53) (Zpos my) ltac:(lia)) as Hr.
  remember (Zpos mx * 2 ^ 53 / Zpos my) as q eqn:Eq.
  remember ((Zpos mx * 2 ^ 53) mod Zpos my) as r eqn:Er.
  assert (Hq : 2 ^ 52 <= q < 2 ^ 54) by nia.
  destruct q as [|qp|qp]; try lia.
  assert (Hdq : dig qp = 53 \/ dig qp = 54).
  { destruct (Z.ltb_spec (Zpos qp) (2 ^ 53)); [left|right]; apply dig_unique.
    - change (53 - 1) with 52. lia.
    - change (54 - 1) with 53. lia. }
  destruct (binary_round_aux_faithful false qp e' (new_location (Zpos my) r))
    as (m2 & Hm2 & ->).
  { rewrite fexp_eq. lia. }
  destruct (truncated_mantissa_range qp e') as [Hm1 Hnorm].
  { rewrite fexp_eq. lia. }
  cbv zeta in Hm1, Hnorm.
  remember (fexp prec emax (dig qp + e')) as E eqn:EE.
  rewrite fexp_eq in EE.
  assert (HE : E = dig qp + e' - 53) by lia.
  assert (Hk : E - e' = dig qp - 53) by lia.
  rewrite Hk in *.
  remember (dig qp - 53) as k eqn:Ek.
  assert (Hk01 : 0 <= k <= 1) by lia.
  remember (Zpos qp / 2 ^ k) as m1 eqn:Em1.
  assert (Hpk : 0 < 2 ^ k) by (apply pow2_pos; lia).
  pose proof (Z.div_mod (Zpos qp) (2 ^ k) ltac:(lia)) as Hdm1.
  pose proof (Z.mod_pos_bound (Zpos qp) (2 ^ k) Hpk) as Hr1.
  rewrite <- Em1 in Hdm1.
  remember (Zpos qp mod 2 ^ k) as r1 eqn:Er1.
  (* the scaled values *)
  assert (HV : 0 < 2 ^ value_scale) by (apply pow2_pos; unfold value_scale; lia).
  assert (HPe : 0 < 2 ^ (e' + value_scale)) by (apply pow2_pos; unfold value_scale; lia).
  assert (HPy : 0 < 2 ^ (ey + value_scale)) by (apply pow2_pos; unfold value_scale; lia).
  assert (Hid : 2 ^ 53 * 2 ^ (e' + value_scale) * 2 ^ (ey + value_scale)
                = 2 ^ (ex + value_scale) * 2 ^ value_scale).
  { rewrite <- !Z.pow_add_r by (unfold value_scale; lia). f_equal; lia. }
  assert (HbE : forall m, bval m E = m * 2 ^ k * 2 ^ (e' + value_scale)).
  { intros m. unfold bval. rewrite <- Z.mul_assoc. f_equal.
    rewrite <- Z.pow_add_r by (unfold value_scale; lia). f_equal; lia. }
  unfold bval in Hle.
  remember (2 ^ value_scale) as V eqn:EV.
  remember (2 ^ (e' + value_scale)) as Pe eqn:EPe.
  remember (2 ^ (ey + value_scale)) as Py eqn:EPy.
  remember (2 ^ (ex + value_scale)) as Px eqn:EPx.
  remember (2 ^ k) as K eqn:EK.
  assert (Hquot : Zpos qp * Pe <= V /\ (r <> 0 -> Zpos qp * Pe < V)).
  { assert (H1 : Zpos qp * Pe * (Zpos my * Py) + r * (Pe * Py)
                 = Zpos mx * Px * V).
    { replace (Zpos mx * Px * V) with (Zpos mx * 2 ^ 53 * (Pe * Py))
        by (transitivity (Zpos mx * (2 ^ 53 * Pe * Py)); [ring|rewrite Hid; ring]).
      rewrite Hdm. ring. }
    assert (H2 : Zpos mx * Px * V <= Zpos my * Py * V)
      by (apply Z.mul_le_mono_nonneg_r; lia).
    assert (H3 : 0 < Zpos my * Py) by (apply Z.mul_pos_pos; lia).
    assert (H4 : 0 <= r * (Pe * Py)) by (apply Z.mul_nonneg_nonneg; nia).
    split.
    - apply (Z.mul_le_mono_pos_r _ _ (Zpos my * Py) H3). lia.
    - intros Hr0.
      assert (0 < r * (Pe * Py)) by (apply Z.mul_pos_pos; [lia|apply Z.mul_pos_pos; lia]).
      apply (Z.mul_lt_mono_pos_r (Zpos my * Py) _ _ H3). lia. }
  destruct Hquot as [Hqle Hqlt].
  assert (Htrunc : m1 * K * Pe <= Zpos qp * Pe /\ (r1 <> 0 -> m1 * K * Pe < Zpos qp * Pe)).
  { split.
    - apply Z.mul_le_mono_nonneg_r; lia.
    - intros Hr0. apply Z.mul_lt_mono_pos_r; lia. }
  destruct Htrunc as [Htle Htlt].
  assert (Hval : bval m2 E <= V).
  { destruct Hm2 as [->|[-> Hcut]].
    - rewrite HbE. lia.
    - assert (Hlt : bval m1 E < V).
      { rewrite HbE. destruct Hcut as [Hl|Hc].
        + assert (r <> 0) by (intros ->; apply Hl, new_location_zero). 
          specialize (Hqlt H). lia.
        + specialize (Htlt Hc). lia. }
      pose proof (no_repr_between m1 E (2 ^ 52) (-52) ltac:(lia) ltac:(lia) Hnorm
                    (proj1 repr_one)) as Hgap.
      rewrite bval_one, <- EV in Hgap. lia. }
  destruct (pack_spec false m2 E) as (Hf & Hs & Hm).
  - destruct Hm2 as [->|[-> _]]; lia.
  - lia.
  - destruct Hm2 as [->|[-> _]]; lia.
  - exists (2 ^ 52), (-52). split; [exact repr_one|]. rewrite bval_one, <- EV. exact Hval.
  - split; [exact Hf|]. split; [exact Hs|]. rewrite Hm. exact Hval.
Qed.

(** ** Comparison with 1 and -1 *)

Lemma repr_le_one (m e : Z) :
  repr m e ->
  (bval m e <= 2 ^ value_scale <-> e < -52 \/ (e = -52 /\ m <= 2 ^ 52)).
Proof.
  intros [Hc He]. rewrite <- bval_one. split.
  - intros Hle.
    pose proof (canon_le_exp _ _ _ _ Hc (proj1 repr_one) Hle).
    destruct (Z.eq_dec e (-52)) as [->|]; [right|left; lia].
    split; [reflexivity|]. apply bval_le in Hle; [exact Hle|unfold value_scale; lia].
  - destruct Hc as [[Hm0 Hm53] [Hemin Hn]].
    intros [Hlt|[-> Hm]].
    + rewrite (bval_shift (2 ^ 52) (-52) e) by (unfold value_scale; lia).
      apply bval_le; [unfold value_scale; lia|].
      assert (2 <= 2 ^ (-52 - e)).
      { change 2 with (2 ^ 1) at 1. apply pow2_le. lia. }
      nia.
    + apply bval_le; [unfold value_scale; lia|exact Hm].
Qed.

Lemma pos_compare_le (m q : positive) :
  match Pos.compare_cont Eq m q with Gt => False | _ => True end <-> Zpos m <= Zpos q.
Proof.
  change (Pos.compare_cont Eq m q) with (Pos.compare m q).
  rewrite Pos2Z.inj_compare.
  destruct (Z.compare_spec (Zpos m) (Zpos q)); split; auto; lia.
Qed.

(** * The float operations of the sweep *)

Lemma of_int_1 : of_int 1 = S754_finite false (Z.to_pos (2 ^ 52)) (-52).
Proof. reflexivity. Qed.

Lemma of_int_m1 : of_int (-1) = S754_finite true (Z.to_pos (2 ^ 52)) (-52).
Proof. reflexivity. Qed.

Lemma of_int_2 : of_int 2 = S754_finite false (Z.to_pos (2 ^ 52)) (-51).
Proof. reflexivity. Qed.

(** For a valid float, [-1 <= x <= 1] says that its magnitude is at most 1. *)
Lemma in_unit_range_spec (x : float) :
  fin x = true -> (in_unit_range x = true <-> fmag x <= 2 ^ value_scale).
Proof.
  intros Hf. unfold in_unit_range, fleb, SFleb. rewrite of_int_1, of_int_m1.
  destruct x as [s|s| |s m e]; try discriminate.
  - cbn [fmag]. split; [intros _; apply Z.pow_nonneg; lia | reflexivity].
  - apply fin_finite in Hf. cbn [fmag]. rewrite (repr_le_one _ _ Hf).
    destruct Hf as [[[Hm0 Hm53] _] _].
    change (Zpos (Z.to_pos (2 ^ 52))) with (2 ^ 52) in *.
    pose proof (pos_compare_le m (Z.to_pos (2 ^ 52))) as Hle.
    pose proof (pos_compare_le (Z.to_pos (2 ^ 52)) m) as Hge.
    change (Zpos (Z.to_pos (2 ^ 52))) with (2 ^ 52) in *.
    assert (Hanti : Pos.compare_cont Eq (Z.to_pos (2 ^ 52)) m
                    = CompOpp (Pos.compare_cont Eq m (Z.to_pos (2 ^ 52))))
      by apply Pos.compare_antisym.
    destruct s; cbn [SFcompare andb].
    + rewrite andb_true_r.
      destruct (Z.compare_spec (-52) e) as [He|He|He].
      * subst e. rewrite Hanti, CompOpp_involutive.
        destruct (Pos.compare_cont Eq m (Z.to_pos (2 ^ 52)));
          split; intros H; try reflexivity; try discriminate; lia.
      * split; [discriminate|lia].
      * split; [lia|reflexivity].
    + destruct (Z.compare_spec e (-52)) as [He|He|He].
      * subst e.
        destruct (Pos.compare_cont Eq m (Z.to_pos (2 ^ 52)));
          split; intros H; try reflexivity; try discriminate; lia.
      * split; [lia|reflexivity].
      * split; [discriminate|lia].
Qed.

Lemma fin_valid (x : float) :
  valid_binary prec emax x = true -> in_unit_range x = true -> fin x = true.
Proof.
  destruct x as [s|s| |s m e]; cbn [valid_binary fin]; intros Hv Hr;
    try reflexivity; try exact Hv; try discriminate Hr.
  destruct s; discriminate Hr.
Qed.

(** ... and converting it to a float is exact. *)
Lemma of_int_exact (n : Z) :
  1 <= n <= 2 ^ 53 ->
  exists m e,
    of_int n = S754_finite false m e
    /\ repr (Zpos m) e /\ bval (Zpos m) e = n * 2 ^ value_scale
    /\ 2 ^ 52 <= Zpos m /\ -52 <= e <= 1.
Proof.
  intros Hn. destruct (int_canonical n Hn) as (m & e & Hr & Hv & Hm & He).
  assert (Hs : 0 < 2 ^ value_scale) by (apply pow2_pos; unfold value_scale; lia).
  unfold of_int.
  destruct (binary_normalize_bounds_nonneg n 0 (bval m e) m e)
    as (Hf & Hsign & Hlo & Hhi).
  - unfold value_scale. lia.
  - right. exists m, e. split; [apply Hr|reflexivity].
  - exact Hr.
  - rewrite Hv. unfold bval. rewrite Z.add_0_l. lia.
  - destruct (binary_normalize prec emax n 0 false) as [s|s| |s m' e'];
      cbn [fin has_sign fmag] in *; try discriminate; try nia.
    subst s. apply bounded_repr in Hf.
    destruct (repr_unique _ _ _ _ Hf Hr) as [Hm' He']; [lia|].
    exists m', e'. split; [reflexivity|]. subst e'. rewrite Hm'.
    repeat split; try apply Hr; try lia.
Qed.

(** The normalised time at the two ends of the loop. *)
Lemma truediv_first (n : Z) :
  1 <= n <= 2 ^ 53 -> (of_int 0 / of_int n)%b64 = S754_zero false.
Proof.
  intros Hn. destruct (of_int_exact n Hn) as (m & e & -> & _). reflexivity.
Qed.

Lemma truediv_last (n : Z) :
  1 <= n <= 2 ^ 53 -> (of_int n / of_int n)%b64 = of_int 1.
Proof.
  intros Hn. destruct (of_int_exact n Hn) as (m & e & -> & _).
  unfold fdiv. rewrite SFdiv_self. reflexivity.
Qed.

(** The normalised time [i / steps] of a step of the loop is a valid float
    of [[0, 1]]. *)
Lemma truediv_range (i n : Z) :
  1 <= n <= 2 ^ 53 -> 0 <= i <= n ->
  fin (of_int i / of_int n)%b64 = true
  /\ has_sign false (of_int i / of_int n)%b64
  /\ fmag (of_int i / of_int n)%b64 <= 2 ^ value_scale.
Proof.
  intros Hn Hi.
  assert (HV : 0 < 2 ^ value_scale) by (apply pow2_pos; unfold value_scale; lia).
  destruct (Z.eq_dec i 0) as [->|Hi0].
  - rewrite truediv_first by assumption. cbn [fin has_sign fmag].
    split; [reflexivity|]. split; [reflexivity|lia].
  - destruct (of_int_exact i ltac:(lia)) as (mi & ei & -> & Hri & Hvi & Hmi & Hei).
    destruct (of_int_exact n Hn) as (mn & en & -> & Hrn & Hvn & Hmn & Hen).
    apply SFdiv_le_one.
    + destruct Hri as [[[_ ?] _] _]. lia.
    + destruct Hrn as [[[_ ?] _] _]. lia.
    + lia.
    + lia.
    + rewrite Hvi, Hvn. apply Z.mul_le_mono_nonneg_r; lia.
Qed.

(** The argument handed to [math.sin] is then finite. *)
Lemma sine_argument_fin (t : float) :
  fin t = true -> has_sign false t -> fmag t <= 2 ^ value_scale ->
  fin (pi * (t - lit_0_5))%b64 = true.
Proof.
  intros Hf Hs Hm.
  assert (HV : 0 < 2 ^ value_scale) by (apply pow2_pos; unfold value_scale; lia).
  assert (Hh : 0 < 2 ^ (value_scale - 53)) by (apply pow2_pos; unfold value_scale; lia).
  assert (Hhalf : fval lit_0_5 = 2 ^ (value_scale - 1)).
  { change lit_0_5 with (S754_finite false (Z.to_pos (2 ^ 52)) (-53)).
    cbn [fval]. change (Zpos (Z.to_pos (2 ^ 52))) with (2 ^ 52).
    rewrite bval_pow2 by (unfold value_scale; lia). f_equal. }
  assert (Hone : 2 ^ value_scale = 2 * 2 ^ (value_scale - 1)).
  { rewrite <- pow2_succ by (unfold value_scale; lia). f_equal; lia. }
  assert (Hsmall : 2 ^ (value_scale - 53) <= 2 ^ (value_scale - 1))
    by (apply pow2_le; unfold value_scale; lia).
  pose proof (fval_signed false t Hs) as Hv. cbv iota in Hv.
  pose proof (fmag_nonneg t) as Hn.
  destruct (SFsub_error t lit_0_5 Hf eq_refl) as [Hfy Herr]; [lia|].
  fold (fsub t lit_0_5) in *.
  unfold fmul. apply SFmul_bounded; [reflexivity|exact Hfy|].
  rewrite fmag_abs. lia.
Qed.

Section EasedFraction.
Variable sin : float -> float.
Hypothesis sin_quarter : sin_exact_at_quarter_turns sin.

Lemma eased_fraction_first : eased_fraction sin (S754_zero false) = S754_zero false.
Proof.
  unfold eased_fraction.
  replace (S754_zero false - lit_0_5)%b64 with (- lit_0_5)%b64 by reflexivity.
  rewrite (proj2 sin_quarter). reflexivity.
Qed.

Lemma eased_fraction_last : eased_fraction sin (of_int 1) = of_int 1.
Proof.
  unfold eased_fraction.
  replace (of_int 1 - lit_0_5)%b64 with lit_0_5 by reflexivity.
  rewrite (proj1 sin_quarter). reflexivity.
Qed.

End EasedFraction.

(** * Every commanded value is within the range of the driver *)

(** Below 1 in magnitude means at most [1 - 2^-53]. *)
Lemma fin_lt_one_gap (x : float) :
  fin x = true -> fmag x < 2 ^ value_scale ->
  fmag x <= 2 ^ value_scale - 2 ^ (value_scale - 53).
Proof.
  intros Hf Hlt.
  assert (Hh : 0 < 2 ^ (value_scale - 53)) by (apply pow2_pos; unfold value_scale; lia).
  assert (Hone : bval (2 ^ 53 - 1 + 1) (-53) = 2 ^ value_scale).
  { replace (2 ^ 53 - 1 + 1) with (2 ^ 53) by lia.
    rewrite bval_pow2 by (unfold value_scale; lia). f_equal. }
  assert (Hu : bval 1 (-53) = 2 ^ (value_scale - 53)).
  { unfold bval. rewrite Z.mul_1_l. f_equal. }
  assert (Hhle : 2 ^ (value_scale - 53) <= 2 ^ value_scale)
    by (apply pow2_le; unfold value_scale; lia).
  destruct x as [s|s| |s m e]; cbn [fmag] in *; try lia.
  apply fin_finite in Hf. destruct Hf as [Hc _].
  pose proof (no_repr_between (2 ^ 53 - 1) (-53) (Zpos m) e
                ltac:(lia) ltac:(lia) ltac:(lia) Hc) as Hgap.
  rewrite Hone in Hgap. rewrite bval_succ, Hu in Hone. lia.
Qed.

Lemma bval_half (m e : Z) :
  - value_scale <= e - 1 -> bval m e = 2 * bval m (e - 1).
Proof.
  intros He. rewrite (bval_shift m e (e - 1)) by lia.
  replace (e - (e - 1)) with 1 by lia. unfold bval. change (2 ^ 1) with 2. ring.
Qed.

Section SweepRange.
Variable sin : float -> float.
Hypothesis sin_range : sin_in_unit_range sin.

(** At a time [t] of [[0, 1]] the eased fraction is a valid float of
    [[0, 1]]. *)
Lemma eased_fraction_range (t : float) :
  fin t = true -> has_sign false t -> fmag t <= 2 ^ value_scale ->
  fin (eased_fraction sin t) = true
  /\ has_sign false (eased_fraction sin t)
  /\ fmag (eased_fraction sin t) <= 2 ^ value_scale.
Proof.
  intros Hft Hst Hmt. unfold eased_fraction.
  destruct (sin_range (pi * (t - lit_0_5))%b64 (sine_argument_fin t Hft Hst Hmt))
    as [Hv Hr].
  remember (sin (pi * (t - lit_0_5))%b64) as s eqn:Es. clear Es.
  pose proof (fin_valid s Hv Hr) as Hfs.
  pose proof (proj1 (in_unit_range_spec s Hfs) Hr) as Hms.
  assert (Hone : 0 < 2 ^ value_scale) by (apply pow2_pos; unfold value_scale; lia).
  assert (Hh : 0 < 2 ^ (value_scale - 53)) by (apply pow2_pos; unfold value_scale; lia).
  assert (Hfone : fval (of_int 1) = 2 ^ value_scale).
  { rewrite of_int_1. cbn [fval]. apply bval_one. }
  assert (Hhle : 2 ^ (value_scale - 53) <= 2 ^ value_scale)
    by (apply pow2_le; unfold value_scale; lia).
  destruct (Z.eq_dec (fval s) (- 2 ^ value_scale)) as [Hm1|Hm1].
  - (* the sine is -1 *)
    assert (s = of_int (-1)).
    { rewrite of_int_m1.
      destruct s as [b|b| |b m e]; cbn [fval] in Hm1; try lia.
      destruct b; [|pose proof (fmag_nonneg (S754_finite false m e)) as Hn;
                     cbn [fmag] in Hn; lia].
      apply fin_finite in Hfs.
      destruct (repr_unique _ _ _ _ Hfs repr_one) as [Hm He];
        [rewrite bval_one; lia|].
      subst e. f_equal. apply Pos2Z.inj. exact Hm. }
    subst s. split; [reflexivity|]. split; [reflexivity|].
    change (fmag ((of_int (-1) + of_int 1) / of_int 2)%b64) with 0. lia.
  - (* the sine is above -1 *)
    assert (Hslo : - 2 ^ value_scale + 2 ^ (value_scale - 53) <= fval s).
    { rewrite fmag_abs in Hms.
      destruct (Z.leb_spec 0 (fval s)); [lia|].
      assert (Hlt : fmag s < 2 ^ value_scale) by (rewrite fmag_abs; lia).
      pose proof (fin_lt_one_gap s Hfs Hlt) as Hgap. rewrite fmag_abs in Hgap. lia. }
    assert (Hshi : fval s <= 2 ^ value_scale) by (rewrite fmag_abs in Hms; lia).
    destruct (SFadd_bounds_nonneg s (of_int 1) (bval (2 ^ 52) (-105)) (2 ^ 52) (-51))
      as (Hf1 & Hlo1 & Hhi1).
    + exact Hfs.
    + reflexivity.
    + right. exists (2 ^ 52), (-105). split; [unfold canon; lia|reflexivity].
    + exact repr_two.
    + rewrite bval_two, Hfone, bval_pow2 by (unfold value_scale; lia).
      replace (52 + -105 + value_scale) with (value_scale - 53) by lia. lia.
    + fold (fadd s (of_int 1)) in *.
      remember (fadd s (of_int 1)) as e1 eqn:Ee1. clear Ee1.
      rewrite bval_pow2 in Hlo1 by (unfold value_scale; lia).
      replace (52 + -105 + value_scale) with (value_scale - 53) in Hlo1 by lia.
      rewrite bval_two in Hhi1.
      destruct e1 as [b|b| |b m e]; cbn [fval fin] in *; try lia; try discriminate.
      destruct b; [pose proof (fmag_nonneg (S754_finite true m e)) as Hn;
                   cbn [fmag] in Hn; lia|].
      pose proof (proj1 (bounded_repr m e) Hf1) as Hrep.
      assert (He : -105 <= e).
      { apply (canon_le_exp (2 ^ 52) (-105) (Zpos m) e);
          [unfold canon; lia | apply Hrep |].
        rewrite bval_pow2 by (unfold value_scale; lia).
        replace (52 + -105 + value_scale) with (value_scale - 53) by lia. lia. }
      rewrite of_int_2. unfold fdiv. rewrite SFdiv_two by (assumption || lia).
      cbn [fin has_sign fmag].
      rewrite (bval_half (Zpos m) e) in Hhi1 by (unfold value_scale; lia).
      split; [|split; [reflexivity|lia]].
      apply bounded_repr.
      destruct Hrep as [[Hm [Hemin Hn]] He971].
      unfold repr, canon. lia.
Qed.

(** The interpolation between two values of [[-1, 1]] stays in [[-1, 1]]. *)
Lemma current_val_in_range (start_val end_val t : float) :
  fin start_val = true -> fin end_val = true ->
  in_unit_range start_val = true -> in_unit_range end_val = true ->
  fin t = true -> has_sign false t -> fmag t <= 2 ^ value_scale ->
  in_unit_range (current_val sin start_val (end_val - start_val)%b64 t) = true.
Proof.
  intros Hfa Hfb Hra Hrb Hft Hst Hmt. unfold current_val.
  apply in_unit_range_spec in Hra, Hrb; try assumption.
  rewrite fmag_abs in Hra, Hrb.
  assert (Hh : 0 < 2 ^ (value_scale - 53)) by (apply pow2_pos; unfold value_scale; lia).
  destruct (SFsub_error end_val start_val Hfb Hfa) as [Hfd Herr]; [lia|].
  fold (fsub end_val start_val) in *.
  remember (fsub end_val start_val) as delta eqn:Ed. clear Ed.
  destruct (eased_fraction_range t Hft Hst Hmt) as (Hff & Hsf & Hmf).
  remember (eased_fraction sin t) as f eqn:Ef. clear Ef.
  destruct (SFmul_fraction delta f Hfd Hff Hsf Hmf) as (Hfp & Hpos & Hneg).
  fold (fmul delta f) in *.
  remember (fmul delta f) as p eqn:Ep. clear Ep.
  destruct (SFadd_le_one start_val p Hfa Hfp) as [Hfc Hmc].
  - destruct (Z.leb_spec 0 (fval delta)) as [H0|H0].
    + specialize (Hpos H0). lia.
    + specialize (Hneg ltac:(lia)). lia.
  - apply in_unit_range_spec; assumption.
Qed.

End SweepRange.

Lemma range_forallb (P : Z -> bool) (n : Z) :
  forallb P (range n) = true -> forall i, 0 <= i < n -> P i = true.
Proof.
  intros H i Hi. rewrite forallb_forall in H. apply H, range_spec, Hi.
Qed.

Lemma deg_to_val_valid (deg : Z) :
  0 <= deg <= 180 ->
  fin (deg_to_val deg) = true /\ in_unit_range (deg_to_val deg) = true.
Proof.
  intros H. apply andb_true_iff.
  apply (range_forallb deg_to_val_checks 181); [vm_compute; reflexivity | lia].
Qed.

(** * The two ends of a sweep *)

(** Adding a product by zero changes nothing, unless the sum is [-0.0 + 0.0]. *)
Lemma fadd_fmul_zero (x d : float) :
  fin x = true -> x <> S754_zero true -> fin d = true ->
  (x + d * S754_zero false)%b64 = x.
Proof.
  intros Hx Hnz Hd.
  assert (Hp : exists s, (d * S754_zero false)%b64 = S754_zero s).
  { destruct d as [s|s| |s m e]; try discriminate; eexists; reflexivity. }
  destruct Hp as [s ->].
  destruct x as [sx|sx| |sx m e]; try discriminate.
  - destruct sx; [contradiction|]. destruct s; reflexivity.
  - reflexivity.
Qed.

(** Multiplying a valid float by 1.0 is exact. *)
Lemma fmul_one (x : float) : fin x = true -> (x * of_int 1)%b64 = x.
Proof.
  intros Hx. rewrite of_int_1.
  destruct x as [s|s| |s m e]; try discriminate.
  - unfold fmul. cbn [SFmul]. now rewrite xorb_false_r.
  - unfold fmul. cbn [SFmul]. rewrite xorb_false_r.
    pose proof (fin_finite _ _ _ Hx) as [[[Hm0 Hm53] [Hemin Hn]] He971].
    assert (Hcanon : fexp prec emax (dig m + e) = e).
    { cbn [fin] in Hx. unfold bounded, canonical_mantissa in Hx.
      apply andb_true_iff in Hx as [Hc _]. apply Z.eqb_eq in Hc. exact Hc. }
    assert (Hq : Zpos (m * Z.to_pos (2 ^ 52)) = Zpos m * 2 ^ 52) by reflexivity.
    assert (Hdig : dig (m * Z.to_pos (2 ^ 52)) = dig m + 52)
      by (apply dig_mul_pow2; [lia|exact Hq]).
    destruct (binary_round_aux_spec s (m * Z.to_pos (2 ^ 52)) (e + -52))
      as (m2 & Hok & ->).
    { rewrite Hdig. replace (dig m + 52 + (e + -52)) with (dig m + e) by lia.
      rewrite Hcanon. lia. }
    rewrite Hdig in *.
    replace (dig m + 52 + (e + -52)) with (dig m + e) in * by lia.
    rewrite Hcanon in *. replace (e - (e + -52)) with 52 in Hok by lia.
    assert (Hm2 : m2 = Zpos m).
    { unfold round_ok in Hok. rewrite Hq, Z.div_mul, Z.mod_mul in Hok by lia. lia. }
    subst m2. unfold pack.
    destruct (Z.eqb_spec (Zpos m) 0); [lia|].
    destruct (Z.eqb_spec (Zpos m) (2 ^ 53)); [lia|].
    destruct (Z.leb_spec e 971); [|lia].
    reflexivity.
Qed.

(** From 0.0: the difference and the sum are exact. *)
Lemma from_zero_exact (y : float) :
  fin y = true -> y <> S754_zero true ->
  (S754_zero false + (y - S754_zero false))%b64 = y.
Proof.
  intros Hy Hnz.
  destruct y as [s|s| |s m e]; try discriminate.
  - destruct s; [contradiction|reflexivity].
  - reflexivity.
Qed.

(** Back to 0.0: a number plus its opposite. *)
Lemma to_zero_exact (x : float) :
  fin x = true -> (x + (S754_zero false - x))%b64 = S754_zero false.
Proof.
  intros Hx.
  destruct x as [s|s| |s m e]; try discriminate.
  - destruct s; reflexivity.
  - unfold fadd, fsub. cbn [SFsub SFadd].
    rewrite Z.min_id. unfold shl_align. rewrite Z.sub_diag. cbn [fst].
    destruct s; cbn [negb cond_Zopp]; rewrite ?Z.add_opp_diag_l, ?Z.add_opp_diag_r;
      reflexivity.
Qed.

Lemma neutral_is_zero : neutral = S754_zero false.
Proof. reflexivity. Qed.

Lemma deg_to_val_not_negzero (deg : Z) :
  0 <= deg <= 180 -> deg_to_val deg <> S754_zero true.
Proof.
  intros H.
  assert (Hc : deg_to_val_nonnegzero deg = true)
    by (apply (range_forallb deg_to_val_nonnegzero 181); [vm_compute; reflexivity | lia]).
  unfold deg_to_val_nonnegzero in Hc.
  destruct (float_eq_dec (deg_to_val deg) (S754_zero true)); [discriminate|assumption].
Qed.

Lemma delta_val_fin (a b : Z) :
  0 <= a <= 180 -> 0 <= b <= 180 ->
  fin (deg_to_val b - deg_to_val a)%b64 = true.
Proof.
  intros Ha Hb.
  destruct (deg_to_val_valid a Ha) as [Hfa Hra].
  destruct (deg_to_val_valid b Hb) as [Hfb Hrb].
  apply in_unit_range_spec in Hra, Hrb; try assumption.
  rewrite fmag_abs in Hra, Hrb.
  apply SFsub_error; try assumption. lia.
Qed.

Section SweepEnds.
Variable sin : float -> float.
Hypothesis sin_quarter : sin_exact_at_quarter_turns sin.

Lemma step_value_first (a b n : Z) :
  1 <= n <= 2 ^ 53 -> 0 <= a <= 180 -> 0 <= b <= 180 ->
  step_value sin a b n 0 = deg_to_val a.
Proof.
  intros Hn Ha Hb. unfold step_value, current_val.
  rewrite truediv_first, eased_fraction_first by assumption.
  apply fadd_fmul_zero.
  - apply deg_to_val_valid, Ha.
  - apply deg_to_val_not_negzero, Ha.
  - apply delta_val_fin; assumption.
Qed.

Lemma step_value_last (a b n : Z) :
  1 <= n <= 2 ^ 53 -> 0 <= a <= 180 -> 0 <= b <= 180 ->
  step_value sin a b n n = (deg_to_val a + (deg_to_val b - deg_to_val a))%b64.
Proof.
  intros Hn Ha Hb. unfold step_value, current_val.
  rewrite truediv_last, eased_fraction_last by assumption.
  rewrite fmul_one by (apply delta_val_fin; assumption).
  reflexivity.
Qed.

Lemma step_value_last_from_neutral (b n : Z) :
  1 <= n <= 2 ^ 53 -> 0 <= b <= 180 ->
  step_value sin CENTER_POS b n n = deg_to_val b.
Proof.
  intros Hn Hb. rewrite step_value_last by (assumption || (unfold CENTER_POS; lia)).
  change (deg_to_val CENTER_POS) with (S754_zero false).
  apply from_zero_exact.
  - apply deg_to_val_valid, Hb.
  - apply deg_to_val_not_negzero, Hb.
Qed.

Lemma step_value_last_to_neutral (a n : Z) :
  1 <= n <= 2 ^ 53 -> 0 <= a <= 180 ->
  step_value sin a CENTER_POS n n = neutral.
Proof.
  intros Hn Ha. rewrite step_value_last by (assumption || (unfold CENTER_POS; lia)).
  change (deg_to_val CENTER_POS) with (S754_zero false).
  rewrite neutral_is_zero. apply to_zero_exact, deg_to_val_valid, Ha.
Qed.

End SweepEnds.

(** * The reference sine meets what is assumed of [math.sin] *)

Lemma refsin_exact_at_quarter_turns : sin_exact_at_quarter_turns RefSin.sin.
Proof. split; vm_compute; reflexivity. Qed.

Lemma refsin_in_unit_range : sin_in_unit_range RefSin.sin.
Proof.
  intros x _. unfold RefSin.sin.
  destruct (valid_binary prec emax _ && in_unit_range _) eqn:E.
  - apply andb_true_iff in E. exact E.
  - split; reflexivity.
Qed.

(** * More on rounding: signs and quotients *)

Lemma binary_round_aux_opp (m e : Z) (l : location) :
  binary_round_aux prec emax true m e l
  = SFopp (binary_round_aux prec emax false m e l).
Proof.
  unfold binary_round_aux.
  destruct (shr_fexp prec emax m e l) as [mrs' e'].
  destruct (shr_fexp prec emax _ e' loc_Exact) as [mrs'' e''].
  destruct (shr_m mrs''); [reflexivity| |reflexivity].
  destruct (e'' <=? emax - prec); reflexivity.
Qed.

(** Converting the opposite of a positive [int]. *)
Lemma of_int_opp (n : Z) : 0 < n -> of_int (- n) = SFopp (of_int n).
Proof.
  intros Hn. destruct n as [|p|p]; try lia.
  unfold of_int. cbn [Z.opp binary_normalize]. unfold binary_round.
  destruct (shl_align p 0 _) as [mz ez].
  apply binary_round_aux_opp.
Qed.

(** The result of an addition or subtraction whose exact value is negative
    and between two binary64 numbers lies between them. *)
Lemma exact_or_rounded_bounds_neg (r : spec_float) (v ml el mh eh : Z) :
  exact_or_rounded r v ->
  canon ml el -> repr mh eh ->
  bval ml el <= - v <= bval mh eh ->
  fin r = true /\ bval ml el <= - fval r <= bval mh eh.
Proof.
  intros [[Hf Hv]|(M & e & He & Hv & ->)] Hlo Hhi Hb.
  - split; [exact Hf|]. rewrite Hv. exact Hb.
  - rewrite <- Hv in Hb.
    assert (Hpos : 0 < bval ml el).
    { destruct Hlo as [[? ?] [? ?]]. apply bval_pos; unfold value_scale; lia. }
    destruct M as [|p|p].
    + change (bval 0 e) with 0 in Hb. lia.
    + pose proof (bval_pos (Zpos p) e ltac:(lia) He). lia.
    + cbn [binary_normalize]. rewrite bval_opp in Hb.
      destruct (binary_round_bounds true p e (bval ml el) mh eh He) as (Hf & Hs & Hm).
      * right. exists ml, el. split; [exact Hlo|reflexivity].
      * exact Hhi.
      * lia.
      * split; [exact Hf|]. rewrite (fval_signed true _ Hs). lia.
Qed.

Lemma SFsub_bounds_nonneg (x y : spec_float) (lo mh eh : Z) :
  fin x = true -> fin y = true ->
  (lo = 0 \/ exists ml el, canon ml el /\ lo = bval ml el) ->
  repr mh eh ->
  lo <= fval x - fval y <= bval mh eh ->
  fin (SFsub prec emax x y) = true
  /\ lo <= fval (SFsub prec emax x y) <= bval mh eh.
Proof.
  intros Hx Hy Hlo Hhi Hb.
  destruct (SFsub_form x y Hx Hy) as [[Hf Hv]|(M & e & He & Hv & ->)].
  - split; [exact Hf|]. rewrite Hv. exact Hb.
  - rewrite <- Hv in Hb.
    destruct (binary_normalize_bounds_nonneg M e lo mh eh He Hlo Hhi Hb)
      as (Hf & Hs & Hm).
    split; [exact Hf|]. rewrite (fval_signed false _ Hs). exact Hm.
Qed.

(** The quotient of two normal numbers lies between any two binary64 numbers
    that enclose the exact quotient [x / y]; the bounds are stated multiplied
    by [y]. *)
Lemma SFdiv_bounds (sx sy : bool) (mx my : positive) (ex ey lo mh eh : Z) :
  2 ^ 52 <= Zpos mx < 2 ^ 53 -> 2 ^ 52 <= Zpos my < 2 ^ 53 ->
  -500 <= ex <= 500 -> -500 <= ey <= 500 ->
  (lo = 0 \/ exists ml el, canon ml el /\ lo = bval ml el) ->
  repr mh eh ->
  lo * bval (Zpos my) ey <= bval (Zpos mx) ex * 2 ^ value_scale
                         <= bval mh eh * bval (Zpos my) ey ->
  let r := SFdiv prec emax (S754_finite sx mx ex) (S754_finite sy my ey) in
  fin r = true /\ has_sign (xorb sx sy) r /\ lo <= fmag r <= bval mh eh.
Proof.
  intros Hmx Hmy Hexr Hey Hlo Hhi [Hlb Hub].
  assert (Hdx : dig mx = 53) by (apply dig_unique; change (53 - 1) with 52; lia).
  assert (Hdy : dig my = 53) by (apply dig_unique; change (53 - 1) with 52; lia).
  cbn [SFdiv]. unfold SFdiv_core_binary. cbn [Zdigits2]. fold (dig mx) (dig my).
  rewrite Hdx, Hdy.
  replace (Z.min (fexp prec emax (53 + ex - (53 + ey))) (ex - ey)) with (ex - ey - 53)
    by (rewrite fexp_eq; lia).
  replace (ex - ey - (ex - ey - 53)) with 53 by lia.
  rewrite Z.shiftl_mul_pow2 by lia.
  rewrite div_eucl_div_mod.
  remember (ex - ey - 53) as e' eqn:Ee'.
  pose proof (Z.div_mod (Zpos mx * 2 ^ 53) (Zpos my) ltac:(lia)) as Hdm.
  pose proof (Z.mod_pos_bound (Zpos mx * 2 ^ 53) (Zpos my) ltac:(lia)) as Hr.
  remember (Zpos mx * 2 ^ 53 / Zpos my) as q eqn:Eq.
  remember ((Zpos mx * 2 ^ 53) mod Zpos my) as r eqn:Er.
  assert (Hq : 2 ^ 52 <= q < 2 ^ 54) by nia.
  destruct q as [|qp|qp]; try lia.
  assert (Hdq : dig qp = 53 \/ dig qp = 54).
  { destruct (Z.ltb_spec (Zpos qp) (2 ^ 53)); [left|right]; apply dig_unique.
    - change (53 - 1) with 52. lia.
    - change (54 - 1) with 53. lia. }
  destruct (binary_round_aux_faithful (xorb sx sy) qp e' (new_location (Zpos my) r))
    as (m2 & Hm2 & ->).
  { rewrite fexp_eq. lia. }
  destruct (truncated_mantissa_range qp e') as [Hm1 Hnorm].
  { rewrite fexp_eq. lia. }
  cbv zeta in Hm1, Hnorm.
  remember (fexp prec emax (dig qp + e')) as E eqn:EE.
  rewrite fexp_eq in EE.
  assert (HE : E = dig qp + e' - 53) by lia.
  assert (Hk : E - e' = dig qp - 53) by lia.
  rewrite Hk in *.
  remember (dig qp - 53) as k eqn:Ek.
  assert (Hk01 : 0 <= k <= 1) by lia.
  remember (Zpos qp / 2 ^ k) as m1 eqn:Em1.
  assert (Hpk : 0 < 2 ^ k) by (apply pow2_pos; lia).
  pose proof (Z.div_mod (Zpos qp) (2 ^ k) ltac:(lia)) as Hdm1.
  pose proof (Z.mod_pos_bound (Zpos qp) (2 ^ k) Hpk) as Hr1.
  rewrite <- Em1 in Hdm1.
  remember (Zpos qp mod 2 ^ k) as r1 eqn:Er1.
  assert (HV : 0 < 2 ^ value_scale) by (apply pow2_pos; unfold value_scale; lia).
  assert (HPe : 0 < 2 ^ (e' + value_scale)) by (apply pow2_pos; unfold value_scale; lia).
  assert (HPy : 0 < 2 ^ (ey + value_scale)) by (apply pow2_pos; unfold value_scale; lia).
  assert (Hid : 2 ^ 53 * 2 ^ (e' + value_scale) * 2 ^ (ey + value_scale)
                = 2 ^ (ex + value_scale) * 2 ^ value_scale).
  { rewrite <- !Z.pow_add_r by (unfold value_scale; lia). f_equal; lia. }
  assert (HbE : forall m, bval m E = m * 2 ^ k * 2 ^ (e' + value_scale)).
  { intros m. unfold bval. rewrite <- Z.mul_assoc. f_equal.
    rewrite <- Z.pow_add_r by (unfold value_scale; lia). f_equal; lia. }
  assert (Hlo0 : 0 <= lo).
  { destruct Hlo as [->|(ml & el & [[? ?] [? ?]] & ->)]; [lia|].
    apply Z.lt_le_incl, bval_pos; unfold value_scale; lia. }
  remember (bval mh eh) as hi eqn:Ehi.
  unfold bval in Hlb, Hub.
  remember (2 ^ value_scale) as V eqn:EV.
  remember (2 ^ (e' + value_scale)) as Pe eqn:EPe.
  remember (2 ^ (ey + value_scale)) as Py eqn:EPy.
  remember (2 ^ (ex + value_scale)) as Px eqn:EPx.
  remember (2 ^ k) as K eqn:EK.
  assert (H3 : 0 < Zpos my * Py) by (apply Z.mul_pos_pos; lia).
  assert (H1 : Zpos qp * Pe * (Zpos my * Py) + r * (Pe * Py) = Zpos mx * Px * V).
  { replace (Zpos mx * Px * V) with (Zpos mx * 2 ^ 53 * (Pe * Py))
      by (transitivity (Zpos mx * (2 ^ 53 * Pe * Py)); [ring|rewrite Hid; ring]).
    rewrite Hdm. ring. }
  assert (H4 : 0 <= r * (Pe * Py)) by (apply Z.mul_nonneg_nonneg; nia).
  assert (H5 : r * (Pe * Py) < Pe * (Zpos my * Py)).
  { replace (Pe * (Zpos my * Py)) with (Zpos my * (Pe * Py)) by ring.
    apply Z.mul_lt_mono_pos_r; [apply Z.mul_pos_pos; lia|lia]. }
  (* the truncated quotient is at most the upper bound, strictly if inexact *)
  assert (Hqhi : Zpos qp * Pe <= hi /\ (r <> 0 -> Zpos qp * Pe < hi)).
  { split.
    - apply (Z.mul_le_mono_pos_r _ _ (Zpos my * Py) H3). lia.
    - intros Hr0.
      assert (0 < r * (Pe * Py)) by (apply Z.mul_pos_pos; [lia|apply Z.mul_pos_pos; lia]).
      apply (Z.mul_lt_mono_pos_r (Zpos my * Py) _ _ H3). lia. }
  destruct Hqhi as [Hqle Hqlt].
  (* the lower bound is below the successor of the truncated quotient *)
  assert (Hqlo : lo < (Zpos qp + 1) * Pe).
  { apply (Z.mul_lt_mono_pos_r (Zpos my * Py) _ _ H3).
    replace ((Zpos qp + 1) * Pe * (Zpos my * Py))
      with (Zpos qp * Pe * (Zpos my * Py) + Pe * (Zpos my * Py)) by ring.
    lia. }
  assert (Htle : m1 * K * Pe <= Zpos qp * Pe) by (apply Z.mul_le_mono_nonneg_r; lia).
  assert (Htlt : r1 <> 0 -> m1 * K * Pe < Zpos qp * Pe)
    by (intros Hr0; apply Z.mul_lt_mono_pos_r; lia).
  assert (Hsucc : (Zpos qp + 1) * Pe <= (m1 + 1) * K * Pe)
    by (apply Z.mul_le_mono_nonneg_r; lia).
  assert (Hlow : lo <= bval m1 E).
  { rewrite HbE. destruct Hlo as [->|(ml & el & Hc & Hl)].
    - apply Z.mul_nonneg_nonneg; [apply Z.mul_nonneg_nonneg|]; lia.
    - pose proof (no_repr_between m1 E ml el ltac:(lia) ltac:(lia) Hnorm Hc) as Hgap.
      rewrite <- Hl, !HbE in Hgap. lia. }
  assert (Hmono : bval m1 E <= bval m2 E).
  { rewrite !HbE. destruct Hm2 as [->|[-> _]]; [lia|].
    apply Z.mul_le_mono_nonneg_r; [lia|]. apply Z.mul_le_mono_nonneg_r; lia. }
  assert (Hval : bval m2 E <= hi).
  { destruct Hm2 as [->|[-> Hcut]].
    - rewrite HbE. lia.
    - assert (Hlt : bval m1 E < hi).
      { rewrite HbE. destruct Hcut as [Hl|Hc].
        + assert (Hrne : r <> 0) by (intros ->; apply Hl, new_location_zero).
          specialize (Hqlt Hrne). lia.
        + specialize (Htlt Hc). lia. }
      pose proof (no_repr_between m1 E mh eh ltac:(lia) ltac:(lia) Hnorm
                    (proj1 Hhi)) as Hgap.
      rewrite <- Ehi in Hgap. lia. }
  destruct (pack_spec (xorb sx sy) m2 E) as (Hf & Hs & Hm).
  - destruct Hm2 as [->|[-> _]]; lia.
  - lia.
  - destruct Hm2 as [->|[-> _]]; lia.
  - exists mh, eh. split; [exact Hhi|]. rewrite <- Ehi. exact Hval.
  - split; [exact Hf|]. split; [exact Hs|]. rewrite Hm. lia.
Qed.

(** * The pan-tilt-drop program *)

(** C8. The pan-tilt-drop program of either script moves, in this order and
    with nothing in between: pan Neutral -> target, pause 0.5 s, tilt
    Neutral -> full drop, pause 1 s, tilt full drop -> Neutral, pan
    target -> Neutral; it then returns normally.  The full drop angle is 0 in
    [classifier_app.py] and 180 in [gemini_trigger_app.py]. *)
Theorem pan_tilt_drop_segments (sin : float -> float) (target tilt_target : Z) :
  (motion (events (ClassifierApp.run_deposit_sequence sin target))
   = sweep_trace sin servo_pan CENTER_POS target default_steps default_delay
     ++ [Sleep lit_0_5]
     ++ sweep_trace sin servo_tilt CENTER_POS 0 default_steps default_delay
     ++ [Sleep (of_int 1)]
     ++ sweep_trace sin servo_tilt 0 CENTER_POS default_steps default_delay
     ++ sweep_trace sin servo_pan target CENTER_POS default_steps default_delay
   /\ outcome (ClassifierApp.run_deposit_sequence sin target) = Ok tt)
  /\
  (motion (events (GeminiTriggerApp.run_pan_tilt_sequence sin target tilt_target))
   = sweep_trace sin servo_pan CENTER_POS target default_steps default_delay
     ++ [Sleep lit_0_5]
     ++ sweep_trace sin servo_tilt CENTER_POS 180 default_steps default_delay
     ++ [Sleep (of_int 1)]
     ++ sweep_trace sin servo_tilt 180 CENTER_POS default_steps default_delay
     ++ sweep_trace sin servo_pan target CENTER_POS default_steps default_delay
   /\ outcome (GeminiTriggerApp.run_pan_tilt_sequence sin target tilt_target) = Ok tt).
Proof.
  split; split.
  - rewrite classifier_run_deposit_sequence_motion. program_shape.
  - apply classifier_run_deposit_sequence_ok.
  - rewrite gemini_run_pan_tilt_sequence_motion. program_shape.
  - apply gemini_run_pan_tilt_sequence_ok.
Qed.

(** * Routing of "wet" and "dry" *)

Lemma tilt_only_drop_leaves_pan (sin : float -> float) (drop_angle : Z) :
  values_written servo_pan (program_trace sin (tilt_only_drop drop_angle)) = [].
Proof.
  unfold program_trace, tilt_only_drop. cbn [flat_map segment_trace].
  rewrite !values_written_app, !sweep_trace_other by discriminate.
  reflexivity.
Qed.

Lemma values_written_motion (srv : servo) (evs : list event) :
  values_written srv (motion evs) = values_written srv evs.
Proof.
  unfold motion. induction evs as [|e evs IH]; [reflexivity|].
  destruct e as [s v|s|?|?|?|]; destruct srv; try destruct s;
    cbn [filter is_motion values_written commands_servo];
    rewrite ?IH; reflexivity.
Qed.

Lemma pan_tilt_drop_commands_pan (sin : float -> float) (target full_drop : Z) :
  values_written servo_pan (program_trace sin (pan_tilt_drop target full_drop)) <> [].
Proof.
  unfold program_trace, pan_tilt_drop. cbn [flat_map segment_trace].
  rewrite values_written_app, sweep_trace_values.
  destruct (range_pos_head (default_steps + 1)) as [tl ->]; [reflexivity|].
  discriminate.
Qed.

(** C2, as stated, fails on [classifier_app.py]: there the label "wet" runs
    the pan-tilt program, so the pan servo is commanded and the motion is not
    the tilt-only trace. *)
Lemma classifier_wet_is_not_tilt_only :
  ~ (motion (events (ClassifierApp.trigger_actuator RefSin.sin "wet"))
     = program_trace RefSin.sin (tilt_only_drop 0)
     /\ values_written servo_pan
          (events (ClassifierApp.trigger_actuator RefSin.sin "wet")) = []).
Proof.
  intros [_ H].
  rewrite <- values_written_motion, classifier_trigger_motion in H.
  cbn [lower string_map lower_ascii] in H.
  exact (pan_tilt_drop_commands_pan _ _ _ H).
Qed.

(** C2, amended.  In [gemini_trigger_app.py] the label "wet" runs the
    tilt-only program, whose motion is tilt 90 -> 0, pause 1 s, tilt 0 -> 90,
    and the pan servo is never commanded; "dry" runs the pan-tilt program
    towards that script's [DRY_POS] (45).  In [classifier_app.py] a label
    that lower-cases to "wet" runs the pan-tilt program towards [WET_POS]
    (45), and one that lower-cases to "dry" runs it towards [DRY_POS]
    (135). *)
Theorem wet_dry_routing (sin : float -> float) (wet_label dry_label : string) :
  lower wet_label = "wet"%string ->
  lower dry_label = "dry"%string ->
  (motion (events (GeminiTriggerApp.trigger_actuator sin "wet"))
   = sweep_trace sin servo_tilt 90 0 default_steps default_delay
     ++ [Sleep (of_int 1)]
     ++ sweep_trace sin servo_tilt 0 90 default_steps default_delay
   /\ values_written servo_pan
        (events (GeminiTriggerApp.trigger_actuator sin "wet")) = []
   /\ motion (events (GeminiTriggerApp.trigger_actuator sin "dry"))
      = program_trace sin (pan_tilt_drop GeminiTriggerApp.DRY_POS 180))
  /\
  (motion (events (ClassifierApp.trigger_actuator sin wet_label))
   = program_trace sin (pan_tilt_drop ClassifierApp.WET_POS 0)
   /\ motion (events (ClassifierApp.trigger_actuator sin dry_label))
      = program_trace sin (pan_tilt_drop ClassifierApp.DRY_POS 0)).
Proof.
  intros Hw Hd. split; [split; [|split]|split].
  - rewrite gemini_trigger_motion. program_shape.
  - rewrite <- values_written_motion, gemini_trigger_motion.
    apply tilt_only_drop_leaves_pan.
  - now rewrite gemini_trigger_motion.
  - now rewrite classifier_trigger_motion, Hw.
  - now rewrite classifier_trigger_motion, Hd.
Qed.

Lemma wet_dry_routing_witness :
  lower "WET" = "wet"%string /\ lower "Dry" = "dry"%string /\
  motion (events (ClassifierApp.trigger_actuator RefSin.sin "WET"))
  = program_trace RefSin.sin (pan_tilt_drop 45 0).
Proof.
  split; [reflexivity|]. split; [reflexivity|].
  apply (wet_dry_routing RefSin.sin "WET" "Dry"); reflexivity.
Defined.

(** * Labels outside the recognised set *)

Lemma classifier_main_loop_step (sin : float -> float)
      (c : ClassifierApp.classification) (rest : list ClassifierApp.classification) :
  outcome (ClassifierApp.cycle sin c) = Ok tt ->
  events (ClassifierApp.main_loop sin (c :: rest))
  = Input ClassifierApp.prompt :: events (ClassifierApp.cycle sin c)
    ++ events (ClassifierApp.main_loop sin rest)
  /\ outcome (ClassifierApp.main_loop sin (c :: rest))
     = outcome (ClassifierApp.main_loop sin rest).
Proof.
  intros Hc. cbn [ClassifierApp.main_loop]. unfold input, emit.
  rewrite bind_ok.
  rewrite (M_eta (ClassifierApp.cycle sin c)), Hc, bind_ok.
  cbn [events outcome fst snd app]. split; reflexivity.
Qed.

Lemma gemini_main_loop_step (sin : float -> float)
      (t : GeminiTriggerApp.trigger) (rest : list GeminiTriggerApp.trigger) :
  outcome (GeminiTriggerApp.cycle sin t) = Ok tt ->
  events (GeminiTriggerApp.main_loop sin (t :: rest))
  = Input GeminiTriggerApp.prompt :: events (GeminiTriggerApp.cycle sin t)
    ++ events (GeminiTriggerApp.main_loop sin rest)
  /\ outcome (GeminiTriggerApp.main_loop sin (t :: rest))
     = outcome (GeminiTriggerApp.main_loop sin rest).
Proof.
  intros Hc. cbn [GeminiTriggerApp.main_loop]. unfold input, emit.
  rewrite bind_ok.
  rewrite (M_eta (GeminiTriggerApp.cycle sin t)), Hc, bind_ok.
  cbn [events outcome fst snd app]. split; reflexivity.
Qed.

Lemma classifier_cycle_unfold (sin : float -> float) (label : string) (conf : float) :
  ClassifierApp.cycle sin (ClassifierApp.Classified label conf)
  = ([Console [Lit "============================================="];
      Console [Lit "--- Starting Classification Cycle ---"];
      Console [Lit "Capturing image..."];
      Console [Lit "--- CLASSIFICATION RESULT ---"];
      Console [Lit "Predicted Class: **"; Lit label; Lit "**"];
      Console [Lit "Confidence: "; Float2Arg conf]]
     ++ events (ClassifierApp.trigger_actuator sin label),
     outcome (ClassifierApp.trigger_actuator sin label)).
Proof.
  unfold ClassifierApp.cycle, ClassifierApp.capture_and_classify.
  unfold print, emit, ret. cbn [bind app].
  destruct (ClassifierApp.trigger_actuator sin label); reflexivity.
Qed.

Lemma gemini_cycle_unfold (sin : float -> float) (label : string) :
  GeminiTriggerApp.cycle sin (GeminiTriggerApp.Classification label)
  = ([Console [Lit "Analyzing the image..."];
      Console [Lit "============================================="];
      Console [Lit "WASTE CLASSIFICATION: **"; Lit (upper label); Lit "**"]]
     ++ events (GeminiTriggerApp.trigger_actuator sin label)
     ++ [Console [Lit "============================================="]],
     Ok tt).
Proof.
  unfold GeminiTriggerApp.cycle. unfold print, emit. cbn [bind app].
  rewrite (M_eta (GeminiTriggerApp.trigger_actuator sin label)),
    gemini_trigger_ok, bind_ok.
  reflexivity.
Qed.



(** * Confidence *)

Lemma same_but_confidence_refl {A} (m : M A) : same_but_confidence m m.
Proof. split; reflexivity. Qed.

Lemma same_but_confidence_bind {A B} (m1 m2 : M A) (k1 k2 : A -> M B) :
  same_but_confidence m1 m2 ->
  (forall a, same_but_confidence (k1 a) (k2 a)) ->
  same_but_confidence (bind m1 k1) (bind m2 k2).
Proof.
  intros [He Ho] Hk. split.
  - rewrite !events_bind, !map_app, He, Ho.
    destruct (outcome m2) as [a|e]; [|reflexivity].
    now destruct (Hk a) as [-> _].
  - rewrite !outcome_bind, Ho.
    destruct (outcome m2) as [a|e]; [|reflexivity].
    now destruct (Hk a) as [_ ->].
Qed.

Lemma same_but_confidence_interrupt {A} (k : nat) (m1 m2 : M A) :
  same_but_confidence m1 m2 ->
  same_but_confidence (interrupt_after k m1) (interrupt_after k m2).
Proof.
  intros [He Ho]. unfold interrupt_after.
  assert (Hlen : List.length (events m1) = List.length (events m2)).
  { rewrite <- (length_map blank_confidence (events m1)), He. apply length_map. }
  rewrite Hlen. destruct (Nat.ltb k (List.length (events m2))).
  - split; [|reflexivity]. cbn [events fst]. now rewrite <- !firstn_map, He.
  - now split.
Qed.

Lemma same_but_confidence_try (m1 m2 : M unit) :
  same_but_confidence m1 m2 ->
  same_but_confidence (try_except_finally m1) (try_except_finally m2).
Proof.
  destruct m1 as [e1 o1], m2 as [e2 o2]. intros [He Ho].
  cbn [events outcome fst snd] in He, Ho. subst o2.
  unfold try_except_finally.
  destruct o1 as [[]|e]; apply same_but_confidence_bind;
    try (intros; apply same_but_confidence_refl);
    split; cbn [events outcome fst snd]; auto.
Qed.

Lemma motion_blank_confidence (evs : list event) :
  motion (map blank_confidence evs) = motion evs.
Proof.
  unfold motion. induction evs as [|e evs IH]; [reflexivity|].
  destruct e; cbn [map blank_confidence filter is_motion]; now rewrite ?IH.
Qed.

Lemma same_but_confidence_motion {A} (m1 m2 : M A) :
  same_but_confidence m1 m2 -> motion (events m1) = motion (events m2).
Proof.
  intros [He _].
  now rewrite <- (motion_blank_confidence (events m1)), He, motion_blank_confidence.
Qed.

Lemma classifier_cycle_same (sin : float -> float) (c1 c2 : ClassifierApp.classification) :
  ClassifierApp.label_of c1 = ClassifierApp.label_of c2 ->
  same_but_confidence (ClassifierApp.cycle sin c1) (ClassifierApp.cycle sin c2).
Proof.
  destruct c1 as [l1 x1|w1], c2 as [l2 x2|w2]; cbn [ClassifierApp.label_of];
    intros H; try discriminate; injection H as <-.
  - rewrite !classifier_cycle_unfold. split; [|reflexivity].
    cbn [events fst]. now rewrite !map_app.
  - apply same_but_confidence_refl.
Qed.

Lemma classifier_main_loop_same (sin : float -> float)
      (p1 p2 : list ClassifierApp.classification) :
  map ClassifierApp.label_of p1 = map ClassifierApp.label_of p2 ->
  same_but_confidence (ClassifierApp.main_loop sin p1) (ClassifierApp.main_loop sin p2).
Proof.
  revert p2. induction p1 as [|c1 p1 IH]; intros [|c2 p2] H; try discriminate.
  - apply same_but_confidence_refl.
  - cbn [map] in H. injection H as Hc Hp.
    cbn [ClassifierApp.main_loop].
    apply same_but_confidence_bind; [apply same_but_confidence_refl|]. intros _.
    apply same_but_confidence_bind; [now apply classifier_cycle_same|]. intros _.
    now apply IH.
Qed.

Lemma classifier_main_same (sin : float -> float)
      (p1 p2 : list ClassifierApp.classification) (sigint : option nat) :
  map ClassifierApp.label_of p1 = map ClassifierApp.label_of p2 ->
  same_but_confidence (ClassifierApp.main sin p1 sigint) (ClassifierApp.main sin p2 sigint).
Proof.
  intros H. unfold ClassifierApp.main. apply same_but_confidence_try.
  assert (Hb : same_but_confidence (ClassifierApp.main_body sin p1)
                                   (ClassifierApp.main_body sin p2)).
  { unfold ClassifierApp.main_body.
    apply same_but_confidence_bind; [apply same_but_confidence_refl|]. intros _.
    apply same_but_confidence_bind; [apply same_but_confidence_refl|]. intros _.
    now apply classifier_main_loop_same. }
  unfold ClassifierApp.guarded_body. destruct sigint as [k|]; [|exact Hb].
  now apply same_but_confidence_interrupt.
Qed.

(** C10. In [classifier_app.py] the confidence is printed and nothing else:
    the cycle of a label moves as the routing call of that label does,
    whatever the confidence, and two runs of the script over the same labels
    (with the same interruption, if any) issue the same events up to the
    printed confidences, hence the same motion trace, and end alike. *)
Theorem confidence_is_informational (sin : float -> float)
        (label : string) (c1 c2 : float)
        (presses1 presses2 : list ClassifierApp.classification)
        (sigint : option nat) :
  map ClassifierApp.label_of presses1 = map ClassifierApp.label_of presses2 ->
  (motion (events (ClassifierApp.cycle sin (ClassifierApp.Classified label c1)))
   = motion (events (ClassifierApp.trigger_actuator sin label))
   /\ motion (events (ClassifierApp.cycle sin (ClassifierApp.Classified label c1)))
      = motion (events (ClassifierApp.cycle sin (ClassifierApp.Classified label c2)))
   /\ outcome (ClassifierApp.cycle sin (ClassifierApp.Classified label c1))
      = outcome (ClassifierApp.cycle sin (ClassifierApp.Classified label c2)))
  /\
  (map blank_confidence (events (ClassifierApp.main sin presses1 sigint))
   = map blank_confidence (events (ClassifierApp.main sin presses2 sigint))
   /\ motion (events (ClassifierApp.main sin presses1 sigint))
      = motion (events (ClassifierApp.main sin presses2 sigint))
   /\ outcome (ClassifierApp.main sin presses1 sigint)
      = outcome (ClassifierApp.main sin presses2 sigint)).
Proof.
  intros H. split; [split; [|split]|split; [|split]].
  - rewrite classifier_cycle_unfold. cbn [events fst]. now rewrite motion_app.
  - apply same_but_confidence_motion. now apply classifier_cycle_same.
  - now apply classifier_cycle_same.
  - now apply classifier_main_same.
  - apply same_but_confidence_motion. now apply classifier_main_same.
  - now apply classifier_main_same.
Qed.

Lemma confidence_is_informational_witness :
  map ClassifierApp.label_of
      [ClassifierApp.Classified "dry" lit_0_5; ClassifierApp.Classified "glass" (of_int 1)]
  = map ClassifierApp.label_of
      [ClassifierApp.Classified "dry" (of_int 1); ClassifierApp.Classified "glass" lit_0_005]
  /\ motion (events (ClassifierApp.main RefSin.sin
       [ClassifierApp.Classified "dry" lit_0_5; ClassifierApp.Classified "glass" (of_int 1)]
       (Some 500%nat)))
     = motion (events (ClassifierApp.main RefSin.sin
       [ClassifierApp.Classified "dry" (of_int 1); ClassifierApp.Classified "glass" lit_0_005]
       (Some 500%nat))).
Proof.
  split; [reflexivity|].
  apply (confidence_is_informational RefSin.sin "dry" lit_0_5 (of_int 1)).
  reflexivity.
Defined.

(** * Shutdown *)

Lemma try_except_finally_raise (body : M unit) (e : exn) :
  outcome body = Raise e ->
  try_except_finally body = (events body ++ shutdown_trace e, Ok tt).
Proof.
  destruct body as [evs o]. cbn [outcome snd events fst]. intros ->.
  unfold try_except_finally, shutdown_trace. destruct e; reflexivity.
Qed.

Lemma interrupt_after_raises {A} (k : nat) (m : M A) :
  (exists e, outcome m = Raise e) ->
  exists e, outcome (interrupt_after k m) = Raise e.
Proof.
  intros [e He]. unfold interrupt_after.
  destruct (Nat.ltb k (List.length (events m)));
    [exists KeyboardInterrupt; reflexivity | exists e; exact He].
Qed.

Lemma filter_nil_firstn {A} (p : A -> bool) (k : nat) (l : list A) :
  filter p l = [] -> filter p (firstn k l) = [].
Proof.
  revert k. induction l as [|x l IH]; intros [|k]; cbn [firstn filter]; auto.
  destruct (p x); [discriminate|]. auto.
Qed.

Lemma interrupt_after_no_release {A} (k : nat) (m : M A) :
  filter is_release (events m) = [] ->
  filter is_release (events (interrupt_after k m)) = [].
Proof.
  intros H. unfold interrupt_after.
  destruct (Nat.ltb k (List.length (events m))); [|exact H].
  now apply filter_nil_firstn.
Qed.

Lemma no_release_bind {A B} (m : M A) (k : A -> M B) :
  filter is_release (events m) = [] ->
  (forall a, filter is_release (events (k a)) = []) ->
  filter is_release (events (bind m k)) = [].
Proof.
  intros Hm Hk. rewrite events_bind, filter_app, Hm.
  destruct (outcome m); [apply Hk | reflexivity].
Qed.

Lemma no_release_sweep (sin : float -> float) (srv : servo) (a b steps : Z)
      (delay : float) :
  filter is_release (events (sine_sweep sin srv a b steps delay)) = [].
Proof.
  unfold sine_sweep. induction (range (steps + 1)) as [|i l IH]; [reflexivity|].
  cbn [for_each]. apply no_release_bind; [|intros _; exact IH].
  unfold int_truediv. destruct (steps =? 0); reflexivity.
Qed.

Ltac no_release :=
  repeat match goal with
  | |- filter is_release (events (bind _ _)) = [] =>
      apply no_release_bind; [|intros ?]
  | |- filter is_release (events (sine_sweep _ _ _ _ _ _)) = [] =>
      apply no_release_sweep
  | |- filter is_release (events (print _)) = [] => reflexivity
  | |- filter is_release (events (sleep _)) = [] => reflexivity
  end.

Lemma classifier_trigger_no_release (sin : float -> float) (waste_type : string) :
  filter is_release (events (ClassifierApp.trigger_actuator sin waste_type)) = [].
Proof.
  unfold ClassifierApp.trigger_actuator, ClassifierApp.run_deposit_sequence.
  apply no_release_bind; [reflexivity|intros _].
  destruct (String.eqb (lower waste_type) "wet");
    [|destruct (String.eqb (lower waste_type) "dry");
      [|destruct (String.eqb (lower waste_type) "mixed")]];
    no_release.
Qed.

Lemma gemini_trigger_no_release (sin : float -> float) (classification : string) :
  filter is_release (events (GeminiTriggerApp.trigger_actuator sin classification)) = [].
Proof.
  unfold GeminiTriggerApp.trigger_actuator, GeminiTriggerApp.run_pan_tilt_sequence,
    GeminiTriggerApp.run_drop_tilt_cycle.
  apply no_release_bind; [reflexivity|intros _].
  destruct (String.eqb classification "wet");
    [|destruct (String.eqb classification "dry");
      [|destruct (String.eqb classification "mixed")]];
    no_release.
Qed.

Lemma classifier_body_no_release (sin : float -> float)
      (presses : list ClassifierApp.classification) :
  filter is_release (events (ClassifierApp.main_body sin presses)) = [].
Proof.
  unfold ClassifierApp.main_body.
  apply no_release_bind; [reflexivity|intros _].
  apply no_release_bind; [reflexivity|intros _].
  induction presses as [|c rest IH]; [reflexivity|].
  cbn [ClassifierApp.main_loop].
  apply no_release_bind; [reflexivity|intros _].
  apply no_release_bind; [|intros _; exact IH].
  destruct c as [l x|w]; [|reflexivity].
  rewrite classifier_cycle_unfold. cbn [events fst app filter is_release].
  apply classifier_trigger_no_release.
Qed.

Lemma gemini_body_no_release (sin : float -> float)
      (triggers : list GeminiTriggerApp.trigger) :
  filter is_release (events (GeminiTriggerApp.main_body sin triggers)) = [].
Proof.
  unfold GeminiTriggerApp.main_body.
  apply no_release_bind; [reflexivity|intros _].
  induction triggers as [|t rest IH]; [reflexivity|].
  cbn [GeminiTriggerApp.main_loop].
  apply no_release_bind; [reflexivity|intros _].
  apply no_release_bind; [|intros _; exact IH].
  destruct t as [w|l]; [reflexivity|].
  rewrite gemini_cycle_unfold. cbn [events fst app filter is_release].
  now rewrite filter_app, gemini_trigger_no_release.
Qed.

(** The body of the main loop never returns: it ends by raising. *)
Lemma classifier_body_raises (sin : float -> float)
      (presses : list ClassifierApp.classification) :
  exists e, outcome (ClassifierApp.main_body sin presses) = Raise e.
Proof.
  unfold ClassifierApp.main_body, print, emit. rewrite !outcome_bind.
  cbn [outcome snd].
  induction presses as [|c rest IH]; [eexists; reflexivity|].
  cbn [ClassifierApp.main_loop]. unfold input, emit.
  rewrite !outcome_bind. cbn [outcome snd].
  destruct (outcome (ClassifierApp.cycle sin c)) as [[]|e];
    [exact IH | exists e; reflexivity].
Qed.

Lemma gemini_body_raises (sin : float -> float)
      (triggers : list GeminiTriggerApp.trigger) :
  exists e, outcome (GeminiTriggerApp.main_body sin triggers) = Raise e.
Proof.
  unfold GeminiTriggerApp.main_body, print, emit. rewrite !outcome_bind.
  cbn [outcome snd].
  induction triggers as [|t rest IH]; [eexists; reflexivity|].
  cbn [GeminiTriggerApp.main_loop]. unfold input, emit.
  rewrite !outcome_bind. cbn [outcome snd].
  destruct (outcome (GeminiTriggerApp.cycle sin t)) as [[]|e];
    [exact IH | exists e; reflexivity].
Qed.

Lemma value_at_detach_skip (srv : servo) (hw : hardware) (pre post : list event) :
  filter is_release pre = [] ->
  value_at_detach srv hw (pre ++ post) = value_at_detach srv (replay hw pre) post.
Proof.
  revert hw. induction pre as [|e pre IH]; intros hw H; [reflexivity|].
  cbn [filter] in H. cbn [app value_at_detach].
  destruct (is_release e) eqn:E; [discriminate|].
  replace (is_detach srv e) with false
    by (destruct e as [| s | | | |], srv; try destruct s; try reflexivity; discriminate).
  rewrite IH by assumption. reflexivity.
Qed.

(** What a guarded run comes to, whatever the body. *)
Lemma shutdown_generic (body : M unit) (hw : hardware) :
  (exists e, outcome body = Raise e) ->
  filter is_release (events body) = [] ->
  exists e,
    outcome body = Raise e
    /\ events (try_except_finally body) = events body ++ shutdown_trace e
    /\ outcome (try_except_finally body) = Ok tt
    /\ filter is_set_value (shutdown_trace e) = []
    /\ replay hw (events (try_except_finally body)) = hw_released
    /\ forall srv,
         value_at_detach srv hw (events (try_except_finally body))
         = Some (servo_value srv (replay hw (events body))).
Proof.
  intros [e He] Hrel. exists e.
  rewrite (try_except_finally_raise body e He). cbn [events outcome fst snd].
  split; [exact He|]. split; [reflexivity|]. split; [reflexivity|].
  split; [destruct e; reflexivity|]. split.
  - rewrite replay_app. destruct e; reflexivity.
  - intros srv. rewrite value_at_detach_skip by exact Hrel.
    destruct srv, e; reflexivity.
Qed.

(** C1, as stated, fails: Ctrl+C arrives while the dry program of
    [classifier_app.py] runs, just after the pan servo has reached 135
    degrees; the pan servo is detached holding the command of 135 degrees,
    not that of Neutral. *)
Lemma interrupt_leaves_pan_off_centre :
  value_at_detach servo_pan hw_boot
    (events (ClassifierApp.script RefSin.sin
               [ClassifierApp.Classified "dry" (of_int 1)] (Some 413%nat)))
  = Some (Some (deg_to_val ClassifierApp.DRY_POS))
  /\ deg_to_val ClassifierApp.DRY_POS <> neutral.
Proof.
  split; [vm_compute; reflexivity | vm_compute; discriminate].
Qed.

(** C1, amended.  Every run of either main loop ends by an exception (Ctrl+C
    at the prompt or in mid-program, or an error escaping a cycle).  The
    script then prints one line, stops the camera, detaches the tilt servo
    and then the pan servo, and returns: nothing stays attached.  It writes
    no servo value after the exception, so each servo is detached holding
    the value it had when the body stopped. *)
Theorem shutdown_detaches_without_recentring (sin : float -> float)
        (presses : list ClassifierApp.classification)
        (triggers : list GeminiTriggerApp.trigger)
        (sigint : option nat) (hw : hardware) :
  (exists e,
     outcome (ClassifierApp.guarded_body sin presses sigint) = Raise e
     /\ events (ClassifierApp.main sin presses sigint)
        = events (ClassifierApp.guarded_body sin presses sigint) ++ shutdown_trace e
     /\ outcome (ClassifierApp.main sin presses sigint) = Ok tt
     /\ filter is_set_value (shutdown_trace e) = []
     /\ replay hw (events (ClassifierApp.main sin presses sigint)) = hw_released
     /\ forall srv,
          value_at_detach srv hw (events (ClassifierApp.main sin presses sigint))
          = Some (servo_value srv
                    (replay hw (events (ClassifierApp.guarded_body sin presses sigint)))))
  /\
  (exists e,
     outcome (GeminiTriggerApp.guarded_body sin triggers sigint) = Raise e
     /\ events (GeminiTriggerApp.main sin triggers sigint)
        = events (GeminiTriggerApp.guarded_body sin triggers sigint) ++ shutdown_trace e
     /\ outcome (GeminiTriggerApp.main sin triggers sigint) = Ok tt
     /\ filter is_set_value (shutdown_trace e) = []
     /\ replay hw (events (GeminiTriggerApp.main sin triggers sigint)) = hw_released
     /\ forall srv,
          value_at_detach srv hw (events (GeminiTriggerApp.main sin triggers sigint))
          = Some (servo_value srv
                    (replay hw (events (GeminiTriggerApp.guarded_body sin triggers sigint))))).
Proof.
  split.
  - unfold ClassifierApp.main. apply shutdown_generic;
      unfold ClassifierApp.guarded_body; destruct sigint as [k|].
    + apply interrupt_after_raises, classifier_body_raises.
    + apply classifier_body_raises.
    + apply interrupt_after_no_release, classifier_body_no_release.
    + apply classifier_body_no_release.
  - unfold GeminiTriggerApp.main. apply shutdown_generic;
      unfold GeminiTriggerApp.guarded_body; destruct sigint as [k|].
    + apply interrupt_after_raises, gemini_body_raises.
    + apply gemini_body_raises.
    + apply interrupt_after_no_release, gemini_body_no_release.
    + apply gemini_body_no_release.
Qed.

(** * The angle-to-command mapping *)



(** * The ends of a sweep *)

Lemma sweep_values (sin : float -> float) (srv : servo) (a b n : Z) (delay : float) :
  n <> 0 ->
  values_written srv (events (sine_sweep sin srv a b n delay))
  = map (step_value sin a b n) (range (n + 1)).
Proof.
  intros Hn. rewrite sine_sweep_run by assumption. apply sweep_trace_values.
Qed.

Lemma sweep_replay (sin : float -> float) (srv : servo) (a b n : Z) (delay : float)
      (hw : hardware) :
  1 <= n ->
  replay hw (events (sine_sweep sin srv a b n delay))
  = write_servo srv (Some (step_value sin a b n n)) hw.
Proof.
  intros Hn. rewrite sine_sweep_run by lia. apply replay_sweep_trace. lia.
Qed.

Lemma servo_value_write (srv : servo) (v : option float) (hw : hardware) :
  servo_value srv (write_servo srv v hw) = v.
Proof. destruct srv; reflexivity. Qed.

(** C6, as stated, fails: a sweep of the tilt servo from 2 to 135 degrees
    ends on a command that is not the command of 135 degrees. *)
Lemma sweep_end_misses_target :
  servo_value servo_tilt
    (replay hw_boot
       (events (sine_sweep RefSin.sin servo_tilt 2 135 default_steps default_delay)))
  <> Some (deg_to_val 135).
Proof.
  rewrite sweep_replay, servo_value_write by (unfold default_steps; lia).
  rewrite (step_value_last _ refsin_exact_at_quarter_turns)
    by (unfold default_steps; lia).
  vm_compute. discriminate.
Qed.

(** C6, amended.  Let [math.sin] return exactly 1.0 and -1.0 at the binary64
    quarter turns, the step count [n] be between 1 and [2^53], and the angles
    be integers of [[0, 180]].  Then the eased fraction is 0.0 at step 0 and
    1.0 at step [n]; the first commanded value is the command of the start
    angle; the last one, which the servo holds after the sweep, is
    [start_val + (end_val - start_val)] evaluated in binary64.  That is the
    command of the end angle whenever the sweep starts or ends at 90 degrees,
    as every sweep of the scripts does. *)
Theorem sweep_endpoints (sin : float -> float) (srv : servo) (a b n : Z)
        (delay : float) (hw : hardware) :
  sin_exact_at_quarter_turns sin ->
  1 <= n <= 2 ^ 53 -> 0 <= a <= 180 -> 0 <= b <= 180 ->
  eased_fraction sin (of_int 0 / of_int n)%b64 = S754_zero false
  /\ eased_fraction sin (of_int n / of_int n)%b64 = of_int 1
  /\ hd_error (values_written srv (events (sine_sweep sin srv a b n delay)))
     = Some (deg_to_val a)
  /\ servo_value srv (replay hw (events (sine_sweep sin srv a b n delay)))
     = Some (deg_to_val a + (deg_to_val b - deg_to_val a))%b64
  /\ (a = CENTER_POS \/ b = CENTER_POS ->
      servo_value srv (replay hw (events (sine_sweep sin srv a b n delay)))
      = Some (deg_to_val b)).
Proof.
  intros Hsin Hn Ha Hb.
  split; [rewrite truediv_first by assumption; now apply eased_fraction_first|].
  split; [rewrite truediv_last by assumption; now apply eased_fraction_last|].
  split.
  - rewrite sweep_values by lia.
    destruct (range_pos_head (n + 1)) as [tl ->]; [lia|].
    cbn [map hd_error]. f_equal. now apply step_value_first.
  - rewrite sweep_replay, servo_value_write by lia.
    split; [f_equal; now apply step_value_last|].
    intros [->| ->]; f_equal.
    + now apply step_value_last_from_neutral.
    + now apply step_value_last_to_neutral.
Qed.

Lemma sweep_endpoints_witness :
  sin_exact_at_quarter_turns RefSin.sin
  /\ 1 <= 200 <= 2 ^ 53 /\ 0 <= 90 <= 180 /\ 0 <= 45 <= 180
  /\ hd_error (values_written servo_pan
                 (events (sine_sweep RefSin.sin servo_pan 90 45 200 lit_0_005)))
     = Some (deg_to_val 90).
Proof.
  split; [exact refsin_exact_at_quarter_turns|].
  split; [lia|]. split; [lia|]. split; [lia|].
  apply (sweep_endpoints RefSin.sin servo_pan 90 45 200 lit_0_005 hw_boot
           refsin_exact_at_quarter_turns); lia.
Defined.

(** * Round trips *)

Lemma round_trip_run (sin : float -> float) (srv : servo) (a b n : Z)
      (delay : float) (hw : hardware) :
  1 <= n ->
  outcome (sine_sweep sin srv a b n delay ;; sine_sweep sin srv b a n delay) = Ok tt
  /\ servo_value srv
       (replay hw (events (sine_sweep sin srv a b n delay ;;
                           sine_sweep sin srv b a n delay)))
     = Some (step_value sin b a n n).
Proof.
  intros Hn. rewrite !sine_sweep_run by lia. rewrite bind_ok.
  cbn [events outcome fst snd]. split; [reflexivity|].
  rewrite replay_app, !replay_sweep_trace by lia.
  apply servo_value_write.
Qed.

(** C7, as stated, fails: the pan servo holds the command of 93 degrees,
    sweeps to 2 degrees and back, and ends on another command. *)
Lemma round_trip_misses_start :
  servo_value servo_pan
    (replay (write_servo servo_pan (Some (deg_to_val 93)) hw_boot)
       (events (sine_sweep RefSin.sin servo_pan 93 2 default_steps default_delay ;;
                sine_sweep RefSin.sin servo_pan 2 93 default_steps default_delay)))
  <> Some (deg_to_val 93).
Proof.
  assert (Hn : 1 <= default_steps) by (unfold default_steps; lia).
  rewrite (proj2 (round_trip_run RefSin.sin servo_pan 93 2 default_steps
                    default_delay _ Hn)).
  rewrite (step_value_last _ refsin_exact_at_quarter_turns)
    by (unfold default_steps; lia).
  vm_compute. discriminate.
Qed.

(** C7, amended.  Under the conditions of C6, a sweep from [a] to [b]
    followed by the sweep back leaves the servo on
    [b_val + (a_val - b_val)] evaluated in binary64; that is the command of
    [a], the value before the first sweep, whenever [a] or [b] is 90 degrees,
    as in every deposit program. *)
Theorem round_trip_through_neutral (sin : float -> float) (srv : servo) (a b n : Z)
        (delay : float) (hw : hardware) :
  sin_exact_at_quarter_turns sin ->
  1 <= n <= 2 ^ 53 -> 0 <= a <= 180 -> 0 <= b <= 180 ->
  servo_value srv hw = Some (deg_to_val a) ->
  let run := sine_sweep sin srv a b n delay ;; sine_sweep sin srv b a n delay in
  outcome run = Ok tt
  /\ servo_value srv (replay hw (events run))
     = Some (deg_to_val b + (deg_to_val a - deg_to_val b))%b64
  /\ (a = CENTER_POS \/ b = CENTER_POS ->
      servo_value srv (replay hw (events run)) = servo_value srv hw).
Proof.
  intros Hsin Hn Ha Hb Hstart. cbv zeta.
  destruct (round_trip_run sin srv a b n delay hw) as [Hok Hv]; [lia|].
  split; [exact Hok|]. rewrite Hv, Hstart.
  split; [f_equal; now apply step_value_last|].
  intros [->| ->]; f_equal.
  - now apply step_value_last_to_neutral.
  - now apply step_value_last_from_neutral.
Qed.

Lemma round_trip_through_neutral_witness :
  sin_exact_at_quarter_turns RefSin.sin
  /\ 1 <= 200 <= 2 ^ 53 /\ 0 <= 90 <= 180 /\ 0 <= 135 <= 180
  /\ servo_value servo_pan (write_servo servo_pan (Some (deg_to_val 90)) hw_boot)
     = Some (deg_to_val 90)
  /\ outcome (sine_sweep RefSin.sin servo_pan 90 135 200 lit_0_005 ;;
              sine_sweep RefSin.sin servo_pan 135 90 200 lit_0_005) = Ok tt.
Proof.
  split; [exact refsin_exact_at_quarter_turns|].
  split; [lia|]. split; [lia|]. split; [lia|]. split; [reflexivity|].
  apply (round_trip_through_neutral RefSin.sin servo_pan 90 135 200 lit_0_005
           (write_servo servo_pan (Some (deg_to_val 90)) hw_boot)
           refsin_exact_at_quarter_turns); (lia || reflexivity).
Defined.

(** * The range of the driver *)

(** C9, as stated, fails in its parenthesis: the last value of a sweep from
    2 to 135 degrees is above the command of 135 degrees. *)
Lemma sweep_value_beyond_end :
  exists v,
    In v (values_written servo_tilt
            (events (sine_sweep RefSin.sin servo_tilt 2 135
                                default_steps default_delay)))
    /\ fbetween (deg_to_val 2) (deg_to_val 135) v = false.
Proof.
  exists (step_value RefSin.sin 2 135 default_steps default_steps). split.
  - rewrite sweep_values by discriminate.
    apply in_map, range_spec. unfold default_steps. lia.
  - rewrite (step_value_last _ refsin_exact_at_quarter_turns)
      by (unfold default_steps; lia).
    vm_compute. reflexivity.
Qed.

(** C9, amended.  Let [math.sin] return valid floats of [[-1, 1]] at finite
    arguments.  For integer angles of [[0, 180]] and a step count of at most
    [2^53], every value that a sweep commands is within [[-1.0, 1.0]]: the
    driver is never handed a value outside its range.  So is, at every step,
    the interpolation between any two valid values of [[-1.0, 1.0]].  (The
    value need not lie between the commands of the two angles.) *)
Theorem sweep_commands_in_driver_range (sin : float -> float) (srv : servo)
        (a b steps : Z) (delay : float) :
  sin_in_unit_range sin ->
  0 <= a <= 180 -> 0 <= b <= 180 -> steps <= 2 ^ 53 ->
  Forall (fun v => in_unit_range v = true)
         (values_written srv (events (sine_sweep sin srv a b steps delay)))
  /\ (forall i, 1 <= steps -> 0 <= i <= steps ->
                in_unit_range (step_value sin a b steps i) = true)
  /\ (forall start_val end_val i,
        1 <= steps -> 0 <= i <= steps ->
        fin start_val = true -> fin end_val = true ->
        in_unit_range start_val = true -> in_unit_range end_val = true ->
        in_unit_range (current_val sin start_val (end_val - start_val)%b64
                                   (of_int i / of_int steps)%b64) = true).
Proof.
  intros Hsin Ha Hb Hsteps.
  assert (Hgen : forall start_val end_val i,
             1 <= steps -> 0 <= i <= steps ->
             fin start_val = true -> fin end_val = true ->
             in_unit_range start_val = true -> in_unit_range end_val = true ->
             in_unit_range (current_val sin start_val (end_val - start_val)%b64
                                        (of_int i / of_int steps)%b64) = true).
  { intros start_val end_val i Hs Hi Hfa Hfb Hra Hrb.
    destruct (truediv_range i steps) as (Hft & Hst & Hmt); [lia|lia|].
    now apply current_val_in_range. }
  assert (Hstep : forall i, 1 <= steps -> 0 <= i <= steps ->
                            in_unit_range (step_value sin a b steps i) = true).
  { intros i Hs Hi. unfold step_value.
    destruct (deg_to_val_valid a Ha) as [Hfa Hra].
    destruct (deg_to_val_valid b Hb) as [Hfb Hrb].
    now apply Hgen. }
  split; [|split; [exact Hstep|exact Hgen]].
  destruct (Z.eq_dec steps 0) as [->|Hs].
  - rewrite sine_sweep_zero_steps. constructor.
  - rewrite sweep_values by assumption.
    apply Forall_forall. intros v Hv. apply in_map_iff in Hv as (i & <- & Hi).
    apply range_spec in Hi. apply Hstep; lia.
Qed.

Lemma sweep_commands_in_driver_range_witness :
  sin_in_unit_range RefSin.sin /\ 0 <= 2 <= 180 /\ 0 <= 135 <= 180
  /\ 200 <= 2 ^ 53
  /\ in_unit_range (step_value RefSin.sin 2 135 200 200) = true.
Proof.
  split; [exact refsin_in_unit_range|]. split; [lia|]. split; [lia|].
  split; [lia|].
  assert (H200 : 200 <= 2 ^ 53) by lia.
  refine (proj1 (proj2 (sweep_commands_in_driver_range
                          RefSin.sin servo_tilt 2 135 200 lit_0_005
                          refsin_in_unit_range _ _ H200)) 200 _ _); lia.
Defined.

(** * Deposit programs end where they began *)

Lemma replay_cons (hw : hardware) (e : event) (l : list event) :
  replay hw (e :: l) = replay (step hw e) l.
Proof. reflexivity. Qed.

Lemma replay_nil (hw : hardware) : replay hw [] = hw.
Proof. reflexivity. Qed.

Lemma default_steps_range : 1 <= default_steps <= 2 ^ 53.
Proof. unfold default_steps. lia. Qed.

Lemma for_each_events {A} (xs : list A) (f : A -> M unit) :
  (forall x, outcome (f x) = Ok tt) ->
  events (for_each xs f) = flat_map (fun x => events (f x)) xs
  /\ outcome (for_each xs f) = Ok tt.
Proof.
  intros Hok. induction xs as [|x xs [IHe IHo]]; [split; reflexivity|].
  cbn [for_each flat_map].
  rewrite events_bind, outcome_bind, Hok, IHe, IHo. split; reflexivity.
Qed.

Lemma replay_flat_map_invariant {A} (P : hardware -> Prop) (g : A -> list event)
      (xs : list A) (hw : hardware) :
  (forall x h, P h -> P (replay h (g x))) ->
  P hw -> P (replay hw (flat_map g xs)).
Proof.
  intros Hstep. revert hw. induction xs as [|x xs IH]; intros hw Hhw; [exact Hhw|].
  cbn [flat_map]. rewrite replay_app. apply IH, Hstep, Hhw.
Qed.

Section ReturnToNeutral.
Variable sin : float -> float.
Hypothesis sin_quarter : sin_exact_at_quarter_turns sin.

Ltac replay_program :=
  repeat first
    [ rewrite replay_app
    | rewrite replay_cons
    | rewrite replay_nil
    | rewrite replay_sweep_trace by (unfold default_steps; lia) ];
  cbn [step].

Ltac settle_neutral Hhw :=
  destruct Hhw as [Hhw_tilt Hhw_pan]; unfold at_neutral;
  rewrite ?(step_value_last_to_neutral sin sin_quarter)
    by (exact default_steps_range || assumption || (unfold CENTER_POS; lia));
  split; cbn; assumption || reflexivity.

Lemma classifier_run_deposit_sequence_neutral (target : Z) (hw : hardware) :
  0 <= target <= 180 -> at_neutral hw ->
  at_neutral (replay hw (events (ClassifierApp.run_deposit_sequence sin target))).
Proof.
  intros Ht Hhw. unfold ClassifierApp.run_deposit_sequence. run_program.
  replay_program. settle_neutral Hhw.
Qed.

Lemma gemini_run_drop_tilt_cycle_neutral (tilt_pos : Z) (hw : hardware) :
  0 <= tilt_pos <= 180 -> at_neutral hw ->
  at_neutral (replay hw (events (GeminiTriggerApp.run_drop_tilt_cycle
                                   sin tilt_pos CENTER_POS))).
Proof.
  intros Ht Hhw. unfold GeminiTriggerApp.run_drop_tilt_cycle. run_program.
  replay_program. settle_neutral Hhw.
Qed.

Lemma gemini_run_pan_tilt_sequence_neutral (pan_target tilt_target : Z)
      (hw : hardware) :
  0 <= pan_target <= 180 -> at_neutral hw ->
  at_neutral (replay hw (events (GeminiTriggerApp.run_pan_tilt_sequence
                                   sin pan_target tilt_target))).
Proof.
  intros Ht Hhw. unfold GeminiTriggerApp.run_pan_tilt_sequence. run_program.
  replay_program. settle_neutral Hhw.
Qed.

Lemma classifier_trigger_neutral (waste_type : string) (hw : hardware) :
  at_neutral hw ->
  at_neutral (replay hw (events (ClassifierApp.trigger_actuator sin waste_type))).
Proof.
  intros Hhw. unfold ClassifierApp.trigger_actuator.
  destruct (String.eqb (lower waste_type) "wet");
    [|destruct (String.eqb (lower waste_type) "dry");
      [|destruct (String.eqb (lower waste_type) "mixed")]];
    unfold ClassifierApp.run_deposit_sequence, ClassifierApp.WET_POS,
      ClassifierApp.DRY_POS; run_program; replay_program; settle_neutral Hhw.
Qed.

Lemma gemini_trigger_neutral (classification : string) (hw : hardware) :
  at_neutral hw ->
  at_neutral (replay hw (events (GeminiTriggerApp.trigger_actuator sin classification))).
Proof.
  intros Hhw. unfold GeminiTriggerApp.trigger_actuator.
  destruct (String.eqb classification "wet");
    [|destruct (String.eqb classification "dry");
      [|destruct (String.eqb classification "mixed")]];
    unfold GeminiTriggerApp.run_drop_tilt_cycle,
      GeminiTriggerApp.run_pan_tilt_sequence, GeminiTriggerApp.DRY_POS,
      GeminiTriggerApp.MIXED_HAZ_POS; run_program; replay_program;
    settle_neutral Hhw.
Qed.

End ReturnToNeutral.

(** C3. Let [math.sin] return exactly 1.0 and -1.0 at the binary64 quarter
    turns.  Started with both servos on the command of 90 degrees and run to
    completion, every deposit program -- the pan-tilt program of either
    script towards any integer angle of [[0, 180]], the tilt-only program, and
    hence any routing call -- leaves both servos on the command of 90
    degrees; so does any sequence of routing calls: no drift accumulates. *)
Theorem deposit_programs_return_to_neutral (sin : float -> float)
        (target tilt_target : Z) (labels : list string) (hw : hardware) :
  sin_exact_at_quarter_turns sin ->
  0 <= target <= 180 ->
  at_neutral hw ->
  at_neutral (replay hw (events (ClassifierApp.run_deposit_sequence sin target)))
  /\ at_neutral (replay hw (events (GeminiTriggerApp.run_drop_tilt_cycle
                                      sin target CENTER_POS)))
  /\ at_neutral (replay hw (events (GeminiTriggerApp.run_pan_tilt_sequence
                                      sin target tilt_target)))
  /\ (outcome (for_each labels (ClassifierApp.trigger_actuator sin)) = Ok tt
      /\ at_neutral (replay hw (events (for_each labels
                                          (ClassifierApp.trigger_actuator sin)))))
  /\ (outcome (for_each labels (GeminiTriggerApp.trigger_actuator sin)) = Ok tt
      /\ at_neutral (replay hw (events (for_each labels
                                          (GeminiTriggerApp.trigger_actuator sin))))).
Proof.
  intros Hsin Ht Hhw.
  split; [now apply classifier_run_deposit_sequence_neutral|].
  split; [now apply gemini_run_drop_tilt_cycle_neutral|].
  split; [now apply gemini_run_pan_tilt_sequence_neutral|].
  split.
  - destruct (for_each_events labels (ClassifierApp.trigger_actuator sin)
                (classifier_trigger_ok sin)) as [-> ->].
    split; [reflexivity|].
    apply replay_flat_map_invariant; [|exact Hhw].
    intros l h. now apply classifier_trigger_neutral.
  - destruct (for_each_events labels (GeminiTriggerApp.trigger_actuator sin)
                (gemini_trigger_ok sin)) as [-> ->].
    split; [reflexivity|].
    apply replay_flat_map_invariant; [|exact Hhw].
    intros l h. now apply gemini_trigger_neutral.
Qed.

Lemma deposit_programs_return_to_neutral_witness :
  sin_exact_at_quarter_turns RefSin.sin
  /\ 0 <= 45 <= 180
  /\ at_neutral (replay hw_boot (events ClassifierApp.startup))
  /\ at_neutral
       (replay (replay hw_boot (events ClassifierApp.startup))
          (events (for_each ["dry"; "glass"; "wet"; "Mixed"]%string
                     (ClassifierApp.trigger_actuator RefSin.sin)))).
Proof.
  split; [exact refsin_exact_at_quarter_turns|]. split; [lia|].
  assert (Hboot : at_neutral (replay hw_boot (events ClassifierApp.startup)))
    by (split; reflexivity).
  split; [exact Hboot|].
  exact (proj2 (proj1 (proj2 (proj2 (proj2
           (deposit_programs_return_to_neutral RefSin.sin 45 180
              ["dry"; "glass"; "wet"; "Mixed"]%string
              (replay hw_boot (events ClassifierApp.startup))
              refsin_exact_at_quarter_turns ltac:(lia) Hboot)))))).
Defined.

(** * Further properties of the sweep *)

Lemma range_length (n : Z) : List.length (range n) = Z.to_nat n.
Proof. unfold range. now rewrite length_map, length_seq. Qed.

Lemma map_constant {A B} (f : A -> B) (c : B) (l : list A) :
  (forall x, In x l -> f x = c) -> map f l = repeat c (List.length l).
Proof.
  induction l as [|x l IH]; intros H; [reflexivity|].
  cbn [map List.length repeat]. rewrite (H x) by now left.
  rewrite IH by (intros y Hy; apply H; now right). reflexivity.
Qed.

Lemma sweep_trace_sleeps (sin : float -> float) (srv : servo) (a b steps : Z)
      (delay : float) :
  filter is_sleep (sweep_trace sin srv a b steps delay)
  = repeat (Sleep delay) (Z.to_nat (steps + 1)).
Proof.
  unfold sweep_trace. rewrite <- range_length.
  induction (range (steps + 1)) as [|i l IH]; [reflexivity|].
  cbn [flat_map app filter is_sleep List.length repeat]. now rewrite IH.
Qed.

Lemma sweep_trace_length (sin : float -> float) (srv : servo) (a b steps : Z)
      (delay : float) :
  List.length (sweep_trace sin srv a b steps delay) = (2 * Z.to_nat (steps + 1))%nat.
Proof.
  unfold sweep_trace. rewrite <- range_length.
  induction (range (steps + 1)) as [|i l IH]; [reflexivity|].
  cbn [flat_map app List.length]. rewrite IH. lia.
Qed.

(** X1. A sweep asked for zero steps raises [ZeroDivisionError] at its first
    iteration, on [0 / 0], before any command or pause; asked for a negative
    number of steps it does nothing at all and returns normally.  In both
    cases the servo is left where it was: it is not taken to the end
    angle. *)
Theorem sweep_degenerate_step_counts (sin : float -> float) (srv : servo)
        (a b steps : Z) (delay : float) (hw : hardware) :
  steps <= 0 ->
  events (sine_sweep sin srv a b steps delay) = []
  /\ replay hw (events (sine_sweep sin srv a b steps delay)) = hw
  /\ outcome (sine_sweep sin srv a b steps delay)
     = if steps =? 0 then Raise ZeroDivisionError else Ok tt.
Proof.
  intros Hs. destruct (Z.eqb_spec steps 0) as [->|Hne].
  - rewrite sine_sweep_zero_steps. repeat split.
  - rewrite sine_sweep_negative_steps by lia. repeat split.
Qed.

Lemma sweep_degenerate_step_counts_witness :
  0 <= 0
  /\ outcome (sine_sweep RefSin.sin servo_pan 90 45 0 default_delay)
     = Raise ZeroDivisionError.
Proof.
  split; [lia|].
  exact (proj2 (proj2 (sweep_degenerate_step_counts
                         RefSin.sin servo_pan 90 45 0 default_delay hw_boot
                         ltac:(lia)))).
Defined.

(** X2. A sweep of [steps >= 1] steps runs to completion and issues exactly
    [steps + 1] commands, all to the servo it was given and none to the other
    one; each command is followed by one pause of [delay], and nothing else
    happens: no servo is detached and the camera is not stopped. *)
Theorem sweep_commands_one_servo (sin : float -> float) (srv srv' : servo)
        (a b steps : Z) (delay : float) :
  1 <= steps -> srv' <> srv ->
  let run := sine_sweep sin srv a b steps delay in
  outcome run = Ok tt
  /\ List.length (values_written srv (events run)) = Z.to_nat (steps + 1)
  /\ values_written srv' (events run) = []
  /\ filter is_sleep (events run) = repeat (Sleep delay) (Z.to_nat (steps + 1))
  /\ List.length (events run) = (2 * Z.to_nat (steps + 1))%nat
  /\ filter is_release (events run) = [].
Proof.
  intros Hs Hne run. subst run.
  rewrite sine_sweep_run by lia. cbn [events outcome fst snd].
  split; [reflexivity|]. split.
  - now rewrite sweep_trace_values, length_map, range_length.
  - split; [apply sweep_trace_other; congruence|].
    split; [apply sweep_trace_sleeps|].
    split; [apply sweep_trace_length|].
    pose proof (no_release_sweep sin srv a b steps delay) as H.
    rewrite sine_sweep_run in H by lia. exact H.
Qed.

Lemma sweep_commands_one_servo_witness :
  1 <= 200 /\ servo_tilt <> servo_pan
  /\ List.length (values_written servo_pan
                    (events (sine_sweep RefSin.sin servo_pan 90 45 200 default_delay)))
     = 201%nat.
Proof.
  split; [lia|]. split; [discriminate|].
  exact (proj1 (proj2 (sweep_commands_one_servo
                         RefSin.sin servo_pan servo_tilt 90 45 200 default_delay
                         ltac:(lia) ltac:(discriminate)))).
Defined.

(** A valid float minus itself is [+0.0]. *)
Lemma fsub_diag (x : float) : fin x = true -> (x - x)%b64 = S754_zero false.
Proof.
  intros Hx. destruct x as [s|s| |s m e]; try discriminate.
  - destruct s; reflexivity.
  - unfold fsub. cbn [SFsub]. rewrite Z.min_id, Z.sub_diag. reflexivity.
Qed.

(** [+0.0] times a valid non-negative float is [+0.0]. *)
Lemma fmul_zero_l (f : float) :
  fin f = true -> has_sign false f -> (S754_zero false * f)%b64 = S754_zero false.
Proof.
  intros Hf Hs. destruct f as [s|s| |s m e]; try discriminate;
    cbn [has_sign] in Hs; subst s; reflexivity.
Qed.

Lemma fadd_zero_r (x : float) :
  fin x = true -> x <> S754_zero true -> (x + S754_zero false)%b64 = x.
Proof.
  intros Hx Hnz. destruct x as [s|s| |s m e]; try discriminate.
  - destruct s; [contradiction|reflexivity].
  - reflexivity.
Qed.

(** X3. A sweep from an angle to itself holds still: for an integer angle of
    [[0, 180]], a step count between 1 and [2^53] and a [math.sin] that
    returns floats of [[-1, 1]], each of the [steps + 1] commands is exactly
    the command of that angle. *)
Theorem sweep_in_place_holds (sin : float -> float) (srv : servo)
        (a steps : Z) (delay : float) :
  sin_in_unit_range sin ->
  0 <= a <= 180 -> 1 <= steps <= 2 ^ 53 ->
  values_written srv (events (sine_sweep sin srv a a steps delay))
  = repeat (deg_to_val a) (Z.to_nat (steps + 1)).
Proof.
  intros Hsin Ha Hs.
  rewrite sweep_values by lia. rewrite <- range_length.
  apply map_constant. intros i Hi. apply range_spec in Hi.
  unfold step_value, current_val.
  destruct (deg_to_val_valid a Ha) as [Hfa _].
  rewrite fsub_diag by exact Hfa.
  destruct (truediv_range i steps) as (Hft & Hst & Hmt); [lia|lia|].
  destruct (eased_fraction_range sin Hsin _ Hft Hst Hmt) as (Hff & Hsf & _).
  rewrite fmul_zero_l by assumption.
  apply fadd_zero_r; [exact Hfa|]. apply deg_to_val_not_negzero, Ha.
Qed.

Lemma sweep_in_place_holds_witness :
  sin_in_unit_range RefSin.sin /\ 0 <= 45 <= 180 /\ 1 <= 200 <= 2 ^ 53
  /\ values_written servo_pan
       (events (sine_sweep RefSin.sin servo_pan 45 45 200 default_delay))
     = repeat (deg_to_val 45) 201.
Proof.
  split; [exact refsin_in_unit_range|]. split; [lia|]. split; [lia|].
  exact (sweep_in_place_holds RefSin.sin servo_pan 45 200 default_delay
           refsin_in_unit_range ltac:(lia) ltac:(lia)).
Defined.

(** ** A sweep cut short *)

Lemma replay_firstn_writes {A} (hw : hardware) (srv : servo) (g : A -> float)
      (delay : float) (l : list A) (k : nat) (d : A) :
  (1 <= k <= 2 * List.length l)%nat ->
  servo_value srv
    (replay hw (firstn k (flat_map (fun i => [SetValue srv (g i); Sleep delay]) l)))
  = Some (g (nth ((k - 1) / 2) l d)).
Proof.
  revert hw k. induction l as [|i l IH]; intros hw k Hk; cbn [List.length] in Hk;
    [lia|].
  cbn [flat_map app].
  destruct k as [|[|[|k]]]; [lia| | |].
  - cbn [firstn]. rewrite replay_cons, replay_nil. cbn [step].
    now rewrite servo_value_write.
  - cbn [firstn]. rewrite !replay_cons, replay_nil. cbn [step].
    now rewrite servo_value_write.
  - rewrite !firstn_cons, !replay_cons. cbn [step].
    rewrite IH by lia.
    replace ((S (S (S k)) - 1) / 2)%nat with (S ((S k - 1) / 2)).
    + reflexivity.
    + replace (S (S (S k)) - 1)%nat with ((S k - 1) + 1 * 2)%nat by lia.
      rewrite Nat.div_add by lia. lia.
Qed.

Lemma range_nth (n : Z) (j : nat) :
  (j < Z.to_nat n)%nat -> nth j (range n) 0 = Z.of_nat j.
Proof.
  intros Hj. unfold range.
  change 0 with (Z.of_nat 0). rewrite map_nth, seq_nth by exact Hj. reflexivity.
Qed.

(** X4. A sweep cut short leaves the servo on the last command it issued.
    If Ctrl+C arrives after [k] of the events of a sweep (commands and pauses
    alternate, so after [(k + 1) / 2] commands), the sweep raises
    [KeyboardInterrupt] and the servo holds the value of step
    [(k - 1) / 2]; nothing takes it further or back. *)
Theorem interrupted_sweep_holds_last_step (sin : float -> float) (srv : servo)
        (a b steps : Z) (delay : float) (hw : hardware) (k : nat) :
  1 <= steps ->
  (1 <= k < 2 * Z.to_nat (steps + 1))%nat ->
  let run := interrupt_after k (sine_sweep sin srv a b steps delay) in
  outcome run = Raise KeyboardInterrupt
  /\ servo_value srv (replay hw (events run))
     = Some (step_value sin a b steps (Z.of_nat ((k - 1) / 2))).
Proof.
  intros Hs Hk run. subst run. unfold interrupt_after.
  rewrite sine_sweep_run by lia. cbn [events outcome fst snd].
  rewrite sweep_trace_length.
  destruct (Nat.ltb_spec k (2 * Z.to_nat (steps + 1))) as [_|Hge]; [|lia].
  cbn [events outcome fst snd]. split; [reflexivity|].
  unfold sweep_trace.
  rewrite (replay_firstn_writes hw srv (step_value sin a b steps) delay _ k 0)
    by (rewrite range_length; lia).
  rewrite range_nth; [reflexivity|].
  assert (((k - 1) / 2 < Z.to_nat (steps + 1))%nat); [|assumption].
  apply Nat.Div0.div_lt_upper_bound. lia.
Qed.

Lemma interrupted_sweep_holds_last_step_witness :
  1 <= 200 /\ (1 <= 11 < 2 * Z.to_nat (200 + 1))%nat
  /\ servo_value servo_pan
       (replay hw_boot
          (events (interrupt_after 11
                     (sine_sweep RefSin.sin servo_pan 90 135 200 default_delay))))
     = Some (step_value RefSin.sin 90 135 200 (Z.of_nat ((11 - 1) / 2))).
Proof.
  assert (H1 : 1 <= 200) by lia.
  assert (H2 : (1 <= 11 < 2 * Z.to_nat (200 + 1))%nat) by (cbn; lia).
  split; [exact H1|]. split; [exact H2|].
  exact (proj2 (interrupted_sweep_holds_last_step RefSin.sin servo_pan 90 135 200
                  default_delay hw_boot 11 H1 H2)).
Defined.

(** ** Half time *)

Lemma truediv_half (n : Z) :
  1 <= n -> 2 * n <= 2 ^ 53 -> (of_int n / of_int (2 * n))%b64 = lit_0_5.
Proof.
  intros Hn H2n.
  destruct (of_int_exact n ltac:(lia)) as (m & e & -> & Hr & Hv & Hm & He).
  destruct (of_int_exact (2 * n) ltac:(lia)) as (m' & e' & -> & Hr' & Hv' & Hm' & He').
  assert (Hrep : repr (Zpos m) (e + 1)).
  { destruct Hr as [[? [? ?]] ?]. unfold repr, canon. lia. }
  assert (Hb : bval (Zpos m') e' = bval (Zpos m) (e + 1)).
  { rewrite Hv'. unfold bval in *.
    replace (e + 1 + value_scale) with (1 + (e + value_scale)) by lia.
    rewrite Z.pow_add_r by (unfold value_scale; lia). change (2 ^ 1) with 2. lia. }
  destruct (repr_unique _ _ _ _ Hr' Hrep Hb) as [Hmm ->].
  apply Pos2Z.inj in Hmm. subst m'.
  unfold fdiv. cbn [SFdiv]. unfold SFdiv_core_binary.
  replace (Zdigits2 (Zpos m) + e - (Zdigits2 (Zpos m) + (e + 1))) with (-1) by lia.
  replace (e - (e + 1)) with (-1) by lia.
  change (Z.min (fexp prec emax (-1)) (-1)) with (-54).
  change (-1 - -54) with 53.
  rewrite Z.shiftl_mul_pow2 by lia.
  rewrite div_eucl_div_mod.
  rewrite (Z.mul_comm (Zpos m)), Z.div_mul, Z.mod_mul by lia.
  rewrite new_location_zero. reflexivity.
Qed.

Section HalfTime.
Variable sin : float -> float.
Hypothesis sin_at_zero : sin_zero sin.

Lemma eased_fraction_half : eased_fraction sin lit_0_5 = lit_0_5.
Proof.
  unfold eased_fraction.
  replace (pi * (lit_0_5 - lit_0_5))%b64 with (S754_zero false) by reflexivity.
  rewrite sin_at_zero. reflexivity.
Qed.

End HalfTime.

(** X5. The easing is centred.  With an even number [2 n] of steps and a
    [math.sin] that returns 0.0 at 0.0, step [n] is at [t = 0.5] exactly, the
    eased fraction there is exactly 0.5, and the value commanded is
    [start_val + delta_val * 0.5]: at half time the servo is half way. *)
Theorem sweep_half_time (sin : float -> float) (a b n : Z) :
  sin_zero sin ->
  1 <= n -> 2 * n <= 2 ^ 53 ->
  (of_int n / of_int (2 * n))%b64 = lit_0_5
  /\ eased_fraction sin (of_int n / of_int (2 * n))%b64 = lit_0_5
  /\ step_value sin a b (2 * n) n
     = (deg_to_val a + (deg_to_val b - deg_to_val a) * lit_0_5)%b64.
Proof.
  intros Hsin Hn H2n.
  pose proof (truediv_half n Hn H2n) as Ht.
  split; [exact Ht|]. split.
  - rewrite Ht. now apply eased_fraction_half.
  - unfold step_value, current_val. rewrite Ht.
    now rewrite eased_fraction_half.
Qed.

Lemma sweep_half_time_witness :
  sin_zero RefSin.sin /\ 1 <= 100 /\ 2 * 100 <= 2 ^ 53
  /\ eased_fraction RefSin.sin (of_int 100 / of_int (2 * 100))%b64 = lit_0_5.
Proof.
  assert (H0 : sin_zero RefSin.sin) by reflexivity.
  assert (H1 : 1 <= 100) by lia.
  assert (H2 : 2 * 100 <= 2 ^ 53) by lia.
  split; [exact H0|]. split; [exact H1|]. split; [exact H2|].
  exact (proj1 (proj2 (sweep_half_time RefSin.sin 90 45 100 H0 H1 H2))).
Defined.

(** * Angles outside the dial *)

(** 1 is 128 times [2^-7]. *)
Lemma scale_split : 2 ^ value_scale = 128 * 2 ^ (value_scale - 7).
Proof.
  change 128 with (2 ^ 7). rewrite <- Z.pow_add_r by (unfold value_scale; lia).
  f_equal.
Qed.

Lemma bval_2p53 : bval (2 ^ 52) 1 = 2 ^ 53 * 2 ^ value_scale.
Proof.
  rewrite bval_pow2 by (unfold value_scale; lia).
  rewrite <- Z.pow_add_r by (unfold value_scale; lia). f_equal.
Qed.

Lemma bval_2p54 : bval (2 ^ 52) 2 = 2 ^ 54 * 2 ^ value_scale.
Proof.
  rewrite bval_pow2 by (unfold value_scale; lia).
  rewrite <- Z.pow_add_r by (unfold value_scale; lia). f_equal.
Qed.

(** Above 180 degrees the command is above 1. *)
Lemma deg_to_val_above (deg : Z) :
  180 < deg <= 2 ^ 53 ->
  fin (deg_to_val deg) = true /\ 2 ^ value_scale < fval (deg_to_val deg).
Proof.
  intros Hd.
  destruct (of_int_exact deg ltac:(lia)) as (m & e & Hof & Hr & Hv & Hm & He).
  destruct (of_int_exact 90 ltac:(lia)) as (m9 & e9 & Hof9 & Hr9 & Hv9 & Hm9 & He9).
  pose proof scale_split as HV.
  assert (HU : 0 < 2 ^ (value_scale - 7)) by (apply pow2_pos; unfold value_scale; lia).
  assert (Hlo : bval (2 ^ 52 + 2 ^ 44) (-51) = 257 * 2 ^ (value_scale - 7)).
  { unfold bval. replace (2 ^ 52 + 2 ^ 44) with (257 * 2 ^ 44) by lia.
    rewrite <- Z.mul_assoc, <- Z.pow_add_r by (unfold value_scale; lia).
    do 2 f_equal. }
  assert (Hlo2 : bval (2 ^ 52 + 2 ^ 45) (-52) = 129 * 2 ^ (value_scale - 7)).
  { unfold bval. replace (2 ^ 52 + 2 ^ 45) with (129 * 2 ^ 45) by lia.
    rewrite <- Z.mul_assoc, <- Z.pow_add_r by (unfold value_scale; lia).
    do 2 f_equal. }
  pose proof bval_2p53 as Hhi.
  unfold deg_to_val, fdiv, fsub. rewrite Hof, Hof9.
  destruct (SFdiv_bounds false false m m9 e e9
              (bval (2 ^ 52 + 2 ^ 44) (-51)) (2 ^ 52) 1) as (Hfq & Hsq & Hq).
  - destruct Hr as [[[_ ?] _] _]. lia.
  - destruct Hr9 as [[[_ ?] _] _]. lia.
  - lia.
  - lia.
  - right. exists (2 ^ 52 + 2 ^ 44), (-51). split; [unfold canon; lia|reflexivity].
  - unfold repr, canon. lia.
  - rewrite Hlo, Hhi, Hv, Hv9, HV.
    remember (2 ^ (value_scale - 7)) as U eqn:EU. nia.
  - remember (SFdiv prec emax (S754_finite false m e) (S754_finite false m9 e9)) as q.
    pose proof (fval_signed false q Hsq) as Hfv. cbv iota in Hfv.
    rewrite Hlo, Hhi in Hq.
    assert (Hone : fval (of_int 1) = 2 ^ value_scale).
    { rewrite of_int_1. cbn [fval]. apply bval_one. }
    destruct (SFsub_bounds_nonneg q (of_int 1)
                (bval (2 ^ 52 + 2 ^ 45) (-52)) (2 ^ 52) 1) as (Hfr & Hrlo & _).
    + exact Hfq.
    + reflexivity.
    + right. exists (2 ^ 52 + 2 ^ 45), (-52). split; [unfold canon; lia|reflexivity].
    + unfold repr, canon. lia.
    + rewrite Hlo2, Hhi, Hone, Hfv.
      remember (2 ^ (value_scale - 7)) as U eqn:EU.
      remember (2 ^ value_scale) as V eqn:EV. lia.
    + split; [exact Hfr|]. rewrite Hlo2 in Hrlo.
      remember (2 ^ (value_scale - 7)) as U eqn:EU.
      remember (2 ^ value_scale) as V eqn:EV. lia.
Qed.

(** Below 0 degrees the command is below -1. *)
Lemma deg_to_val_below (deg : Z) :
  - 2 ^ 53 <= deg < 0 ->
  fin (deg_to_val deg) = true /\ fval (deg_to_val deg) < - 2 ^ value_scale.
Proof.
  intros Hd.
  destruct (of_int_exact (- deg) ltac:(lia)) as (m & e & Hof & Hr & Hv & Hm & He).
  destruct (of_int_exact 90 ltac:(lia)) as (m9 & e9 & Hof9 & Hr9 & Hv9 & Hm9 & He9).
  pose proof scale_split as HV.
  assert (HU : 0 < 2 ^ (value_scale - 7)) by (apply pow2_pos; unfold value_scale; lia).
  assert (Hlo : bval (2 ^ 52) (-59) = 2 ^ (value_scale - 7)).
  { rewrite bval_pow2 by (unfold value_scale; lia). f_equal. }
  assert (Hlo2 : bval (2 ^ 52 + 2 ^ 45) (-52) = 129 * 2 ^ (value_scale - 7)).
  { unfold bval. replace (2 ^ 52 + 2 ^ 45) with (129 * 2 ^ 45) by lia.
    rewrite <- Z.mul_assoc, <- Z.pow_add_r by (unfold value_scale; lia).
    do 2 f_equal. }
  pose proof bval_2p53 as Hhi. pose proof bval_2p54 as Hhi2.
  unfold deg_to_val, fdiv, fsub.
  replace deg with (- - deg) by lia.
  rewrite of_int_opp by lia. rewrite Hof, Hof9. cbn [SFopp negb].
  destruct (SFdiv_bounds true false m m9 e e9
              (bval (2 ^ 52) (-59)) (2 ^ 52) 1) as (Hfq & Hsq & Hq).
  - destruct Hr as [[[_ ?] _] _]. lia.
  - destruct Hr9 as [[[_ ?] _] _]. lia.
  - lia.
  - lia.
  - right. exists (2 ^ 52), (-59). split; [unfold canon; lia|reflexivity].
  - unfold repr, canon. lia.
  - rewrite Hlo, Hhi, Hv, Hv9, HV.
    remember (2 ^ (value_scale - 7)) as U eqn:EU. nia.
  - remember (SFdiv prec emax (S754_finite true m e) (S754_finite false m9 e9)) as q.
    pose proof (fval_signed true q Hsq) as Hfv. cbv iota in Hfv.
    rewrite Hlo, Hhi in Hq.
    assert (Hone : fval (of_int 1) = 2 ^ value_scale).
    { rewrite of_int_1. cbn [fval]. apply bval_one. }
    destruct (exact_or_rounded_bounds_neg (SFsub prec emax q (of_int 1))
                (fval q - fval (of_int 1))
                (2 ^ 52 + 2 ^ 45) (-52) (2 ^ 52) 2) as (Hfr & Hrlo & _).
    + apply SFsub_form; [exact Hfq|reflexivity].
    + unfold canon; lia.
    + unfold repr, canon. lia.
    + rewrite Hlo2, Hhi2, Hone, Hfv.
      remember (2 ^ (value_scale - 7)) as U eqn:EU.
      remember (2 ^ value_scale) as V eqn:EV. lia.
    + split; [exact Hfr|]. rewrite Hlo2 in Hrlo.
      remember (2 ^ (value_scale - 7)) as U eqn:EU.
      remember (2 ^ value_scale) as V eqn:EV. lia.
Qed.

(** X6. [deg_to_val] does not clamp.  For every integer angle up to [2^53]
    in magnitude the result is a finite float, and it is within the range
    [[-1.0, 1.0]] that the servo driver accepts exactly when the angle is
    within [[0, 180]]: from 181 degrees on the command is above 1.0 and below
    0 degrees it is below -1.0. *)
Theorem deg_to_val_in_range_iff (deg : Z) :
  - 2 ^ 53 <= deg <= 2 ^ 53 ->
  fin (deg_to_val deg) = true
  /\ (in_unit_range (deg_to_val deg) = true <-> 0 <= deg <= 180)
  /\ (180 < deg -> fleb (deg_to_val deg) (of_int 1) = false)
  /\ (deg < 0 -> fleb (of_int (-1)) (deg_to_val deg) = false).
Proof.
  intros Hd.
  assert (HV : 0 < 2 ^ value_scale) by (apply pow2_pos; unfold value_scale; lia).
  destruct (Z.ltb_spec 180 deg) as [Hhi|Hle].
  - destruct (deg_to_val_above deg ltac:(lia)) as [Hf Hv].
    assert (Hout : in_unit_range (deg_to_val deg) = false).
    { destruct (in_unit_range (deg_to_val deg)) eqn:E; [|reflexivity].
      apply (in_unit_range_spec _ Hf) in E. rewrite fmag_abs in E. lia. }
    split; [exact Hf|]. split; [|split].
    + rewrite Hout. split; [discriminate|lia].
    + intros _. unfold in_unit_range in Hout.
      apply andb_false_iff in Hout as [Hout|Hout]; [|exact Hout].
      exfalso. revert Hout Hf Hv. rewrite of_int_m1. unfold fleb, SFleb.
      destruct (deg_to_val deg) as [s|s| |s m e]; cbn [fin fval SFcompare];
        try discriminate; try lia.
      destruct s; [|discriminate]. intros _ _ Hv.
      assert (0 <= bval (Zpos m) e)
        by (unfold bval; apply Z.mul_nonneg_nonneg; [lia|apply Z.pow_nonneg; lia]).
      lia.
    + lia.
  - destruct (Z.ltb_spec deg 0) as [Hlo|Hge].
    + destruct (deg_to_val_below deg ltac:(lia)) as [Hf Hv].
      assert (Hout : in_unit_range (deg_to_val deg) = false).
      { destruct (in_unit_range (deg_to_val deg)) eqn:E; [|reflexivity].
        apply (in_unit_range_spec _ Hf) in E. rewrite fmag_abs in E. lia. }
      split; [exact Hf|]. split; [|split].
      * rewrite Hout. split; [discriminate|lia].
      * lia.
      * intros _. unfold in_unit_range in Hout.
        apply andb_false_iff in Hout as [Hout|Hout]; [exact Hout|].
        exfalso. revert Hout Hf Hv. rewrite of_int_1. unfold fleb, SFleb.
        destruct (deg_to_val deg) as [s|s| |s m e]; cbn [fin fval SFcompare];
          try discriminate; try lia.
        destruct s; [discriminate|]. intros _ _ Hv.
        assert (0 <= bval (Zpos m) e)
          by (unfold bval; apply Z.mul_nonneg_nonneg; [lia|apply Z.pow_nonneg; lia]).
        lia.
    + destruct (deg_to_val_valid deg ltac:(lia)) as [Hf Hr].
      split; [exact Hf|]. split; [|split].
      * rewrite Hr. split; [lia|reflexivity].
      * lia.
      * lia.
Qed.

Lemma deg_to_val_in_range_iff_witness :
  - 2 ^ 53 <= 181 <= 2 ^ 53
  /\ fleb (deg_to_val 181) (of_int 1) = false.
Proof.
  assert (H : - 2 ^ 53 <= 181 <= 2 ^ 53) by lia.
  split; [exact H|].
  refine (proj1 (proj2 (proj2 (deg_to_val_in_range_iff 181 H))) _). lia.
Defined.

(** * Whole runs of the scripts *)

Lemma startup_neutral (hw : hardware) :
  at_neutral (replay hw (events ClassifierApp.startup))
  /\ at_neutral (replay hw (events GeminiTriggerApp.startup)).
Proof. split; split; reflexivity. Qed.

Lemma script_events_classifier (sin : float -> float)
      (presses : list ClassifierApp.classification) (sigint : option nat) :
  events (ClassifierApp.script sin presses sigint)
  = events ClassifierApp.startup ++ events (ClassifierApp.main sin presses sigint).
Proof. unfold ClassifierApp.script. now rewrite events_bind. Qed.

Lemma script_events_gemini (sin : float -> float)
      (triggers : list GeminiTriggerApp.trigger) (sigint : option nat) :
  events (GeminiTriggerApp.script sin triggers sigint)
  = events GeminiTriggerApp.startup ++ events (GeminiTriggerApp.main sin triggers sigint).
Proof. unfold GeminiTriggerApp.script. now rewrite events_bind. Qed.

Section RunsAtNeutral.
Variable sin : float -> float.
Hypothesis sin_quarter : sin_exact_at_quarter_turns sin.

Lemma classifier_cycle_neutral (c : ClassifierApp.classification) (hw : hardware) :
  at_neutral hw -> at_neutral (replay hw (events (ClassifierApp.cycle sin c))).
Proof.
  intros Hhw. destruct c as [label conf|what].
  - rewrite classifier_cycle_unfold. cbn [events fst]. rewrite replay_app.
    now apply classifier_trigger_neutral.
  - exact Hhw.
Qed.

Lemma gemini_cycle_neutral (t : GeminiTriggerApp.trigger) (hw : hardware) :
  at_neutral hw -> at_neutral (replay hw (events (GeminiTriggerApp.cycle sin t))).
Proof.
  intros Hhw. destruct t as [what|label].
  - exact Hhw.
  - rewrite gemini_cycle_unfold. cbn [events fst]. rewrite !replay_app.
    now apply gemini_trigger_neutral.
Qed.

Lemma classifier_main_loop_neutral (presses : list ClassifierApp.classification)
      (hw : hardware) :
  at_neutral hw ->
  at_neutral (replay hw (events (ClassifierApp.main_loop sin presses))).
Proof.
  revert hw. induction presses as [|c rest IH]; intros hw Hhw; [exact Hhw|].
  cbn [ClassifierApp.main_loop]. rewrite !events_bind.
  cbn [input emit events outcome fst snd app]. rewrite replay_cons. cbn [step].
  rewrite replay_app.
  destruct (outcome (ClassifierApp.cycle sin c)) as [[]|e].
  - apply IH. now apply classifier_cycle_neutral.
  - rewrite replay_nil. now apply classifier_cycle_neutral.
Qed.

Lemma gemini_main_loop_neutral (triggers : list GeminiTriggerApp.trigger)
      (hw : hardware) :
  at_neutral hw ->
  at_neutral (replay hw (events (GeminiTriggerApp.main_loop sin triggers))).
Proof.
  revert hw. induction triggers as [|t rest IH]; intros hw Hhw; [exact Hhw|].
  cbn [GeminiTriggerApp.main_loop]. rewrite !events_bind.
  cbn [input emit events outcome fst snd app]. rewrite replay_cons. cbn [step].
  rewrite replay_app.
  destruct (outcome (GeminiTriggerApp.cycle sin t)) as [[]|e].
  - apply IH. now apply gemini_cycle_neutral.
  - rewrite replay_nil. now apply gemini_cycle_neutral.
Qed.

End RunsAtNeutral.

(** What the handlers and the [finally] block do to a servo. *)
Lemma value_at_detach_shutdown (srv : servo) (hw : hardware) (e : exn) :
  value_at_detach srv hw (shutdown_trace e) = Some (servo_value srv hw).
Proof. destruct srv, e; reflexivity. Qed.

(** X7. If no Ctrl+C arrives while a deposit program runs -- the run ends at
    the prompt, or on an error of the classifier -- both servos are on the
    command of the Neutral Position at the moment they are detached,
    whatever was classified before and whatever state the hardware was in
    when the script started.  ([math.sin] is taken to return exactly 1.0 and
    -1.0 at the binary64 quarter turns.) *)
Theorem prompt_stop_detaches_at_neutral (sin : float -> float)
        (presses : list ClassifierApp.classification)
        (triggers : list GeminiTriggerApp.trigger)
        (srv : servo) (hw : hardware) :
  sin_exact_at_quarter_turns sin ->
  value_at_detach srv hw (events (ClassifierApp.script sin presses None))
  = Some (Some neutral)
  /\ value_at_detach srv hw (events (GeminiTriggerApp.script sin triggers None))
     = Some (Some neutral).
Proof.
  intros Hsin. split.
  - rewrite script_events_classifier. unfold ClassifierApp.main.
    cbn [ClassifierApp.guarded_body].
    destruct (classifier_body_raises sin presses) as [e He].
    rewrite (try_except_finally_raise _ e He). cbn [events fst].
    rewrite app_assoc, value_at_detach_skip, value_at_detach_shutdown.
    + f_equal.
      assert (Hn : at_neutral (replay hw (events ClassifierApp.startup
                                          ++ events (ClassifierApp.main_body sin presses)))).
      { rewrite replay_app. unfold ClassifierApp.main_body.
        rewrite !events_bind. cbn [print emit events outcome fst snd app].
        rewrite !replay_cons. cbn [step].
        apply classifier_main_loop_neutral; [exact Hsin|].
        apply startup_neutral. }
      destruct Hn as [Ht Hp]. destruct srv; assumption.
    + rewrite filter_app, classifier_body_no_release. reflexivity.
  - rewrite script_events_gemini. unfold GeminiTriggerApp.main.
    cbn [GeminiTriggerApp.guarded_body].
    destruct (gemini_body_raises sin triggers) as [e He].
    rewrite (try_except_finally_raise _ e He). cbn [events fst].
    rewrite app_assoc, value_at_detach_skip, value_at_detach_shutdown.
    + f_equal.
      assert (Hn : at_neutral (replay hw (events GeminiTriggerApp.startup
                                          ++ events (GeminiTriggerApp.main_body sin triggers)))).
      { rewrite replay_app. unfold GeminiTriggerApp.main_body.
        rewrite !events_bind. cbn [print emit events outcome fst snd app].
        rewrite !replay_cons. cbn [step].
        apply gemini_main_loop_neutral; [exact Hsin|].
        apply startup_neutral. }
      destruct Hn as [Ht Hp]. destruct srv; assumption.
    + rewrite filter_app, gemini_body_no_release. reflexivity.
Qed.

Lemma prompt_stop_detaches_at_neutral_witness :
  sin_exact_at_quarter_turns RefSin.sin
  /\ value_at_detach servo_pan hw_boot
       (events (ClassifierApp.script RefSin.sin
                  [ClassifierApp.Classified "dry" (of_int 1);
                   ClassifierApp.Classified "Wet" lit_0_5] None))
     = Some (Some neutral).
Proof.
  split; [exact refsin_exact_at_quarter_turns|].
  exact (proj1 (prompt_stop_detaches_at_neutral RefSin.sin
                  [ClassifierApp.Classified "dry" (of_int 1);
                   ClassifierApp.Classified "Wet" lit_0_5] [] servo_pan hw_boot
                  refsin_exact_at_quarter_turns)).
Defined.

(** ** An error of the classifier *)

Lemma classifier_cycle_raised (sin : float -> float) (what : string) :
  ClassifierApp.cycle sin (ClassifierApp.ClassifierRaised what)
  = ([Console [Lit "============================================="];
      Console [Lit "--- Starting Classification Cycle ---"];
      Console [Lit "Capturing image..."]],
     Raise (Exception what)).
Proof. reflexivity. Qed.

Lemma classifier_cycle_classified_ok (sin : float -> float) (label : string)
      (conf : float) :
  outcome (ClassifierApp.cycle sin (ClassifierApp.Classified label conf)) = Ok tt.
Proof. rewrite classifier_cycle_unfold. apply classifier_trigger_ok. Qed.

(** The presses after a failed classification do not matter. *)
Lemma classifier_main_loop_cut (sin : float -> float)
      (pre rest : list ClassifierApp.classification) (what : string) :
  ClassifierApp.main_loop sin (pre ++ ClassifierApp.ClassifierRaised what :: rest)
  = ClassifierApp.main_loop sin (pre ++ [ClassifierApp.ClassifierRaised what]).
Proof.
  induction pre as [|c pre IH]; cbn [app ClassifierApp.main_loop].
  - rewrite classifier_cycle_raised. reflexivity.
  - now rewrite IH.
Qed.

Lemma classifier_main_loop_raised (sin : float -> float)
      (pre : list ClassifierApp.classification) (what : string) :
  Forall (fun c => exists label conf, c = ClassifierApp.Classified label conf) pre ->
  outcome (ClassifierApp.main_loop sin (pre ++ [ClassifierApp.ClassifierRaised what]))
  = Raise (Exception what).
Proof.
  induction 1 as [|c pre (label & conf & ->) _ IH]; cbn [app].
  - reflexivity.
  - destruct (classifier_main_loop_step sin (ClassifierApp.Classified label conf)
                (pre ++ [ClassifierApp.ClassifierRaised what])
                (classifier_cycle_classified_ok sin label conf)) as [_ ->].
    exact IH.
Qed.

(** X8. In [classifier_app.py] an exception raised by the camera or the
    interpreter during [capture_and_classify] is not caught inside the loop:
    it ends the run.  Whatever the operator would have pressed afterwards
    makes no difference, no servo is commanded in the failed cycle, and the
    script prints "An unexpected error occurred: ..." with the text of the
    exception before it stops the camera and detaches both servos. *)
Theorem classifier_failure_ends_run (sin : float -> float)
        (pre rest : list ClassifierApp.classification) (what : string) :
  Forall (fun c => exists label conf, c = ClassifierApp.Classified label conf) pre ->
  let failed := ClassifierApp.ClassifierRaised what in
  ClassifierApp.script sin (pre ++ failed :: rest) None
  = ClassifierApp.script sin (pre ++ [failed]) None
  /\ filter is_set_value (events (ClassifierApp.cycle sin failed)) = []
  /\ outcome (ClassifierApp.main_body sin (pre ++ failed :: rest))
     = Raise (Exception what)
  /\ events (ClassifierApp.main sin (pre ++ failed :: rest) None)
     = events (ClassifierApp.main_body sin (pre ++ [failed]))
       ++ [Console [Lit "An unexpected error occurred: "; Lit what];
           CameraStop; Detach servo_tilt; Detach servo_pan;
           Console msg_released].
Proof.
  intros Hpre failed. subst failed.
  assert (Hbody : ClassifierApp.main_body sin
                    (pre ++ ClassifierApp.ClassifierRaised what :: rest)
                  = ClassifierApp.main_body sin
                      (pre ++ [ClassifierApp.ClassifierRaised what])).
  { unfold ClassifierApp.main_body. now rewrite classifier_main_loop_cut. }
  assert (Hout : outcome (ClassifierApp.main_body sin
                            (pre ++ [ClassifierApp.ClassifierRaised what]))
                 = Raise (Exception what)).
  { unfold ClassifierApp.main_body. rewrite !outcome_bind.
    cbn [print emit outcome snd]. now apply classifier_main_loop_raised. }
  split; [|split; [|split]].
  - unfold ClassifierApp.script, ClassifierApp.main, ClassifierApp.guarded_body.
    now rewrite Hbody.
  - reflexivity.
  - now rewrite Hbody.
  - unfold ClassifierApp.main, ClassifierApp.guarded_body. rewrite Hbody.
    rewrite (try_except_finally_raise _ _ Hout). reflexivity.
Qed.

Lemma classifier_failure_ends_run_witness :
  Forall (fun c => exists label conf, c = ClassifierApp.Classified label conf)
         [ClassifierApp.Classified "wet" lit_0_5]
  /\ ClassifierApp.script RefSin.sin
       ([ClassifierApp.Classified "wet" lit_0_5]
        ++ ClassifierApp.ClassifierRaised "camera timeout"
        :: [ClassifierApp.Classified "dry" lit_0_5]) None
     = ClassifierApp.script RefSin.sin
         ([ClassifierApp.Classified "wet" lit_0_5]
          ++ [ClassifierApp.ClassifierRaised "camera timeout"]) None.
Proof.
  assert (H : Forall (fun c => exists label conf,
                          c = ClassifierApp.Classified label conf)
                     [ClassifierApp.Classified "wet" lit_0_5]).
  { constructor; [exists "wet"%string, lit_0_5; reflexivity|constructor]. }
  split; [exact H|].
  exact (proj1 (classifier_failure_ends_run RefSin.sin
                  [ClassifierApp.Classified "wet" lit_0_5]
                  [ClassifierApp.Classified "dry" lit_0_5] "camera timeout" H)).
Defined.

(** ** The loop of gemini_trigger_app.py *)

(** The body of the loop, as the source has it, is the cycle of the trigger
    the attempt amounts to. *)
Lemma gemini_loop_body_cycle (sin : float -> float) (api_key : option string)
      (a : GeminiClassify.attempt) :
  GeminiClassify.loop_body sin api_key a
  = GeminiTriggerApp.cycle sin (GeminiClassify.trigger_of api_key a).
Proof.
  unfold GeminiClassify.loop_body, GeminiClassify.capture_image_from_pi_cam,
    GeminiClassify.trigger_of.
  destruct (GeminiClassify.capture_error a) as [what|]; [reflexivity|].
  unfold ret. rewrite bind_ok. cbn [negb app]. symmetry. apply M_eta.
Qed.

Lemma gemini_main_loop_source (sin : float -> float) (api_key : option string)
      (attempts : list GeminiClassify.attempt) :
  GeminiClassify.main_loop sin api_key attempts
  = GeminiTriggerApp.main_loop sin (map (GeminiClassify.trigger_of api_key) attempts).
Proof.
  induction attempts as [|a rest IH]; [reflexivity|].
  cbn [GeminiClassify.main_loop map GeminiTriggerApp.main_loop].
  now rewrite gemini_loop_body_cycle, IH.
Qed.

Lemma gemini_cycle_ok (sin : float -> float) (t : GeminiTriggerApp.trigger) :
  outcome (GeminiTriggerApp.cycle sin t) = Ok tt.
Proof.
  destruct t as [what|label]; [reflexivity|]. now rewrite gemini_cycle_unfold.
Qed.

Lemma gemini_main_loop_interrupt (sin : float -> float)
      (triggers : list GeminiTriggerApp.trigger) :
  outcome (GeminiTriggerApp.main_loop sin triggers) = Raise KeyboardInterrupt.
Proof.
  induction triggers as [|t rest IH]; [reflexivity|].
  destruct (gemini_main_loop_step sin t rest (gemini_cycle_ok sin t)) as [_ ->].
  exact IH.
Qed.

(** X9. The loop of [gemini_trigger_app.py] survives every failure of a
    trigger.  A failed capture prints one line and goes back to the prompt
    ([continue]); a failure of the API call comes back from
    [classify_with_gemini] as a string.  So whatever the camera and the API
    do, the loop serves every press and ends only by Ctrl+C: the script then
    prints the "stopped by user" line, never the "unexpected error" one. *)
Theorem gemini_loop_survives_failures (sin : float -> float)
        (api_key : option string) (attempts : list GeminiClassify.attempt) :
  outcome (GeminiClassify.main_loop sin api_key attempts) = Raise KeyboardInterrupt
  /\ (forall a rest what,
        GeminiClassify.capture_error a = Some what ->
        events (GeminiClassify.main_loop sin api_key (a :: rest))
        = Input GeminiTriggerApp.prompt
          :: Console [Lit "Error capturing image: "; Lit what]
          :: events (GeminiClassify.main_loop sin api_key rest))
  /\ (forall a rest,
        events (GeminiClassify.main_loop sin api_key (a :: rest))
        = Input GeminiTriggerApp.prompt
          :: events (GeminiClassify.loop_body sin api_key a)
          ++ events (GeminiClassify.main_loop sin api_key rest))
  /\ events (GeminiClassify.main sin api_key attempts)
     = events (GeminiClassify.main_body sin api_key attempts)
       ++ [Console msg_stopped; CameraStop; Detach servo_tilt; Detach servo_pan;
           Console msg_released].
Proof.
  assert (Hstep : forall a rest,
             events (GeminiClassify.main_loop sin api_key (a :: rest))
             = Input GeminiTriggerApp.prompt
               :: events (GeminiClassify.loop_body sin api_key a)
               ++ events (GeminiClassify.main_loop sin api_key rest)).
  { intros a rest. rewrite !gemini_main_loop_source, gemini_loop_body_cycle.
    cbn [map]. apply gemini_main_loop_step, gemini_cycle_ok. }
  split; [|split; [|split]].
  - rewrite gemini_main_loop_source. apply gemini_main_loop_interrupt.
  - intros a rest what Ha. rewrite Hstep.
    unfold GeminiClassify.loop_body, GeminiClassify.capture_image_from_pi_cam.
    rewrite Ha. reflexivity.
  - exact Hstep.
  - unfold GeminiClassify.main.
    rewrite (try_except_finally_raise _ KeyboardInterrupt); [reflexivity|].
    unfold GeminiClassify.main_body. rewrite outcome_bind.
    cbn [print emit outcome snd].
    rewrite gemini_main_loop_source. apply gemini_main_loop_interrupt.
Qed.

(** ** The label "mixed" *)

(** X10. The label "mixed" takes the third branch of either router.  In
    [classifier_app.py] (any letter case) it runs the tilt-only program --
    tilt 90 -> 0, pause 1 s, tilt 0 -> 90 -- and the pan servo is never
    commanded; in [gemini_trigger_app.py] it runs the pan-tilt program
    towards [MIXED_HAZ_POS] (135 degrees) with the full tilt to 180. *)
Theorem mixed_routing (sin : float -> float) (label : string) :
  lower label = "mixed"%string ->
  motion (events (ClassifierApp.trigger_actuator sin label))
  = sweep_trace sin servo_tilt 90 0 default_steps default_delay
    ++ [Sleep (of_int 1)]
    ++ sweep_trace sin servo_tilt 0 90 default_steps default_delay
  /\ values_written servo_pan (events (ClassifierApp.trigger_actuator sin label)) = []
  /\ motion (events (GeminiTriggerApp.trigger_actuator sin "mixed"))
     = program_trace sin (pan_tilt_drop 135 180).
Proof.
  intros Hl. split; [|split].
  - rewrite classifier_trigger_motion, Hl. cbn [String.eqb Ascii.eqb Bool.eqb].
    program_shape.
  - rewrite <- values_written_motion, classifier_trigger_motion, Hl.
    cbn [String.eqb Ascii.eqb Bool.eqb]. apply tilt_only_drop_leaves_pan.
  - now rewrite gemini_trigger_motion.
Qed.

Lemma mixed_routing_witness :
  lower "Mixed" = "mixed"%string
  /\ values_written servo_pan
       (events (ClassifierApp.trigger_actuator RefSin.sin "Mixed")) = [].
Proof.
  split; [reflexivity|].
  exact (proj1 (proj2 (mixed_routing RefSin.sin "Mixed" eq_refl))).
Defined.

(** ** Every command of a run is one the driver accepts *)

Lemma in_range_bind {A B} (m : M A) (k : A -> M B) :
  forallb command_in_range (events m) = true ->
  (forall a, forallb command_in_range (events (k a)) = true) ->
  forallb command_in_range (events (bind m k)) = true.
Proof.
  intros Hm Hk. rewrite events_bind, forallb_app, Hm.
  destruct (outcome m); [apply Hk | reflexivity].
Qed.

Lemma forallb_firstn {A} (p : A -> bool) (k : nat) (l : list A) :
  forallb p l = true -> forallb p (firstn k l) = true.
Proof.
  revert k. induction l as [|x l IH]; intros [|k]; cbn [firstn forallb]; auto.
  intros H. apply andb_true_iff in H as [-> H]. now apply IH.
Qed.

Lemma in_range_interrupt {A} (k : nat) (m : M A) :
  forallb command_in_range (events m) = true ->
  forallb command_in_range (events (interrupt_after k m)) = true.
Proof.
  intros H. unfold interrupt_after.
  destruct (Nat.ltb k (List.length (events m))); [|exact H].
  now apply forallb_firstn.
Qed.

Lemma in_range_try (body : M unit) :
  forallb command_in_range (events body) = true ->
  forallb command_in_range (events (try_except_finally body)) = true.
Proof.
  destruct body as [evs [[]|e]]; cbn [events fst]; intros H.
  - unfold try_except_finally. rewrite bind_ok. cbn [events fst].
    rewrite forallb_app, H. reflexivity.
  - rewrite (try_except_finally_raise (evs, Raise e) e eq_refl). cbn [events fst].
    rewrite forallb_app, H. destruct e; reflexivity.
Qed.

Section CommandsInRange.
Variable sin : float -> float.
Hypothesis sin_range : sin_in_unit_range sin.

Lemma step_value_in_unit_range (a b steps i : Z) :
  0 <= a <= 180 -> 0 <= b <= 180 -> 1 <= steps <= 2 ^ 53 -> 0 <= i <= steps ->
  in_unit_range (step_value sin a b steps i) = true.
Proof.
  intros Ha Hb Hs Hi. unfold step_value.
  destruct (deg_to_val_valid a Ha) as [Hfa Hra].
  destruct (deg_to_val_valid b Hb) as [Hfb Hrb].
  destruct (truediv_range i steps) as (Hft & Hst & Hmt); [lia|lia|].
  now apply current_val_in_range.
Qed.

Lemma in_range_sweep (srv : servo) (a b : Z) :
  0 <= a <= 180 -> 0 <= b <= 180 ->
  forallb command_in_range
    (events (sine_sweep sin srv a b default_steps default_delay)) = true.
Proof.
  intros Ha Hb. rewrite sine_sweep_run by exact default_steps_nonzero.
  cbn [events fst]. unfold sweep_trace. apply forallb_forall.
  intros e He. apply in_flat_map in He as (i & Hi & He).
  apply range_spec in Hi.
  destruct He as [<-|[<-|[]]]; [|reflexivity].
  apply step_value_in_unit_range; try assumption;
    pose proof default_steps_range; lia.
Qed.

Ltac in_range :=
  repeat match goal with
  | |- forallb command_in_range (events (bind _ _)) = true =>
      apply in_range_bind; [|intros ?]
  | |- forallb command_in_range (events (sine_sweep _ _ _ _ _ _)) = true =>
      apply in_range_sweep; unfold CENTER_POS; lia
  | |- forallb command_in_range (events (print _)) = true => reflexivity
  | |- forallb command_in_range (events (sleep _)) = true => reflexivity
  | |- forallb command_in_range (events (input _)) = true => reflexivity
  end.

Lemma classifier_trigger_in_range (waste_type : string) :
  forallb command_in_range (events (ClassifierApp.trigger_actuator sin waste_type))
  = true.
Proof.
  unfold ClassifierApp.trigger_actuator, ClassifierApp.run_deposit_sequence,
    ClassifierApp.WET_POS, ClassifierApp.DRY_POS.
  apply in_range_bind; [reflexivity|intros _].
  destruct (String.eqb (lower waste_type) "wet");
    [|destruct (String.eqb (lower waste_type) "dry");
      [|destruct (String.eqb (lower waste_type) "mixed")]];
    in_range.
Qed.

Lemma gemini_trigger_in_range (classification : string) :
  forallb command_in_range (events (GeminiTriggerApp.trigger_actuator sin classification))
  = true.
Proof.
  unfold GeminiTriggerApp.trigger_actuator, GeminiTriggerApp.run_pan_tilt_sequence,
    GeminiTriggerApp.run_drop_tilt_cycle, GeminiTriggerApp.DRY_POS,
    GeminiTriggerApp.MIXED_HAZ_POS.
  apply in_range_bind; [reflexivity|intros _].
  destruct (String.eqb classification "wet");
    [|destruct (String.eqb classification "dry");
      [|destruct (String.eqb classification "mixed")]];
    in_range.
Qed.

Lemma classifier_body_in_range (presses : list ClassifierApp.classification) :
  forallb command_in_range (events (ClassifierApp.main_body sin presses)) = true.
Proof.
  unfold ClassifierApp.main_body.
  apply in_range_bind; [reflexivity|intros _].
  apply in_range_bind; [reflexivity|intros _].
  induction presses as [|c rest IH]; [reflexivity|].
  cbn [ClassifierApp.main_loop].
  apply in_range_bind; [reflexivity|intros _].
  apply in_range_bind; [|intros _; exact IH].
  destruct c as [l x|w]; [|reflexivity].
  rewrite classifier_cycle_unfold. cbn [events fst app forallb command_in_range andb].
  apply classifier_trigger_in_range.
Qed.

Lemma gemini_body_in_range (triggers : list GeminiTriggerApp.trigger) :
  forallb command_in_range (events (GeminiTriggerApp.main_body sin triggers)) = true.
Proof.
  unfold GeminiTriggerApp.main_body.
  apply in_range_bind; [reflexivity|intros _].
  induction triggers as [|t rest IH]; [reflexivity|].
  cbn [GeminiTriggerApp.main_loop].
  apply in_range_bind; [reflexivity|intros _].
  apply in_range_bind; [|intros _; exact IH].
  destruct t as [w|l]; [reflexivity|].
  rewrite gemini_cycle_unfold. cbn [events fst app forallb command_in_range andb].
  now rewrite forallb_app, gemini_trigger_in_range.
Qed.

End CommandsInRange.

(** X11. In every run of either script -- whatever is classified, and
    wherever a Ctrl+C may fall -- each value written to a servo, the two
    initial commands included, is within [[-1.0, 1.0]]: the servo driver
    never has a value to reject.  ([math.sin] is taken to return floats of
    [[-1, 1]] at finite arguments.) *)
Theorem scripts_command_within_driver_range (sin : float -> float)
        (presses : list ClassifierApp.classification)
        (triggers : list GeminiTriggerApp.trigger) (sigint : option nat) :
  sin_in_unit_range sin ->
  forallb command_in_range (events (ClassifierApp.script sin presses sigint)) = true
  /\ forallb command_in_range (events (GeminiTriggerApp.script sin triggers sigint))
     = true.
Proof.
  intros Hsin. split.
  - rewrite script_events_classifier, forallb_app. apply andb_true_iff.
    split; [reflexivity|].
    apply in_range_try. unfold ClassifierApp.guarded_body.
    destruct sigint as [k|]; [apply in_range_interrupt|];
      now apply classifier_body_in_range.
  - rewrite script_events_gemini, forallb_app. apply andb_true_iff.
    split; [reflexivity|].
    apply in_range_try. unfold GeminiTriggerApp.guarded_body.
    destruct sigint as [k|]; [apply in_range_interrupt|];
      now apply gemini_body_in_range.
Qed.

Lemma scripts_command_within_driver_range_witness :
  sin_in_unit_range RefSin.sin
  /\ forallb command_in_range
       (events (GeminiTriggerApp.script RefSin.sin
                  [GeminiTriggerApp.Classification "dry"] (Some 700%nat))) = true.
Proof.
  split; [exact refsin_in_unit_range|].
  exact (proj2 (scripts_command_within_driver_range RefSin.sin []
                  [GeminiTriggerApp.Classification "dry"] (Some 700%nat)
                  refsin_in_unit_range)).
Defined.

(** ** Invariants along a trace *)

Lemma throughout_nil (P : hardware -> Prop) (hw : hardware) :
  P hw -> throughout P hw [].
Proof.
  intros H pre post E. symmetry in E. apply app_eq_nil in E as [-> _]. exact H.
Qed.

Lemma throughout_cons (P : hardware -> Prop) (hw : hardware) (e : event)
      (evs : list event) :
  P hw -> throughout P (step hw e) evs -> throughout P hw (e :: evs).
Proof.
  intros H0 H pre post E. destruct pre as [|e' pre]; [exact H0|].
  cbn [app] in E. injection E as <- E. rewrite replay_cons. now apply (H pre post).
Qed.

Lemma throughout_app (P : hardware -> Prop) (hw : hardware) (l1 l2 : list event) :
  throughout P hw l1 -> throughout P (replay hw l1) l2 ->
  throughout P hw (l1 ++ l2).
Proof.
  revert hw. induction l1 as [|e l1 IH]; intros hw H1 H2; [exact H2|].
  cbn [app]. apply throughout_cons.
  - apply (H1 [] (e :: l1)). reflexivity.
  - apply IH; [|exact H2].
    intros pre post E. apply (H1 (e :: pre) post). cbn [app]. now rewrite E.
Qed.

(** A property kept by every event of a trace holds throughout it. *)
Lemma throughout_kept (P Q : hardware -> Prop) (hw : hardware) (evs : list event) :
  (forall h, Q h -> P h) ->
  (forall e h, In e evs -> Q h -> Q (step h e)) ->
  Q hw -> throughout P hw evs.
Proof.
  intros HQP. revert hw. induction evs as [|e evs IH]; intros hw Hk H0.
  - apply throughout_nil. now apply HQP.
  - apply throughout_cons; [now apply HQP|].
    apply IH; [|apply Hk; [now left|exact H0]].
    intros e' h He'. apply Hk. now right.
Qed.

Lemma sweep_keeps_other (sin : float -> float) (srv : servo) (a b steps : Z)
      (delay : float) (v : option float) (e : event) (h : hardware) :
  In e (sweep_trace sin srv a b steps delay) ->
  match srv with
  | servo_pan => tilt_value h = v -> tilt_value (step h e) = v
  | servo_tilt => pan_value h = v -> pan_value (step h e) = v
  end.
Proof.
  unfold sweep_trace. intros He. apply in_flat_map in He as (i & _ & He).
  destruct He as [<-|[<-|[]]]; destruct srv; cbn; auto.
Qed.

Section TiltOverTarget.
Variable sin : float -> float.
Hypothesis sin_quarter : sin_exact_at_quarter_turns sin.

Lemma pan_sweep_level (target a b : Z) (hw : hardware) :
  tilt_value hw = Some neutral ->
  throughout (level_or_on_target target) hw
    (sweep_trace sin servo_pan a b default_steps default_delay).
Proof.
  intros Ht.
  apply (throughout_kept _ (fun h => tilt_value h = Some neutral));
    [now left| |exact Ht].
  intros e h He. exact (sweep_keeps_other sin servo_pan a b _ _ _ e h He).
Qed.

Lemma tilt_sweep_on_target (target a b : Z) (hw : hardware) :
  pan_value hw = Some (deg_to_val target) ->
  throughout (level_or_on_target target) hw
    (sweep_trace sin servo_tilt a b default_steps default_delay).
Proof.
  intros Hp.
  apply (throughout_kept _ (fun h => pan_value h = Some (deg_to_val target)));
    [now right| |exact Hp].
  intros e h He. exact (sweep_keeps_other sin servo_tilt a b _ _ _ e h He).
Qed.

Ltac still Hh :=
  apply throughout_cons; [exact Hh|]; cbn [step].

Lemma pan_tilt_program_invariant (target full : Z) (hw : hardware)
      (c1 c2 c3 c4 : list fragment) :
  0 <= target <= 180 -> 0 <= full <= 180 ->
  tilt_value hw = Some neutral ->
  throughout (level_or_on_target target) hw
    (Console c1
     :: sweep_trace sin servo_pan CENTER_POS target default_steps default_delay
     ++ Sleep lit_0_5 :: Console c2
     :: sweep_trace sin servo_tilt CENTER_POS full default_steps default_delay
     ++ Sleep (of_int 1)
     :: sweep_trace sin servo_tilt full CENTER_POS default_steps default_delay
     ++ Console c3
     :: sweep_trace sin servo_pan target CENTER_POS default_steps default_delay
     ++ [Console c4]).
Proof.
  intros Htg Hfull Ht.
  assert (H0 : level_or_on_target target hw) by now left.
  still H0.
  apply throughout_app; [now apply pan_sweep_level|].
  rewrite replay_sweep_trace by (unfold default_steps; lia).
  rewrite (step_value_last_from_neutral sin sin_quarter)
    by (exact default_steps_range || exact Htg).
  set (h1 := write_servo servo_pan (Some (deg_to_val target)) hw).
  assert (Hp1 : pan_value h1 = Some (deg_to_val target)) by reflexivity.
  assert (H1 : level_or_on_target target h1) by now right.
  still H1. still H1.
  apply throughout_app; [now apply tilt_sweep_on_target|].
  rewrite replay_sweep_trace by (unfold default_steps; lia).
  set (h2 := write_servo servo_tilt _ h1).
  assert (H2 : level_or_on_target target h2) by now right.
  still H2.
  apply throughout_app; [now apply tilt_sweep_on_target|].
  rewrite replay_sweep_trace by (unfold default_steps; lia).
  rewrite (step_value_last_to_neutral sin sin_quarter)
    by (exact default_steps_range || exact Hfull).
  set (h3 := write_servo servo_tilt (Some neutral) h2).
  assert (Ht3 : tilt_value h3 = Some neutral) by reflexivity.
  assert (H3 : level_or_on_target target h3) by now left.
  still H3.
  apply throughout_app; [now apply pan_sweep_level|].
  rewrite replay_sweep_trace by (unfold default_steps; lia).
  apply throughout_cons; [now left|]. apply throughout_nil. now left.
Qed.

End TiltOverTarget.

(** X12. The tray is only ever tilted over the compartment the waste was
    routed to.  At every moment of the pan-tilt program of either script
    (towards an integer angle of [[0, 180]], started with the tilt servo
    level), the tilt servo is on the command of the Neutral Position or the
    pan servo is exactly on the command of the target angle: the pan servo
    never moves while the tray is tilted.  ([math.sin] is taken to return
    exactly 1.0 and -1.0 at the binary64 quarter turns.) *)
Theorem tilts_only_over_target (sin : float -> float) (target tilt_target : Z)
        (hw : hardware) :
  sin_exact_at_quarter_turns sin ->
  0 <= target <= 180 ->
  tilt_value hw = Some neutral ->
  throughout (level_or_on_target target) hw
    (events (ClassifierApp.run_deposit_sequence sin target))
  /\ throughout (level_or_on_target target) hw
       (events (GeminiTriggerApp.run_pan_tilt_sequence sin target tilt_target)).
Proof.
  intros Hsin Ht Hhw. split.
  - unfold ClassifierApp.run_deposit_sequence. run_program.
    rewrite <- ?app_assoc. cbn [app].
    apply pan_tilt_program_invariant; (assumption || (unfold CENTER_POS; lia) || lia).
  - unfold GeminiTriggerApp.run_pan_tilt_sequence. run_program.
    rewrite <- ?app_assoc. cbn [app].
    apply pan_tilt_program_invariant; (assumption || (unfold CENTER_POS; lia) || lia).
Qed.

Lemma tilts_only_over_target_witness :
  sin_exact_at_quarter_turns RefSin.sin /\ 0 <= 135 <= 180
  /\ tilt_value (replay hw_boot (events ClassifierApp.startup)) = Some neutral
  /\ throughout (level_or_on_target 135)
       (replay hw_boot (events ClassifierApp.startup))
       (events (ClassifierApp.run_deposit_sequence RefSin.sin 135)).
Proof.
  split; [exact refsin_exact_at_quarter_turns|]. split; [lia|].
  split; [reflexivity|].
  exact (proj1 (tilts_only_over_target RefSin.sin 135 0
                  (replay hw_boot (events ClassifierApp.startup))
                  refsin_exact_at_quarter_turns ltac:(lia) eq_refl)).
Defined.

(** ** The motion of a whole run *)

Lemma motion_console (l : list fragment) (evs : list event) :
  motion (Console l :: evs) = motion evs.
Proof. reflexivity. Qed.

Lemma classifier_cycle_motion (sin : float -> float) (label : string) (conf : float) :
  motion (events (ClassifierApp.cycle sin (ClassifierApp.Classified label conf)))
  = motion (events (ClassifierApp.trigger_actuator sin label)).
Proof. rewrite classifier_cycle_unfold. reflexivity. Qed.

Lemma gemini_cycle_motion (sin : float -> float) (t : GeminiTriggerApp.trigger) :
  motion (events (GeminiTriggerApp.cycle sin t))
  = match t with
    | GeminiTriggerApp.CaptureFailed _ => []
    | GeminiTriggerApp.Classification c =>
        motion (events (GeminiTriggerApp.trigger_actuator sin c))
    end.
Proof.
  destruct t as [what|c]; [reflexivity|].
  rewrite gemini_cycle_unfold. cbn [events fst app].
  rewrite !motion_console, motion_app. cbn [motion filter is_motion].
  apply app_nil_r.
Qed.

(** X17. The servos move for the labels and for nothing else.  The motion of
    a run of either loop that is stopped at the prompt is the concatenation,
    in the order of the presses, of the motions of the routing calls of the
    labels classified; a failed capture contributes nothing, and nothing is
    commanded at a prompt or between two cycles. *)
Theorem run_motion_is_concatenation (sin : float -> float)
        (api_key : option string)
        (classified : list (string * float))
        (attempts : list GeminiClassify.attempt) :
  motion (events (ClassifierApp.main_loop sin
                    (map (fun p => ClassifierApp.Classified (fst p) (snd p))
                         classified)))
  = flat_map (fun p => motion (events (ClassifierApp.trigger_actuator sin (fst p))))
             classified
  /\ motion (events (GeminiClassify.main_loop sin api_key attempts))
     = flat_map
         (fun a =>
            match GeminiClassify.capture_error a with
            | Some _ => []
            | None =>
                motion (events (GeminiTriggerApp.trigger_actuator sin
                                  (GeminiClassify.classify_with_gemini api_key a)))
            end)
         attempts.
Proof.
  split.
  - induction classified as [|[label conf] rest IH]; [reflexivity|].
    cbn [map fst snd flat_map].
    destruct (classifier_main_loop_step sin (ClassifierApp.Classified label conf)
                (map (fun p => ClassifierApp.Classified (fst p) (snd p)) rest)
                (classifier_cycle_classified_ok sin label conf)) as [-> _].
    change (motion (Input ClassifierApp.prompt :: ?l)) with (motion l).
    now rewrite motion_app, classifier_cycle_motion, IH.
  - rewrite gemini_main_loop_source.
    induction attempts as [|a rest IH]; [reflexivity|].
    cbn [map flat_map].
    destruct (gemini_main_loop_step sin (GeminiClassify.trigger_of api_key a)
                (map (GeminiClassify.trigger_of api_key) rest)
                (gemini_cycle_ok sin _)) as [-> _].
    change (motion (Input GeminiTriggerApp.prompt :: ?l)) with (motion l).
    rewrite motion_app, gemini_cycle_motion, IH. f_equal.
    unfold GeminiClassify.trigger_of.
    destruct (GeminiClassify.capture_error a); reflexivity.
Qed.

(** * Stripping and lower-casing *)

Lemma lstrip_all_space (s : string) : all_space s = true -> lstrip s = EmptyString.
Proof.
  induction s as [|c s IH]; [reflexivity|]. cbn [all_space lstrip].
  intros H. apply andb_true_iff in H as [-> H]. now apply IH.
Qed.

Lemma rstrip_all_space (s : string) : all_space s = true -> rstrip s = EmptyString.
Proof.
  induction s as [|c s IH]; [reflexivity|]. cbn [all_space rstrip].
  intros H. apply andb_true_iff in H as [-> H]. now rewrite IH.
Qed.

Lemma lstrip_app_space (ws s : string) :
  all_space ws = true -> lstrip (ws ++ s) = lstrip s.
Proof.
  induction ws as [|c ws IH]; [reflexivity|]. cbn [all_space append lstrip].
  intros H. apply andb_true_iff in H as [-> H]. now apply IH.
Qed.

Lemma rstrip_app_space (s ws : string) :
  all_space ws = true -> rstrip (s ++ ws) = rstrip s.
Proof.
  intros H. induction s as [|c s IH]; cbn [append rstrip].
  - now apply rstrip_all_space.
  - now rewrite IH.
Qed.

Lemma lstrip_app (s t : string) :
  all_space s = false -> lstrip (s ++ t) = (lstrip s ++ t)%string.
Proof.
  induction s as [|c s IH]; [discriminate|]. cbn [all_space append lstrip].
  destruct (is_space c); [exact IH | reflexivity].
Qed.

(** White space around a text does not survive [strip]. *)
Lemma strip_padding (ws1 s ws2 : string) :
  all_space ws1 = true -> all_space ws2 = true ->
  strip (ws1 ++ s ++ ws2) = strip s.
Proof.
  intros H1 H2. unfold strip. rewrite lstrip_app_space by exact H1.
  destruct (all_space s) eqn:Es.
  - rewrite lstrip_app_space, (lstrip_all_space ws2), (lstrip_all_space s)
      by assumption.
    reflexivity.
  - rewrite lstrip_app by exact Es. now apply rstrip_app_space.
Qed.

Lemma is_space_lower (c : ascii) : is_space (lower_ascii c) = is_space c.
Proof. destruct c as [[] [] [] [] [] [] [] []]; reflexivity. Qed.

Lemma lower_ascii_idem (c : ascii) : lower_ascii (lower_ascii c) = lower_ascii c.
Proof. destruct c as [[] [] [] [] [] [] [] []]; reflexivity. Qed.

Lemma lower_idem (s : string) : lower (lower s) = lower s.
Proof.
  unfold lower. induction s as [|c s IH]; [reflexivity|].
  cbn [string_map]. now rewrite lower_ascii_idem, IH.
Qed.

Lemma lstrip_lower (s : string) : lstrip (lower s) = lower (lstrip s).
Proof.
  unfold lower. induction s as [|c s IH]; [reflexivity|].
  cbn [string_map lstrip]. rewrite is_space_lower.
  destruct (is_space c); [exact IH | reflexivity].
Qed.

Lemma rstrip_lower (s : string) : rstrip (lower s) = lower (rstrip s).
Proof.
  unfold lower. induction s as [|c s IH]; [reflexivity|].
  cbn [string_map rstrip]. rewrite IH, is_space_lower.
  destruct (rstrip s); cbn [string_map]; [destruct (is_space c)|]; reflexivity.
Qed.

Lemma strip_lower (s : string) : strip (lower s) = lower (strip s).
Proof. unfold strip. now rewrite lstrip_lower, rstrip_lower. Qed.

(** * What [classify_with_gemini] returns *)

Lemma categories_recognised (r : string) :
  existsb (String.eqb r) GeminiClassify.categories = gemini_recognised r.
Proof.
  unfold GeminiClassify.categories, gemini_recognised. cbn [existsb].
  now rewrite orb_false_r, orb_assoc.
Qed.

(** X13. [classify_with_gemini] turns every failure into a string.  It
    returns one of five kinds of string: "wet", "dry", "mixed", "unknown", or
    a marker that starts with "error: ".  It returns a category only when the image file exists, the
    API key is set and the API replied with a text that, stripped and
    lower-cased, is that category.  In every other case -- missing image,
    missing key, API error, any other exception, an answer outside the three
    categories -- the string it returns makes [trigger_actuator] command no
    servo. *)
Theorem gemini_moves_only_on_category (sin : float -> float)
        (api_key : option string) (a : GeminiClassify.attempt) :
  let c := GeminiClassify.classify_with_gemini api_key a in
  (c = "wet" \/ c = "dry" \/ c = "mixed" \/ c = "unknown"
   \/ exists what, c = "error: " ++ what)%string
  /\ (gemini_recognised c = true <->
      GeminiClassify.image_exists a = true
      /\ GeminiClassify.key_not_set api_key = false
      /\ exists text,
           GeminiClassify.reply a = GeminiClassify.Replied text
           /\ c = lower (strip text)
           /\ gemini_recognised (lower (strip text)) = true)
  /\ (gemini_recognised c = false ->
      filter is_set_value (events (GeminiTriggerApp.trigger_actuator sin c)) = []
      /\ forall hw, replay hw (events (GeminiTriggerApp.trigger_actuator sin c)) = hw).
Proof.
  cbv zeta. split; [|split].
  - unfold GeminiClassify.classify_with_gemini.
    destruct (GeminiClassify.image_exists a); cbn [negb];
      [|right; right; right; right; exists "no image"%string; reflexivity].
    destruct (GeminiClassify.key_not_set api_key);
      [right; right; right; right; exists "API key not set"%string; reflexivity|].
    destruct (GeminiClassify.reply a) as [text|what|what].
    + rewrite categories_recognised. unfold gemini_recognised.
      destruct (String.eqb_spec (lower (strip text)) "wet") as [->|_]; [now left|].
      destruct (String.eqb_spec (lower (strip text)) "dry") as [->|_];
        [right; now left|].
      destruct (String.eqb_spec (lower (strip text)) "mixed") as [->|_];
        [right; right; now left|].
      right; right; right; now left.
    + right; right; right; right. exists ("api " ++ what)%string. reflexivity.
    + right; right; right; right. exists ("general " ++ what)%string. reflexivity.
  - unfold GeminiClassify.classify_with_gemini.
    destruct (GeminiClassify.image_exists a); cbn [negb];
      [|split; [discriminate|intros [H _]; discriminate]].
    destruct (GeminiClassify.key_not_set api_key);
      [split; [discriminate|intros (_ & H & _); discriminate]|].
    destruct (GeminiClassify.reply a) as [text|what|what].
    + rewrite categories_recognised.
      destruct (gemini_recognised (lower (strip text))) eqn:E.
      * rewrite E. split; [intros _|reflexivity].
        split; [reflexivity|]. split; [reflexivity|].
        exists text. now rewrite E.
      * split; [discriminate|].
        intros (_ & _ & text' & Ht & _ & Hr). injection Ht as <-.
        rewrite E in Hr. discriminate.
    + split; [discriminate|]. intros (_ & _ & text & Ht & _). discriminate.
    + split; [discriminate|]. intros (_ & _ & text & Ht & _). discriminate.
  - intros Hc. rewrite (gemini_trigger_unknown sin _ Hc). split; reflexivity.
Qed.

(** X14. White space around the text of the API's reply and the case of its
    letters do not matter: two replies whose texts differ only by such
    padding and by letter case are classified alike. *)
Theorem reply_padding_and_case_ignored (api_key : option string)
        (cam : option string) (img : bool) (ws1 ws2 text text' : string) :
  all_space ws1 = true -> all_space ws2 = true ->
  lower text = lower text' ->
  GeminiClassify.classify_with_gemini api_key
    {| GeminiClassify.capture_error := cam; GeminiClassify.image_exists := img;
       GeminiClassify.reply := GeminiClassify.Replied (ws1 ++ text ++ ws2) |}
  = GeminiClassify.classify_with_gemini api_key
      {| GeminiClassify.capture_error := cam; GeminiClassify.image_exists := img;
         GeminiClassify.reply := GeminiClassify.Replied text' |}.
Proof.
  intros H1 H2 Hl. unfold GeminiClassify.classify_with_gemini.
  cbn [GeminiClassify.image_exists GeminiClassify.reply].
  rewrite strip_padding by assumption.
  now rewrite <- !strip_lower, Hl.
Qed.

Lemma reply_padding_and_case_ignored_witness :
  all_space " " = true /\ all_space (String "010" EmptyString) = true
  /\ lower "Wet" = lower "wet"
  /\ GeminiClassify.classify_with_gemini (Some "key"%string)
       {| GeminiClassify.capture_error := None; GeminiClassify.image_exists := true;
          GeminiClassify.reply :=
            GeminiClassify.Replied (" " ++ "Wet" ++ String "010" EmptyString) |}
     = "wet"%string.
Proof.
  split; [reflexivity|]. split; [reflexivity|]. split; [reflexivity|].
  exact (reply_padding_and_case_ignored (Some "key"%string) None true
           " " (String "010" EmptyString) "Wet" "wet" eq_refl eq_refl eq_refl).
Defined.

(** * labels.txt *)

Lemma predict_in_bounds (lines : list string) (idx : nat) (conf : float)
      (line : string) :
  nth_error lines idx = Some line ->
  ClassifierLabels.predict (ClassifierLabels.load_labels lines) idx conf
  = ClassifierApp.Classified (strip line) conf.
Proof.
  intros H. unfold ClassifierLabels.predict, ClassifierLabels.load_labels.
  now rewrite nth_error_map, H.
Qed.

Lemma predict_out_of_bounds (lines : list string) (idx : nat) (conf : float) :
  (List.length lines <= idx)%nat ->
  ClassifierLabels.predict (ClassifierLabels.load_labels lines) idx conf
  = ClassifierApp.ClassifierRaised "list index out of range".
Proof.
  intros H. unfold ClassifierLabels.predict, ClassifierLabels.load_labels.
  rewrite nth_error_map. apply nth_error_None in H. now rewrite H.
Qed.

(** X15. [labels.txt] gives one label per line, blank lines included, so
    line [k] names class [k].  If the class the model predicts has its line,
    the label is that line stripped; if the file has too few lines,
    [labels[predicted_index]] raises [IndexError]: no servo is commanded and
    the script ends with "An unexpected error occurred: list index out of
    range" instead of going back to the prompt. *)
Theorem labels_index_bounds (sin : float -> float) (lines : list string)
        (idx : nat) (conf : float) :
  List.length (ClassifierLabels.load_labels lines) = List.length lines
  /\ (forall line,
        nth_error lines idx = Some line ->
        ClassifierLabels.predict (ClassifierLabels.load_labels lines) idx conf
        = ClassifierApp.Classified (strip line) conf)
  /\ ((List.length lines <= idx)%nat ->
      let failed :=
        ClassifierLabels.predict (ClassifierLabels.load_labels lines) idx conf in
      filter is_set_value (events (ClassifierApp.cycle sin failed)) = []
      /\ outcome (ClassifierApp.cycle sin failed)
         = Raise (Exception "list index out of range")
      /\ forall rest,
           events (ClassifierApp.main sin (failed :: rest) None)
           = events (ClassifierApp.main_body sin [failed])
             ++ shutdown_trace (Exception "list index out of range")).
Proof.
  split; [apply length_map|]. split; [intros line; apply predict_in_bounds|].
  intros Hidx. cbv zeta. rewrite predict_out_of_bounds by exact Hidx.
  split; [reflexivity|]. split; [reflexivity|].
  intros rest. unfold ClassifierApp.main, ClassifierApp.guarded_body.
  rewrite (try_except_finally_raise _ (Exception "list index out of range")).
  - pose proof (classifier_main_loop_cut sin [] rest "list index out of range")
      as Hcut.
    cbn [app] in Hcut. unfold ClassifierApp.main_body. now rewrite Hcut.
  - reflexivity.
Qed.

(** X16. White space around a label in [labels.txt] (the line ending
    included) and the case of its letters do not matter to the motion: a
    cycle whose predicted line is a label surrounded by white space moves the
    servos exactly as the lower-cased label would. *)
Theorem label_line_padding_and_case_ignored (sin : float -> float)
        (lines : list string) (idx : nat) (conf : float)
        (ws1 ws2 label : string) :
  nth_error lines idx = Some (ws1 ++ label ++ ws2)%string ->
  all_space ws1 = true -> all_space ws2 = true ->
  ClassifierLabels.predict (ClassifierLabels.load_labels lines) idx conf
  = ClassifierApp.Classified (strip label) conf
  /\ motion (events (ClassifierApp.cycle sin
                       (ClassifierLabels.predict
                          (ClassifierLabels.load_labels lines) idx conf)))
     = motion (events (ClassifierApp.trigger_actuator sin (lower (strip label)))).
Proof.
  intros Hline H1 H2.
  rewrite (predict_in_bounds _ _ _ _ Hline), strip_padding by assumption.
  split; [reflexivity|].
  rewrite classifier_cycle_unfold. cbn [events fst].
  rewrite motion_app. cbn [motion filter is_motion app].
  fold (motion (events (ClassifierApp.trigger_actuator sin (strip label)))).
  now rewrite !classifier_trigger_motion, lower_idem.
Qed.

Lemma label_line_padding_and_case_ignored_witness :
  nth_error ["wet"; " Dry" ++ String "010" EmptyString]%string 1
  = Some (" " ++ "Dry" ++ String "010" EmptyString)%string
  /\ all_space " " = true /\ all_space (String "010" EmptyString) = true
  /\ motion (events (ClassifierApp.cycle RefSin.sin
                       (ClassifierLabels.predict
                          (ClassifierLabels.load_labels
                             ["wet"; " Dry" ++ String "010" EmptyString]%string)
                          1 lit_0_5)))
     = motion (events (ClassifierApp.trigger_actuator RefSin.sin
                         (lower (strip "Dry")))).
Proof.
  split; [reflexivity|]. split; [reflexivity|]. split; [reflexivity|].
  exact (proj2 (label_line_padding_and_case_ignored RefSin.sin
                  ["wet"; " Dry" ++ String "010" EmptyString]%string 1 lit_0_5
                  " " (String "010" EmptyString) "Dry" eq_refl eq_refl eq_refl)).
Defined.

(** * How far a sweep can leave the interval of its two ends *)

Lemma SFadd_error (x y : spec_float) :
  fin x = true -> fin y = true ->
  Z.abs (fval x + fval y) <= 2 * 2 ^ value_scale ->
  fin (SFadd prec emax x y) = true
  /\ Z.abs (fval (SFadd prec emax x y) - (fval x + fval y)) <= 2 ^ (value_scale - 53).
Proof.
  intros Hx Hy Hb.
  assert (0 <= 2 ^ (value_scale - 53)) by (apply Z.pow_nonneg; lia).
  destruct (SFadd_form x y Hx Hy) as [[Hf Hv]|(M & e & He & Hv & ->)].
  - split; [exact Hf|]. rewrite Hv. lia.
  - rewrite <- Hv in *. now apply binary_normalize_error.
Qed.

(** The result of an addition whose exact value is between the opposite of
    a binary64 number and 0 lies between them. *)
Lemma exact_or_rounded_bounds_nonpos (r : spec_float) (v mh eh : Z) :
  exact_or_rounded r v ->
  repr mh eh ->
  - bval mh eh <= v <= 0 ->
  fin r = true /\ - bval mh eh <= fval r <= 0.
Proof.
  intros [[Hf Hv]|(M & e & He & Hv & ->)] Hhi Hb.
  - split; [exact Hf|]. rewrite Hv. exact Hb.
  - rewrite <- Hv in Hb. destruct M as [|p|p].
    + cbn [binary_normalize fin fval]. change (bval 0 e) with 0 in Hb.
      split; [reflexivity|lia].
    + pose proof (bval_pos (Zpos p) e ltac:(lia) He). lia.
    + cbn [binary_normalize]. rewrite bval_opp in Hb.
      destruct (binary_round_bounds true p e 0 mh eh He (or_introl eq_refl) Hhi)
        as (Hf & Hs & Hm); [lia|].
      split; [exact Hf|]. rewrite (fval_signed true _ Hs). lia.
Qed.

(** A number plus a fraction of its opposite lies between 0 and the
    number. *)
Lemma SFadd_towards_zero (x p : spec_float) :
  fin x = true -> fin p = true ->
  (0 <= fval x -> - fval x <= fval p <= 0) ->
  (fval x <= 0 -> 0 <= fval p <= - fval x) ->
  fin (SFadd prec emax x p) = true
  /\ Z.min 0 (fval x) <= fval (SFadd prec emax x p) <= Z.max 0 (fval x).
Proof.
  intros Hx Hp Hpos Hneg.
  destruct x as [sx|sx| |sx m e]; try discriminate.
  - (* the number is a zero *)
    cbn [fval] in *. specialize (Hpos ltac:(lia)).
    destruct (SFadd_bounds_nonneg (S754_zero sx) p 0 (2 ^ 52) (-52) eq_refl Hp
                (or_introl eq_refl) repr_one) as [Hf [Hlo _]].
    { cbn [fval]. rewrite bval_one.
      assert (0 < 2 ^ value_scale) by (apply pow2_pos; unfold value_scale; lia). lia. }
    destruct (exact_or_rounded_bounds_nonpos _ _ (2 ^ 52) (-52)
                (SFadd_form (S754_zero sx) p eq_refl Hp) repr_one) as [_ [_ Hhi]].
    { cbn [fval]. rewrite bval_one.
      assert (0 < 2 ^ value_scale) by (apply pow2_pos; unfold value_scale; lia). lia. }
    split; [exact Hf|]. lia.
  - pose proof (fin_finite _ _ _ Hx) as Hr.
    assert (Hb : 0 < bval (Zpos m) e).
    { destruct Hr as [[? [? ?]] ?]. apply bval_pos; unfold value_scale; lia. }
    destruct sx; cbn [fval] in *.
    + specialize (Hneg ltac:(lia)).
      destruct (exact_or_rounded_bounds_nonpos _ _ (Zpos m) e
                  (SFadd_form (S754_finite true m e) p Hx Hp) Hr) as [Hf Hv].
      { cbn [fval]. lia. }
      split; [exact Hf|]. lia.
    + specialize (Hpos ltac:(lia)).
      destruct (SFadd_bounds_nonneg (S754_finite false m e) p 0 (Zpos m) e Hx Hp
                  (or_introl eq_refl) Hr) as [Hf Hv].
      { cbn [fval]. lia. }
      split; [exact Hf|]. lia.
Qed.

Lemma fsub_zero_l (x : float) :
  fin x = true ->
  fin (S754_zero false - x)%b64 = true /\ fval (S754_zero false - x)%b64 = - fval x.
Proof.
  intros Hx. destruct x as [s|s| |s m e]; try discriminate.
  - destruct s; split; reflexivity.
  - split; [exact Hx|]. destruct s; cbn [fsub SFsub SFopp negb fval]; lia.
Qed.

Lemma fsub_zero_r (x : float) :
  fin x = true ->
  fin (x - S754_zero false)%b64 = true /\ fval (x - S754_zero false)%b64 = fval x.
Proof.
  intros Hx. destruct x as [s|s| |s m e]; try discriminate.
  - destruct s; split; reflexivity.
  - split; [exact Hx|reflexivity].
Qed.

Lemma fadd_zero_l (p : float) :
  fin p = true ->
  fin (S754_zero false + p)%b64 = true /\ fval (S754_zero false + p)%b64 = fval p.
Proof.
  intros Hp. destruct p as [s|s| |s m e]; try discriminate.
  - destruct s; split; reflexivity.
  - split; [exact Hp|reflexivity].
Qed.

Section SweepEnvelope.
Variable sin : float -> float.
Hypothesis sin_range : sin_in_unit_range sin.

(** Any two valid values of [[-1, 1]]: within [2^-52] of their interval. *)
Lemma current_val_envelope (start_val end_val t : float) :
  fin start_val = true -> fin end_val = true ->
  in_unit_range start_val = true -> in_unit_range end_val = true ->
  fin t = true -> has_sign false t -> fmag t <= 2 ^ value_scale ->
  let v := current_val sin start_val (end_val - start_val)%b64 t in
  fin v = true
  /\ Z.min (fval start_val) (fval end_val) - 2 ^ (value_scale - 52) <= fval v
     <= Z.max (fval start_val) (fval end_val) + 2 ^ (value_scale - 52).
Proof.
  intros Hfa Hfb Hra Hrb Hft Hst Hmt. cbv zeta. unfold current_val.
  apply in_unit_range_spec in Hra, Hrb; try assumption.
  rewrite fmag_abs in Hra, Hrb.
  assert (Hh : 0 < 2 ^ (value_scale - 53)) by (apply pow2_pos; unfold value_scale; lia).
  assert (H52 : 2 ^ (value_scale - 52) = 2 * 2 ^ (value_scale - 53)).
  { rewrite <- pow2_succ by (unfold value_scale; lia). f_equal; lia. }
  assert (Hhle : 2 ^ (value_scale - 53) <= 2 ^ value_scale)
    by (apply pow2_le; unfold value_scale; lia).
  destruct (SFsub_error end_val start_val Hfb Hfa) as [Hfd Herr]; [lia|].
  fold (fsub end_val start_val) in *.
  remember (fsub end_val start_val) as delta eqn:Ed. clear Ed.
  destruct (eased_fraction_range sin sin_range t Hft Hst Hmt) as (Hff & Hsf & Hmf).
  remember (eased_fraction sin t) as f eqn:Ef. clear Ef.
  destruct (SFmul_fraction delta f Hfd Hff Hsf Hmf) as (Hfp & Hpos & Hneg).
  fold (fmul delta f) in *.
  remember (fmul delta f) as p eqn:Ep. clear Ep.
  destruct (SFadd_error start_val p Hfa Hfp) as [Hfc Hec].
  - destruct (Z.leb_spec 0 (fval delta)) as [H0|H0].
    + specialize (Hpos H0). lia.
    + specialize (Hneg ltac:(lia)). lia.
  - fold (fadd start_val p) in *. split; [exact Hfc|].
    rewrite H52.
    destruct (Z.leb_spec 0 (fval delta)) as [H0|H0].
    + specialize (Hpos H0). lia.
    + specialize (Hneg ltac:(lia)). lia.
Qed.

(** From or to 0.0: within the interval. *)
Lemma current_val_between_zero (x t : float) :
  fin x = true ->
  fin t = true -> has_sign false t -> fmag t <= 2 ^ value_scale ->
  (let v := current_val sin (S754_zero false) (x - S754_zero false)%b64 t in
   fin v = true /\ Z.min 0 (fval x) <= fval v <= Z.max 0 (fval x))
  /\ (let v := current_val sin x (S754_zero false - x)%b64 t in
      fin v = true /\ Z.min 0 (fval x) <= fval v <= Z.max 0 (fval x)).
Proof.
  intros Hx Hft Hst Hmt. cbv zeta. unfold current_val.
  destruct (eased_fraction_range sin sin_range t Hft Hst Hmt) as (Hff & Hsf & Hmf).
  remember (eased_fraction sin t) as f eqn:Ef. clear Ef.
  split.
  - destruct (fsub_zero_r x Hx) as [Hfd Hvd].
    remember (x - S754_zero false)%b64 as delta eqn:Ed. clear Ed.
    destruct (SFmul_fraction delta f Hfd Hff Hsf Hmf) as (Hfp & Hpos & Hneg).
    fold (fmul delta f) in *.
    destruct (fadd_zero_l _ Hfp) as [Hfs Hvs].
    split; [exact Hfs|]. rewrite Hvs.
    destruct (Z.leb_spec 0 (fval delta)) as [H0|H0].
    + specialize (Hpos H0). lia.
    + specialize (Hneg ltac:(lia)). lia.
  - destruct (fsub_zero_l x Hx) as [Hfd Hvd].
    remember (S754_zero false - x)%b64 as delta eqn:Ed. clear Ed.
    destruct (SFmul_fraction delta f Hfd Hff Hsf Hmf) as (Hfp & Hpos & Hneg).
    fold (fmul delta f) in *.
    apply SFadd_towards_zero; try assumption.
    + intros H0. specialize (Hneg ltac:(lia)). lia.
    + intros H0. specialize (Hpos ltac:(lia)). lia.
Qed.

End SweepEnvelope.

(** X18. A sweep between two integer angles of [[0, 180]] never leaves the
    interval of its two end commands by more than [2^-52] (one unit in the
    last place of 1.0; [fval] is the value in units of [2^-2200]): whatever
    the step count up to [2^53], every commanded value is a finite float in
    that slightly widened interval.  ([math.sin] is taken to return floats of
    [[-1, 1]] at finite arguments.) *)
Theorem sweep_overshoot_bound (sin : float -> float) (srv : servo)
        (a b steps : Z) (delay : float) :
  sin_in_unit_range sin ->
  0 <= a <= 180 -> 0 <= b <= 180 -> 1 <= steps <= 2 ^ 53 ->
  Forall (fun v =>
            fin v = true
            /\ Z.min (fval (deg_to_val a)) (fval (deg_to_val b))
               - 2 ^ (value_scale - 52) <= fval v
               <= Z.max (fval (deg_to_val a)) (fval (deg_to_val b))
                  + 2 ^ (value_scale - 52))
         (values_written srv (events (sine_sweep sin srv a b steps delay))).
Proof.
  intros Hsin Ha Hb Hs. rewrite sweep_values by lia.
  apply Forall_forall. intros v Hv. apply in_map_iff in Hv as (i & <- & Hi).
  apply range_spec in Hi. unfold step_value.
  destruct (deg_to_val_valid a Ha) as [Hfa Hra].
  destruct (deg_to_val_valid b Hb) as [Hfb Hrb].
  destruct (truediv_range i steps) as (Hft & Hst & Hmt); [lia|lia|].
  now apply current_val_envelope.
Qed.

Lemma sweep_overshoot_bound_witness :
  sin_in_unit_range RefSin.sin /\ 0 <= 2 <= 180 /\ 0 <= 135 <= 180
  /\ 1 <= 200 <= 2 ^ 53
  /\ Forall (fun v =>
               fin v = true
               /\ Z.min (fval (deg_to_val 2)) (fval (deg_to_val 135))
                  - 2 ^ (value_scale - 52) <= fval v
                  <= Z.max (fval (deg_to_val 2)) (fval (deg_to_val 135))
                     + 2 ^ (value_scale - 52))
            (values_written servo_tilt
               (events (sine_sweep RefSin.sin servo_tilt 2 135 200 default_delay))).
Proof.
  assert (H1 : 0 <= 2 <= 180) by lia.
  assert (H2 : 0 <= 135 <= 180) by lia.
  assert (H3 : 1 <= 200 <= 2 ^ 53) by lia.
  split; [exact refsin_in_unit_range|]. split; [exact H1|]. split; [exact H2|].
  split; [exact H3|].
  exact (sweep_overshoot_bound RefSin.sin servo_tilt 2 135 200 default_delay
           refsin_in_unit_range H1 H2 H3).
Defined.

(** X19. A sweep that starts or ends at the Neutral Position -- as every
    sweep of the two scripts does -- does not overshoot at all: each
    commanded value is a finite float between the commands of its two end
    angles, inclusive.  ([math.sin] is taken to return floats of [[-1, 1]] at
    finite arguments.) *)
Theorem neutral_sweeps_stay_between (sin : float -> float) (srv : servo)
        (a b steps : Z) (delay : float) :
  sin_in_unit_range sin ->
  0 <= a <= 180 -> 0 <= b <= 180 -> a = CENTER_POS \/ b = CENTER_POS ->
  1 <= steps <= 2 ^ 53 ->
  Forall (fun v =>
            fin v = true
            /\ Z.min (fval (deg_to_val a)) (fval (deg_to_val b)) <= fval v
               <= Z.max (fval (deg_to_val a)) (fval (deg_to_val b)))
         (values_written srv (events (sine_sweep sin srv a b steps delay))).
Proof.
  intros Hsin Ha Hb Hc Hs. rewrite sweep_values by lia.
  apply Forall_forall. intros v Hv. apply in_map_iff in Hv as (i & <- & Hi).
  apply range_spec in Hi. unfold step_value.
  destruct (truediv_range i steps) as (Hft & Hst & Hmt); [lia|lia|].
  destruct Hc as [->| ->]; change (deg_to_val CENTER_POS) with (S754_zero false);
    cbn [fval].
  - destruct (deg_to_val_valid b Hb) as [Hfb _].
    apply (current_val_between_zero sin Hsin (deg_to_val b) _ Hfb Hft Hst Hmt).
  - destruct (deg_to_val_valid a Ha) as [Hfa _].
    rewrite Z.min_comm, Z.max_comm.
    apply (current_val_between_zero sin Hsin (deg_to_val a) _ Hfa Hft Hst Hmt).
Qed.

Lemma neutral_sweeps_stay_between_witness :
  sin_in_unit_range RefSin.sin /\ 0 <= 90 <= 180 /\ 0 <= 135 <= 180
  /\ (90 = CENTER_POS \/ 135 = CENTER_POS) /\ 1 <= 200 <= 2 ^ 53
  /\ Forall (fun v =>
               fin v = true
               /\ Z.min (fval (deg_to_val 90)) (fval (deg_to_val 135)) <= fval v
                  <= Z.max (fval (deg_to_val 90)) (fval (deg_to_val 135)))
            (values_written servo_pan
               (events (sine_sweep RefSin.sin servo_pan 90 135 200 default_delay))).
Proof.
  assert (H1 : 0 <= 90 <= 180) by lia.
  assert (H2 : 0 <= 135 <= 180) by lia.
  assert (H3 : 90 = CENTER_POS \/ 135 = CENTER_POS) by (left; reflexivity).
  assert (H4 : 1 <= 200 <= 2 ^ 53) by lia.
  split; [exact refsin_in_unit_range|]. split; [exact H1|]. split; [exact H2|].
  split; [exact H3|]. split; [exact H4|].
  exact (neutral_sweeps_stay_between RefSin.sin servo_pan 90 135 200 default_delay
           refsin_in_unit_range H1 H2 H3 H4).
Defined.
